(** * KewKew: a disk-backed priority job queue (src/index.js)

    A shallow embedding of the controller in [src/index.js].  The JavaScript
    code is callback driven: every file-system operation and every timer
    takes a closure that runs later.  The closures are defunctionalised
    into the type [Cont]; outstanding file-system requests and timers are
    kept in the world state, and the environment decides when (and with
    which result) each of them completes.

    Job objects are shared mutable JavaScript objects, so they live in a
    heap ([heap]) and the queue, the timers and the callbacks hold
    references ([jref]) to them.

    Not in the sources and therefore taken as parameters or modelled from
    the specification, each marked where it is defined: the Job class
    (lib/job.js), the helpers (lib/helpers.js), the event emitter
    (lib/emitter.js, whose [trigger] is recorded in the trace) and the
    async library's priority queue.  The queue's own notifications
    (saturated, empty, drain) and [destroy] are left out.  The event loop
    ([step]) is that of a controller whose recovery has completed. *)

From stdpp Require Import gmap strings list.
From Stdlib Require Import ZArith Lia.

Set Default Proof Using "Type".

(** ** Data *)

Definition Err := string.

(** Reference to a JavaScript [Job] object. *)
Abbreviation jref := nat.

(** The fields of a [Job] object that [src/index.js] reads or writes.
    [scheduled] is [job.options.scheduled], a time in milliseconds. *)
Record Job := mkJob {
  job_id : string;
  payload : string;
  directory : string;
  file : string;
  attempts : Z;
  processing : bool;
  scheduled : Z
}.

Definition set_processing (b : bool) (j : Job) : Job :=
  mkJob (job_id j) (payload j) (directory j) (file j) (attempts j) b (scheduled j).
Definition set_attempts (a : Z) (j : Job) : Job :=
  mkJob (job_id j) (payload j) (directory j) (file j) a (processing j) (scheduled j).
Definition set_scheduled (s : Z) (j : Job) : Job :=
  mkJob (job_id j) (payload j) (directory j) (file j) (attempts j) (processing j) s.

(** [this.options] of the controller. *)
Record Options := mkOptions {
  opt_directory : string;
  autoStart : bool;
  concurrency : nat;
  reloadConcurrency : nat;
  delayEarlyJob : Z;
  retryFailedJobs : bool;
  retryFailedJobDelay : Z;
  destroySuccessfulJobs : bool;
  destroyFailedJobs : bool;
  moveSuccessfulJobs : bool;
  moveFailedJobs : bool;
  maxJobFailures : Z;
  prettifyJSON : bool
}.

(** The [options] argument of the constructor: every key may be absent. *)
Record UserOptions := mkUserOptions {
  u_directory : option string;
  u_autoStart : option bool;
  u_concurrency : option nat;
  u_reloadConcurrency : option nat;
  u_delayEarlyJob : option Z;
  u_retryFailedJobs : option bool;
  u_retryFailedJobDelay : option Z;
  u_destroySuccessfulJobs : option bool;
  u_destroyFailedJobs : option bool;
  u_moveSuccessfulJobs : option bool;
  u_moveFailedJobs : option bool;
  u_maxJobFailures : option Z;
  u_prettifyJSON : option bool
}.

(** The defaults written in the constructor; [uid] is [++KEWKEW_UID]. *)
Definition default_options (uid : string) : Options :=
  mkOptions ("./kewkew-" +:+ uid) true 4 16 1000 false 15000 false false true true 3 false.

(** Modelled from the spec: [helpers.applyOptions] (lib/helpers.js is not
    part of the sources) performs the option defaulting: a key present in
    the caller's object replaces the default. *)
Definition applyOptions (d : Options) (u : UserOptions) : Options :=
  mkOptions
    (default (opt_directory d) (u_directory u))
    (default (autoStart d) (u_autoStart u))
    (default (concurrency d) (u_concurrency u))
    (default (reloadConcurrency d) (u_reloadConcurrency u))
    (default (delayEarlyJob d) (u_delayEarlyJob u))
    (default (retryFailedJobs d) (u_retryFailedJobs u))
    (default (retryFailedJobDelay d) (u_retryFailedJobDelay u))
    (default (destroySuccessfulJobs d) (u_destroySuccessfulJobs u))
    (default (destroyFailedJobs d) (u_destroyFailedJobs u))
    (default (moveSuccessfulJobs d) (u_moveSuccessfulJobs u))
    (default (moveFailedJobs d) (u_moveFailedJobs u))
    (default (maxJobFailures d) (u_maxJobFailures u))
    (default (prettifyJSON d) (u_prettifyJSON u)).

(** Lines 39-44 of the constructor: asking for destruction switches the
    corresponding move option off in the caller's object. *)
Definition disable_moves (u : UserOptions) : UserOptions :=
  let u1 :=
    match u_destroySuccessfulJobs u with
    | Some true =>
        mkUserOptions (u_directory u) (u_autoStart u) (u_concurrency u)
          (u_reloadConcurrency u) (u_delayEarlyJob u) (u_retryFailedJobs u)
          (u_retryFailedJobDelay u) (u_destroySuccessfulJobs u)
          (u_destroyFailedJobs u) (Some false) (u_moveFailedJobs u)
          (u_maxJobFailures u) (u_prettifyJSON u)
    | _ => u
    end in
  match u_destroyFailedJobs u1 with
  | Some true =>
      mkUserOptions (u_directory u1) (u_autoStart u1) (u_concurrency u1)
        (u_reloadConcurrency u1) (u_delayEarlyJob u1) (u_retryFailedJobs u1)
        (u_retryFailedJobDelay u1) (u_destroySuccessfulJobs u1)
        (u_destroyFailedJobs u1) (u_moveSuccessfulJobs u1) (Some false)
        (u_maxJobFailures u1) (u_prettifyJSON u1)
  | _ => u1
  end.

(** [new KewKew(worker, options)], as far as the options go: [this.options]
    as [helpers.applyOptions] leaves it (line 45).  The constructor then
    makes the directory absolute with [path.resolve] (line 46), which
    depends on the working directory of the process and is not part of
    this definition: [opt_directory] is the directory as given. *)
Definition KewKew_options (uid : string) (options : option UserOptions) : Options :=
  match options with
  | None => default_options uid
  | Some u => applyOptions (default_options uid) (disable_moves u)
  end.

(** ** File-system requests, callbacks and the trace *)

Inductive IOReq :=
| IOWrite (path : string) (snap : Job)      (* job.persist *)
| IORename (src dst : string)               (* fs.rename *)
| IOUnlink (path : string).                 (* job.destroy *)

(** The closures of [src/index.js], one constructor per function
    expression that is handed to an asynchronous operation. *)
Inductive Cont :=
| KWorker (j : jref)                 (* _worker: callback given to _persist *)
| KPush (j : jref) (cb : option nat) (* push: callback given to _persist *)
| KRetry (j : jref) (cb : option nat)(* retry: callback given to _persist *)
| KRename                            (* _onJobComplete: fs.rename callback *)
| KDestroy (j : jref)                (* _onJobComplete: _destroy callback *)
| KEarly (j : jref)                  (* _worker: setTimeout body *)
| KPoll (cb : nat).                  (* shutdown: setTimeout body in whilst *)

(** What an observer can see, in chronological order. *)
Inductive Entry :=
| Trigger (name : string) (e : option Err) (j : option jref)
| Exec (j : jref) (snap : Job)        (* this.worker(job, ...) is invoked *)
| Wrote (path : string) (snap : Job)  (* a persist reached the disk *)
| Callback (tag : nat) (e : option Err) (j : option jref)
| Uncaught (e : Err).

(** ** The world *)

Record World := mkWorld {
  clock : Z;                        (* new Date().getTime() *)
  heap : list Job;                  (* the Job objects *)
  tasks : list (Z * jref);          (* _queue: pending tasks with priority *)
  paused : bool;                    (* _queue.paused *)
  workers : nat;                    (* _queue.running() *)
  disk : gmap string Job;           (* the queue directory *)
  io : list (IOReq * Cont);         (* outstanding file-system requests *)
  timers : list (Z * Cont);         (* setTimeout: due time and body *)
  inflight : list jref;             (* handed to this.worker, not called back *)
  log : list Entry
}.

Definition set_clock (x : Z) (w : World) : World :=
  mkWorld x (heap w) (tasks w) (paused w) (workers w) (disk w) (io w) (timers w) (inflight w) (log w).
Definition set_heap (x : list Job) (w : World) : World :=
  mkWorld (clock w) x (tasks w) (paused w) (workers w) (disk w) (io w) (timers w) (inflight w) (log w).
Definition set_tasks (x : list (Z * jref)) (w : World) : World :=
  mkWorld (clock w) (heap w) x (paused w) (workers w) (disk w) (io w) (timers w) (inflight w) (log w).
Definition set_paused (x : bool) (w : World) : World :=
  mkWorld (clock w) (heap w) (tasks w) x (workers w) (disk w) (io w) (timers w) (inflight w) (log w).
Definition set_workers (x : nat) (w : World) : World :=
  mkWorld (clock w) (heap w) (tasks w) (paused w) x (disk w) (io w) (timers w) (inflight w) (log w).
Definition set_disk (x : gmap string Job) (w : World) : World :=
  mkWorld (clock w) (heap w) (tasks w) (paused w) (workers w) x (io w) (timers w) (inflight w) (log w).
Definition set_io (x : list (IOReq * Cont)) (w : World) : World :=
  mkWorld (clock w) (heap w) (tasks w) (paused w) (workers w) (disk w) x (timers w) (inflight w) (log w).
Definition set_timers (x : list (Z * Cont)) (w : World) : World :=
  mkWorld (clock w) (heap w) (tasks w) (paused w) (workers w) (disk w) (io w) x (inflight w) (log w).
Definition set_inflight (x : list jref) (w : World) : World :=
  mkWorld (clock w) (heap w) (tasks w) (paused w) (workers w) (disk w) (io w) (timers w) x (log w).
Definition set_log (x : list Entry) (w : World) : World :=
  mkWorld (clock w) (heap w) (tasks w) (paused w) (workers w) (disk w) (io w) (timers w) (inflight w) x.

(** A freshly constructed controller: [_initQueue] pauses the queue. *)
Definition new_world (now : Z) (d : gmap string Job) : World :=
  mkWorld now [] [] true 0 d [] [] [] [].

(** ** Actions: state with exceptions *)

Inductive Outcome :=
| Done (w : World)
| Thrown (e : Err) (w : World).

Definition M := World -> Outcome.

Definition ret : M := Done.
Definition throw (e : Err) : M := Thrown e.
Definition seq (a b : M) : M :=
  fun w => match a w with Done w' => b w' | Thrown e w' => Thrown e w' end.
Notation "a >> b" := (seq a b) (at level 65, right associativity).

Definition modify (f : World -> World) : M := fun w => Done (f w).

(** The state an outcome leaves behind. *)
Definition final (o : Outcome) : World :=
  match o with Done w => w | Thrown _ w => w end.

(** ** The controller *)

(** [path.join(dir, name)] for a directory without trailing separator. *)
Definition path_join (dir name : string) : string := dir +:+ "/" +:+ name.

(** JavaScript truthiness of a number ([options.scheduled || currentDate]). *)
Definition truthy (z : Z) : bool := negb (z =? 0)%Z.

(** Modelled from the spec: the tasks of [async.priorityQueue] are kept in
    ascending priority, ties in insertion order (the queue is a library,
    not part of the sources). *)
Fixpoint q_insert (p : Z) (j : jref) (ts : list (Z * jref)) : list (Z * jref) :=
  match ts with
  | [] => [(p, j)]
  | (p', j') :: r =>
      if (p' <=? p)%Z then (p', j') :: q_insert p j r else (p, j) :: ts
  end.

(** Removal of the first occurrence. *)
Fixpoint remove_first (j : jref) (l : list jref) : list jref :=
  match l with
  | [] => []
  | x :: r => if decide (x = j) then r else x :: remove_first j r
  end.

Definition member (j : jref) (l : list jref) : bool := bool_decide (j ∈ l).

Section Controller.

(** [this.options], and whether the caller-supplied [this.worker] throws
    synchronously on a given record. *)
Variable o : Options.
Variable worker_throws : Job -> option Err.

Definition trigger (name : string) (e : option Err) (j : option jref) : M :=
  modify (fun w => set_log (log w ++ [Trigger name e j]) w).

Definition emit (x : Entry) : M :=
  modify (fun w => set_log (log w ++ [x]) w).

(** A caller-supplied callback, when one was given ([callback && callback(..)]). *)
Definition call_back (cb : option nat) (e : option Err) (j : option jref) : M :=
  match cb with
  | Some tag => emit (Callback tag e j)
  | None => ret
  end.

(** Access to a Job object through its reference. *)
Definition with_job (j : jref) (k : Job -> M) : M :=
  fun w => match heap w !! j with
           | Some job => k job w
           | None => Thrown "TypeError" w
           end.

Definition update_job (j : jref) (f : Job -> Job) : M :=
  with_job j (fun job => modify (fun w => set_heap (<[j := f job]> (heap w)) w)).

Definition add_io (r : IOReq) (k : Cont) : M :=
  modify (fun w => set_io (io w ++ [(r, k)]) w).

Definition setTimeout (k : Cont) (delay : Z) : M :=
  modify (fun w => set_timers (timers w ++ [((clock w + delay)%Z, k)]) w).

(** [_persist(job, callback)]: [job.persist] serialises the record as it
    is now and writes it to its backing file. *)
Definition _persist (j : jref) (k : Cont) : M :=
  with_job j (fun job => add_io (IOWrite (file job) job) k).

(** [_destroy(job, callback)]. *)
Definition _destroy (j : jref) (k : Cont) : M :=
  with_job j (fun job => add_io (IOUnlink (file job)) k).

(** [_enqueue(job)]. *)
Definition _enqueue (j : jref) : M :=
  update_job j (set_processing false) >>
  with_job j (fun job =>
    modify (fun w => set_tasks (q_insert (scheduled job) j (tasks w)) w)).

(** [retry(job, callback)]. *)
Definition retry (j : jref) (cb : option nat) : M :=
  with_job j (fun job =>
    if processing job then
      update_job j (fun job => set_scheduled (scheduled job + retryFailedJobDelay o) job) >>
      _persist j (KRetry j cb)
    else
      throw "Cannot retry job because it is unprocessed").

(** [_onJobComplete(err, job)]. *)
Definition _onJobComplete (err : option Err) (job : option jref) : M :=
  match err, job with
  | Some e, Some j =>
      trigger "job:error" (Some e) (Some j) >>
      trigger "error" (Some e) None >>
      if retryFailedJobs o then
        with_job j (fun r =>
          if (maxJobFailures o <=? 0)%Z || (attempts r <? maxJobFailures o)%Z then
            retry j None
          else
            trigger "job:fail" None (Some j) >>
            if moveFailedJobs o then
              add_io (IORename (file r) (path_join (directory r) (".failed-" +:+ job_id r))) KRename
            else if destroyFailedJobs o then
              _destroy j (KDestroy j)
            else ret)
      else ret
  | Some e, None =>
      (* the source would read [job.attempts] of null when retries are on *)
      trigger "job:error" (Some e) None >>
      trigger "error" (Some e) None >>
      if retryFailedJobs o then throw "TypeError" else ret
  | None, Some j =>
      trigger "job:complete" None (Some j) >>
      if moveSuccessfulJobs o then
        with_job j (fun r =>
          add_io (IORename (file r) (path_join (directory r) (".success-" +:+ job_id r))) KRename)
      else if destroySuccessfulJobs o then
        _destroy j (KDestroy j)
      else ret
  | None, None => ret
  end.

(** [_worker(job, callback)]: everything up to the asynchronous call. *)
Definition _worker (j : jref) : M :=
  fun w =>
    let timestamp := clock w in
    (update_job j (set_processing true) >>
     with_job j (fun job =>
       if (scheduled job <=? timestamp)%Z then
         update_job j (fun job => set_attempts (attempts job + 1) job) >>
         _persist j (KWorker j)
       else
         setTimeout (KEarly j) (delayEarlyJob o))) w.

(** Modelled from the spec: one turn of the queue's dispatch loop.  While
    paused, or while no slot is free, or while nothing is pending, the
    queue idles; otherwise it pops the earliest task, occupies a slot and
    calls the worker. *)
Definition process : M :=
  fun w =>
    if negb (paused w) && (workers w <? concurrency o)%nat then
      match tasks w with
      | (_, j) :: r =>
          _worker j (set_tasks r (set_workers (S (workers w)) w))
      | [] => Done w
      end
    else Done w.

(** The callback the queue hands to the worker: it frees the slot, calls
    the task's completion callback ([_onJobComplete], given in
    [_enqueue]) and looks for more work. *)
Definition next (err : option Err) (job : option jref) : M :=
  modify (fun w => set_workers (pred (workers w)) w) >>
  _onJobComplete err job >>
  process.

(** [this.worker(job, function(err) { once(err, job) })] inside try/catch. *)
Definition invoke_worker (j : jref) : M :=
  with_job j (fun job =>
    emit (Exec j job) >>
    match worker_throws job with
    | Some e => next (Some e) (Some j)
    | None => modify (fun w => set_inflight (inflight w ++ [j]) w)
    end).

(** [shutdown]'s [async.whilst] loop: test, then either finish or wait. *)
Definition whilst_running (cb : nat) : M :=
  fun w =>
    if (workers w =? 0)%nat then emit (Callback cb None None) w
    else setTimeout (KPoll cb) 250 w.

(** Running a closure; [err] is the error argument it receives. *)
Definition run_cont (k : Cont) (err : option Err) : M :=
  match k with
  | KWorker j =>
      match err with
      | Some e => next (Some e) (Some j)
      | None => invoke_worker j
      end
  | KPush j cb =>
      match err with
      | Some e => call_back cb (Some e) None
      | None =>
          _enqueue j >>
          trigger "job:queue" None (Some j) >>
          call_back cb None (Some j)
      end
  | KRetry j cb =>
      match err with
      | Some e =>
          trigger "job:error" (Some e) (Some j) >>
          trigger "error" (Some e) None >>
          call_back cb (Some e) None
      | None =>
          _enqueue j >>
          trigger "job:retry" None (Some j) >>
          trigger "job:queue" None (Some j) >>
          call_back cb None None
      end
  | KRename =>
      match err with
      | Some e => trigger "error" (Some e) None
      | None => ret
      end
  | KDestroy j =>
      match err with
      | Some _ => ret
      | None => trigger "job:destroy" None (Some j)
      end
  | KEarly j => _enqueue j >> next None None
  | KPoll cb => whilst_running cb
  end.

(** Completion of a file-system request.  [_persist] and [_destroy] wrap
    the callback they were given; [_destroy] refers to an unbound [_this]
    on its error path. *)
Definition complete_io (r : IOReq) (k : Cont) (res : option Err) : M :=
  match r with
  | IOWrite path snap =>
      match res with
      | Some e => trigger "error" (Some e) None >> run_cont k (Some e)
      | None =>
          modify (fun w => set_disk (<[path := snap]> (disk w)) w) >>
          emit (Wrote path snap) >>
          run_cont k None
      end
  | IORename src dst =>
      match res with
      | Some e => run_cont k (Some e)
      | None =>
          modify (fun w =>
            match disk w !! src with
            | Some c => set_disk (<[dst := c]> (delete src (disk w))) w
            | None => w
            end) >>
          run_cont k None
      end
  | IOUnlink path =>
      match res with
      | Some e => throw "ReferenceError: _this is not defined"
      | None =>
          modify (fun w => set_disk (delete path (disk w)) w) >>
          run_cont k None
      end
  end.

(** ** The public operations *)

(** Modelled from the spec: [new Job(data, options, directory)]
    (lib/job.js is not part of the sources) yields a record with a fresh
    id, zero attempts, the given due time, and its file in the queue
    directory. *)
Definition new_Job (id data : string) (sched : Z) : Job :=
  mkJob id data (opt_directory o) (path_join (opt_directory o) id) 0 false sched.

Definition alloc (job : Job) : M :=
  modify (fun w => set_heap (heap w ++ [job]) w).

(** [push(data, options, callback)]; [sched] is [options.scheduled]. *)
Definition push (id data : string) (sched : option Z) (cb : option nat) : M :=
  fun w =>
    let currentDate := (clock w + 10000)%Z in
    let scheduled :=
      match sched with
      | Some s => if truthy s then s else currentDate
      | None => currentDate
      end in
    let j := length (heap w) in
    (alloc (new_Job id data scheduled) >> _persist j (KPush j cb)) w.

Definition pause : M :=
  fun w =>
    if negb (paused w) then
      (modify (set_paused true) >> trigger "pause" None None) w
    else Done w.

Definition resume : M :=
  fun w =>
    if paused w then
      (modify (set_paused false) >> trigger "resume" None None) w
    else Done w.

(** [shutdown(callback)]. *)
Definition shutdown (cb : nat) : M :=
  modify (set_paused true) >> whilst_running cb.

(** ** Recovery *)

(** Modelled from the spec: [helpers.filterDotFiles] (lib/helpers.js is
    not part of the sources) drops the directory entries that begin with
    the hidden-file marker. *)
Definition filterDotFiles (files : list string) : list string :=
  List.filter (fun f => negb (String.prefix "." f)) files.

(** [Job.fromDisk] (lib/job.js is not part of the sources): what loading
    each path yields. *)
Variable fromDisk : string -> Err + Job.

(** [async.parallelLimit(tasks, limit, callback)]: the tasks finish in
    some order; the first one seen to fail decides the error, and the
    results are delivered, in task order, only when none fails. *)
Fixpoint first_error {A} (rs : list (Err + A)) (order : list nat) : option Err :=
  match order with
  | [] => None
  | i :: rest =>
      match rs !! i with
      | Some (inl e) => Some e
      | _ => first_error rs rest
      end
  end.

Fixpoint collect {A} (rs : list (Err + A)) : Err + list A :=
  match rs with
  | [] => inr []
  | inl e :: _ => inl e
  | inr a :: rest =>
      match collect rest with
      | inl e => inl e
      | inr l => inr (a :: l)
      end
  end.

Definition parallelLimit {A} (rs : list (Err + A)) (order : list nat) : Err + list A :=
  match first_error rs order with
  | Some e => inl e
  | None => collect rs
  end.

(** [(jobs || []).map(_this._enqueue.bind(_this))]. *)
Fixpoint enqueue_all (jobs : list Job) : M :=
  match jobs with
  | [] => ret
  | job :: rest =>
      (fun w => (alloc job >> _enqueue (length (heap w))) w) >> enqueue_all rest
  end.

(** [_reload(callback)]; [listing] is what [fs.readdir] yields and
    [order] the order in which the loads finish. *)
Definition _reload (listing : Err + list string) (order : list nat)
    (callback : option Err -> M) : M :=
  match listing with
  | inl e => callback (Some e)
  | inr files =>
      match parallelLimit
              (map (fun f => fromDisk (path_join (opt_directory o) f))
                   (filterDotFiles files)) order with
      | inl e => callback (Some e)
      | inr jobs => enqueue_all jobs >> callback None
      end
  end.

(** [_initQueue()], lines 71-73: a new queue, paused.  The handlers it
    installs (lines 74-82) forward the queue's own notifications
    [saturated], [empty] and [drain], which are not part of the trace. *)
Definition _initQueue : M :=
  modify (fun w => set_paused true (set_tasks [] w)).

(** The callback [_init] hands to [_reload] (lines 56-62). *)
Definition _init_callback (err : option Err) : M :=
  match err with
  | Some e => trigger "error" (Some e) None
  | None =>
      trigger "ready" None None >>
      if autoStart o then modify (set_paused false) else ret
  end.

(** [_init()] with its recovery run to the end: [_initQueue], then
    [_reload] with the callback above, and no other call in between.
    In the source the callback runs on a later tick than the constructor,
    so calls made right after construction come before it; such a run is
    [_initQueue], the calls, and then [_reload] with [_init_callback]. *)
Definition _init (listing : Err + list string) (order : list nat) : M :=
  modify (fun w => set_paused true (set_tasks [] w)) >>
  _reload listing order (fun err =>
    match err with
    | Some e => trigger "error" (Some e) None
    | None =>
        trigger "ready" None None >>
        if autoStart o then modify (set_paused false) else ret
    end).

(** ** The event loop *)

(** What can happen next: a call of [push], [retry], [pause], [resume]
    or [shutdown] (given a callback), a turn of the queue, the completion
    of a file-system request, a timer, the caller's worker calling back,
    or time passing.  [destroy()] is not among the events: the runs below
    are runs of a controller that is not destroyed. *)
Inductive Event :=
| EPush (id data : string) (sched : option Z) (cb : option nat)
| ERetry (j : jref) (cb : option nat)
| EPause
| EResume
| EShutdown (cb : nat)
| EDispatch
| EIoDone (n : nat) (res : option Err)
| EFire (n : nat)
| EWorkerDone (j : jref) (res : option Err)
| ETick (d : Z).

Definition step (ev : Event) : M :=
  match ev with
  | EPush id data sched cb => push id data sched cb
  | ERetry j cb => retry j cb
  | EPause => pause
  | EResume => resume
  | EShutdown cb => shutdown cb
  | EDispatch => process
  | EIoDone n res =>
      fun w =>
        match io w !! n with
        | Some (r, k) => complete_io r k res (set_io (delete n (io w)) w)
        | None => Done w
        end
  | EFire n =>
      fun w =>
        match timers w !! n with
        | Some (t, k) =>
            if (t <=? clock w)%Z
            then run_cont k None (set_timers (delete n (timers w)) w)
            else Done w
        | None => Done w
        end
  | EWorkerDone j res =>
      fun w =>
        if member j (inflight w)
        then next res (Some j) (set_inflight (remove_first j (inflight w)) w)
        else trigger "error" (Some "worker callback called twice") None w
  | ETick d =>
      modify (fun w => set_clock (clock w + Z.max 0 d)%Z w)
  end.

(** An exception that reaches the event loop is recorded and the state
    reached so far is kept. *)
Definition exec (w : World) (ev : Event) : World :=
  match step ev w with
  | Done w' => w'
  | Thrown e w' => set_log (log w' ++ [Uncaught e]) w'
  end.

Definition run (evs : list Event) (w : World) : World :=
  fold_left exec evs w.

End Controller.

Arguments first_error {A} rs order.
Arguments collect {A} rs.
Arguments parallelLimit {A} rs order.

(** * Notions used in the statements *)

(** ** Observations on traces *)

(** The invocations of the caller-supplied worker recorded in a trace. *)
Definition is_exec (x : Entry) : bool :=
  match x with Exec _ _ => true | _ => false end.

Definition execs (l : list Entry) : list Entry := List.filter is_exec l.

(** The names of the events fired, in order. *)
Definition fired (l : list Entry) : list string :=
  omap (fun x => match x with Trigger n _ _ => Some n | _ => None end) l.

(** ** Relations between the state before and after an action *)

(** [keeps R a]: whatever [a] does, also when it throws, the state it
    leaves behind is [R]-related to the state it started from. *)
Definition keeps (R : World -> World -> Prop) (a : M) : Prop :=
  forall w, R w (final (a w)).

(** The caller's worker has not been invoked in between. *)
Definition same_execs (w w' : World) : Prop := execs (log w') = execs (log w).

(** Once the queue is paused it stays paused and loses no pending task:
    the tasks of the earlier state are still there, in the same order. *)
Definition quiet (w w' : World) : Prop :=
  paused w = true -> paused w' = true /\ sublist (tasks w) (tasks w').

(** No record has its [processing] flag turned on. *)
Definition no_flag_set (w w' : World) : Prop :=
  forall j job, heap w !! j = Some job ->
    exists job', heap w' !! j = Some job' /\
                 (processing job' = true -> processing job = true).

(** The worker has just taken record [j]: the last thing requested is
    either the persist that precedes its execution or its backoff timer. *)
Definition taken_by_worker (j : jref) (w : World) : Prop :=
  (exists req, last (io w) = Some (req, KWorker j)) \/
  (exists t, last (timers w) = Some (t, KEarly j)).

(** A flag is turned on only for a record the worker has just taken. *)
Definition flag_set_by_worker (w w' : World) : Prop :=
  forall j job, heap w !! j = Some job ->
    exists job', heap w' !! j = Some job' /\
                 (processing job' = true ->
                  processing job = true \/ taken_by_worker j w').

(** ** Retry and failure *)

(** A retry of record [j] is under way: its persist has been requested
    with [retry]'s callback. *)
Definition retry_requested (j : jref) (w w' : World) : Prop :=
  exists req cb, io w' = io w ++ [(req, KRetry j cb)].

(** The retry budget, as [_onJobComplete] tests it. *)
Definition within_budget (o : Options) (r : Job) : Prop :=
  retryFailedJobs o = true /\
  (maxJobFailures o <= 0 \/ attempts r < maxJobFailures o)%Z.

(** ['.failed-' + job.id] in the record's directory. *)
Definition failed_marker (r : Job) : string :=
  path_join (directory r) (".failed-" +:+ job_id r).

(** The backing file of [r] is being renamed to its failed marker or,
    with [destroyFailedJobs], deleted. *)
Definition finalized_as_failed (o : Options) (r : Job) (w w' : World) : Prop :=
  (exists k, io w' = io w ++ [(IORename (file r) (failed_marker r), k)]) \/
  (destroyFailedJobs o = true /\ exists k, io w' = io w ++ [(IOUnlink (file r), k)]).

(** The due time [push] gives to the new record. *)
Definition push_due (now : Z) (sched : option Z) : Z :=
  match sched with
  | Some s => if (s =? 0)%Z then (now + 10000)%Z else s
  | None => (now + 10000)%Z
  end.

(** ** Who holds a record

    A record that is on its way through the controller is referred to from
    exactly one place: a pending task, the callback of an outstanding
    persist, the body of a backoff timer, or the caller's worker.  Manual
    retry is what can break this; without it the references stay unique,
    and that is what keeps pending records unprocessed. *)

(** Every pending task refers to a record whose [processing] flag is
    false. *)
Definition pending_unprocessed (w : World) : Prop :=
  forall p j, In (p, j) (tasks w) ->
    exists job, heap w !! j = Some job /\ processing job = false.

(** The record a closure will put back or report on. *)
Definition cont_refs (k : Cont) : list jref :=
  match k with
  | KWorker j | KPush j _ | KRetry j _ | KEarly j => [j]
  | KRename | KDestroy _ | KPoll _ => []
  end.

Definition refs_of {X : Type} (l : list (X * Cont)) : list jref :=
  flat_map (fun x => cont_refs (snd x)) l.

Definition owners (w : World) : list jref :=
  map snd (tasks w) ++ refs_of (io w) ++ refs_of (timers w) ++ inflight w.

Abbreviation cnt j l := (count_occ Nat.eq_dec l j).

(** [held] are the references in the hands of the code that is running:
    together with the owners they are pairwise distinct and in range, and
    the pending records are unprocessed. *)
Definition inv (held : list jref) (w : World) : Prop :=
  (forall j, cnt j held + cnt j (owners w) <= 1) /\
  (forall j, 0 < cnt j held + cnt j (owners w) -> j < length (heap w)) /\
  pending_unprocessed w.

(** Events other than a manual retry. *)
Definition not_manual_retry (ev : Event) : bool :=
  match ev with ERetry _ _ => false | _ => true end.

(** ** Concrete controllers and runs *)

(** A caller-supplied worker that never throws synchronously. *)
Definition never_throws : Job -> option Err := fun _ => None.

(** A controller after recovery of an empty directory at time [now]. *)
Definition started (o : Options) (now : Z) : World :=
  final (_init o (fun _ => inl "unused") (inr []) [] (new_world now ∅)).

(** Directory "q", one slot, retries on, the other options by default. *)
Definition demo_options : Options :=
  KewKew_options "1"
    (Some (mkUserOptions (Some "q") None (Some 1%nat) None None (Some true)
             None None None None None None None)).

Definition demo_job : Job := mkJob "a" "data" "q" "q/a" 0 false 5.

(** One pending record, due in the past, queue running. *)
Definition demo_world : World :=
  mkWorld 100000 [demo_job] [(5%Z, 0%nat)] false 0 ∅ [] [] [] [].


(** The record in the hands of the caller's worker after one attempt. *)
Definition demo_failed_world : World :=
  mkWorld 100000 [mkJob "a" "data" "q" "q/a" 1 true 5] [] false 0 ∅ [] [] [0%nat] [].

(** The record after three attempts, with its file on disk. *)
Definition exhausted_world : World :=
  mkWorld 100000 [mkJob "a" "data" "q" "q/a" 3 true 5] [] false 0
    {["q/a" := mkJob "a" "data" "q" "q/a" 3 true 5]} [] [] [] [].

(** [retryFailedJobs = true], [maxJobFailures = 3], one slot. *)
Definition retrying_options : Options :=
  KewKew_options "1"
    (Some (mkUserOptions (Some "q") None (Some 1%nat) None None (Some true)
             None None None None None (Some 3%Z) None)).

(** A record that fails every time it is executed.  It is pushed at time
    100000 with a due time of 110000; time passes until it is due, it is
    dispatched, persisted, executed, and the caller's worker reports an
    error; the retry is persisted and the same happens again. *)
Definition attempt_and_fail : list Event :=
  [EDispatch; EIoDone 0 None; EWorkerDone 0 (Some "boom")].

Definition always_failing : list Event :=
  [EPush "a" "data" (Some 110000%Z) None; EIoDone 0 None; ETick 10000] ++
  attempt_and_fail ++ [EIoDone 0 None; ETick 15000] ++
  attempt_and_fail ++ [EIoDone 0 None; ETick 15000] ++
  attempt_and_fail ++ [EIoDone 0 None].

Definition always_failing_end : World :=
  run retrying_options never_throws always_failing (started retrying_options 100000).

(** A record pushed at time 100000 with a due time of 5, dispatched and
    persisted: it is in the hands of the caller's worker, and the state is
    the one in which a reported error is handled. *)
Definition overdue_world : World :=
  run retrying_options never_throws
    [EPush "a" "data" (Some 5%Z) None; EIoDone 0 None; EDispatch; EIoDone 0 None]
    (started retrying_options 100000).

(** The same on a controller built without options. *)
Definition plain_options : Options := KewKew_options "1" None.

Definition plain_world : World :=
  run plain_options never_throws
    [EPush "a" "data" (Some 5%Z) None; EIoDone 0 None; EDispatch; EIoDone 0 None]
    (started plain_options 100000).

(** A directory with a finalized (hidden) entry, a good record and a
    corrupt one. *)
Definition demo_fromDisk (p : string) : Err + Job :=
  if String.eqb p "q/good" then inr (mkJob "good" "data" "q" "q/good" 0 false 5)
  else inl "Unexpected token".

(** Two records on a controller with one slot; the first is being
    executed when [shutdown] is called, the second is still pending.
    Afterwards the timer of [shutdown] fires once while the execution is
    still running and once after it has finished. *)
Definition shutdown_run_before : list Event :=
  [EPush "a" "data" (Some 5%Z) None; EPush "b" "data" (Some 6%Z) None;
   EIoDone 0 None; EIoDone 0 None; EDispatch; EIoDone 0 None].

Definition shutdown_run_after : list Event :=
  [EDispatch; ETick 250; EFire 0; EDispatch; EWorkerDone 0 None; EDispatch;
   EIoDone 0 None; ETick 250; EFire 0; EDispatch].

Definition shutting_down : World :=
  exec demo_options never_throws
    (run demo_options never_throws shutdown_run_before (started demo_options 100000))
    (EShutdown 7).

(** A record pushed at time 100000 with a due time of 110000 is handed to
    the worker at once, which finds it early, sets its flag and a timer;
    before the timer fires the caller retries the record by hand, which the
    flag allows.  The record object is then put into the queue by the
    retry and again by the timer, and when one of the two entries is taken
    the other one is pending with [processing = true]. *)
Definition retry_during_backoff : list Event :=
  [EPush "a" "data" (Some 110000%Z) None; EIoDone 0 None; EDispatch;
   ERetry 0 None; EIoDone 0 None; ETick 1000; EFire 0].

(** ** Further notions *)

(** [count()]: [this._queue.length()], the number of pending tasks. *)
Definition count (w : World) : nat := length (tasks w).

(** ['.success-' + job.id] in the record's directory. *)
Definition success_marker (r : Job) : string :=
  path_join (directory r) (".success-" +:+ job_id r).

(** The entry a caller-supplied callback leaves in the trace, if one was
    given. *)
Definition called_back (cb : option nat) (e : option Err) (j : option jref) : list Entry :=
  match cb with
  | Some tag => [Callback tag e j]
  | None => []
  end.

(** The caller's worker holds the same records as before. *)
Definition same_inflight (w w' : World) : Prop := inflight w' = inflight w.

(** The closure an event runs, with the error it receives: the callback
    of a completed request (not reached when a deletion fails, see
    [complete_io]) or the body of a timer that is due. *)
Definition closure_run (ev : Event) (w : World) : option (Cont * option Err) :=
  match ev with
  | EIoDone n res =>
      match io w !! n with
      | Some (IOUnlink _, k) =>
          match res with None => Some (k, None) | Some _ => None end
      | Some (_, k) => Some (k, res)
      | None => None
      end
  | EFire n =>
      match timers w !! n with
      | Some (t, k) => if (t <=? clock w)%Z then Some (k, None) else None
      | None => None
      end
  | _ => None
  end.

(** The invocation of the caller's worker an event leads to: the one made
    by the callback the worker gave to [_persist], run without error. *)
Definition started_execution (ev : Event) (w : World) : list Entry :=
  match closure_run ev w with
  | Some (KWorker j, None) =>
      match heap w !! j with
      | Some cur => [Exec j cur]
      | None => []
      end
  | _ => []
  end.

(** The events that are neither the completion of a request nor a timer. *)
Definition runs_no_closure (ev : Event) : bool :=
  match ev with
  | EIoDone _ _ | EFire _ => false
  | _ => true
  end.

(** The tasks recovery creates for the loaded records: the [i]-th record
    becomes the object with reference [base + i], queued under its due
    time (the order in the queue is left open). *)
Fixpoint recovered_tasks (base : nat) (jobs : list Job) : list (Z * jref) :=
  match jobs with
  | [] => []
  | job :: rest => (scheduled job, base) :: recovered_tasks (S base) rest
  end.

(** For the relations that do not look at the records: any update. *)
Definition any_update : Job -> Job -> Prop := fun _ _ => True.

(** Record [b] is a later state of record [a]: same identity, payload and
    file, and neither the attempts nor the due time have gone down. *)
Definition grows (a b : Job) : Prop :=
  job_id b = job_id a /\ payload b = payload a /\
  directory b = directory a /\ file b = file a /\
  (attempts a <= attempts b)%Z /\ (scheduled a <= scheduled b)%Z.

(** Every record of the earlier state is still there, in a later state. *)
Definition records_kept (w w' : World) : Prop :=
  forall j job, heap w !! j = Some job ->
    exists job', heap w' !! j = Some job' /\ grows job job'.

(** Record [j] is due. *)
Definition due_ok (j : jref) (w : World) : Prop :=
  exists job, heap w !! j = Some job /\ (scheduled job <= clock w)%Z.

(** The records waiting for the persist that precedes their execution are
    due, and so was every record handed to the caller's worker. *)
Definition dueinv (w : World) : Prop :=
  (forall r j, In (r, KWorker j) (io w) -> due_ok j w) /\
  (forall t j, In (t, KWorker j) (timers w) -> due_ok j w) /\
  (forall j snap, In (Exec j snap) (log w) -> (scheduled snap <= clock w)%Z).

(** What [_destroy] throws when a deletion fails. *)
Definition reference_error : Err := "ReferenceError: _this is not defined".

(** Record [j] has its [processing] flag set. *)
Definition flag_ok (j : jref) (w : World) : Prop :=
  exists job, heap w !! j = Some job /\ processing job = true.

(** The records waiting for the persist that precedes their execution and
    the records in the hands of the caller's worker have their flag set,
    and no exception other than that of a failed deletion was raised. *)
Definition flaginv (w : World) : Prop :=
  (forall r j, In (r, KWorker j) (io w) -> flag_ok j w) /\
  (forall t j, In (t, KWorker j) (timers w) -> flag_ok j w) /\
  (forall j, In j (inflight w) -> flag_ok j w) /\
  (forall e, In (Uncaught e) (log w) -> e = reference_error).

(** The entries of the trace that are neither an invocation of the
    caller's worker nor an exception. *)
Definition plain (x : Entry) : bool :=
  match x with
  | Exec _ _ | Uncaught _ => false
  | _ => true
  end.

(** An outcome that is not an exception, or is that of a failed deletion. *)
Definition harmless (out : Outcome) : Prop :=
  match out with
  | Done _ => True
  | Thrown e _ => e = reference_error
  end.

(** The references are handed on correctly, nothing is executed early and
    the flags of the records being executed are set. *)
Definition sound (held : list jref) (w : World) : Prop :=
  inv held w /\ dueinv w /\ flaginv w.

(** An outcome that is harmless and leaves a state in which [P] holds. *)
Definition good (P : World -> Prop) (out : Outcome) : Prop :=
  P (final out) /\ harmless out.

(** A record due at 90000 is pushed at time 100000 and taken by the
    worker; while the write that precedes its execution is outstanding the
    caller retries it by hand, which moves its due time to 105000; then
    the write completes. *)
Definition retry_before_execution : list Event :=
  [EPush "a" "data" (Some 90000%Z) None; EIoDone 0 None; EDispatch;
   ERetry 0 None; EIoDone 0 None].

(** A record is pushed, dispatched, persisted and handed to the caller's
    worker. *)
Definition push_and_start : list Event :=
  [EPush "a" "data" (Some 5%Z) None; EIoDone 0 None; EDispatch; EIoDone 0 None].

(** The record of [push_and_start] is retried by hand while the caller's
    worker has it, and the write of that retry completes: the record is
    pending again with its flag cleared, and it is still being executed. *)
Definition retry_during_execution : list Event :=
  push_and_start ++ [ERetry 0 None; EIoDone 0 None].

Definition retried_in_flight : World :=
  run retrying_options never_throws retry_during_execution
    (started retrying_options 100000).

(** On a controller that has recovered one record, due at 5, a second
    record due at 110000 is pushed.  The first is executed and fails; its
    retry is requested, and the slot it frees takes the second record,
    which is early.  The retry is persisted, the backoff timer fires and
    puts the second record back, and the first one is taken again. *)
Definition recovered_then_busy : list Event :=
  [EPush "a" "data" (Some 110000%Z) None; EIoDone 0 None; EDispatch;
   EIoDone 0 None; EWorkerDone 0 (Some "boom"); EIoDone 0 None; ETick 1000;
   EFire 0].

(** * Properties *)

(** ** Basic equations *)

Lemma lookup_insert_same (h : list Job) (j : jref) (a b : Job) :
  h !! j = Some a -> <[j := b]> h !! j = Some b.
Proof.
  intros H. apply list_lookup_insert_eq. eapply lookup_lt_Some; eauto.
Qed.

(** Projections of updated worlds. *)
Ltac wsimpl :=
  cbn [clock heap tasks paused workers disk io timers inflight log
       set_clock set_heap set_tasks set_paused set_workers set_disk set_io
       set_timers set_inflight set_log final] in *.

(** Sequencing, and the primitive actions, on top of that. *)
Ltac msimpl :=
  cbn [seq modify emit trigger ret throw add_io setTimeout call_back alloc
       clock heap tasks paused workers disk io timers inflight log
       set_clock set_heap set_tasks set_paused set_workers set_disk set_io
       set_timers set_inflight set_log final] in *.

Lemma seq_done (a b : M) (w w1 : World) :
  a w = Done w1 -> (a >> b) w = b w1.
Proof. unfold seq. now intros ->. Qed.

Section Equations.

Variable o : Options.
Variable worker_throws : Job -> option Err.

Lemma with_job_eq (j : jref) (k : Job -> M) (w : World) (job : Job) :
  heap w !! j = Some job -> with_job j k w = k job w.
Proof. unfold with_job. now intros ->. Qed.

Lemma update_job_eq (j : jref) (f : Job -> Job) (w : World) (job : Job) :
  heap w !! j = Some job ->
  update_job j f w = Done (set_heap (<[j := f job]> (heap w)) w).
Proof. intros H. unfold update_job. now rewrite (with_job_eq _ _ _ _ H). Qed.

Lemma _persist_eq (j : jref) (k : Cont) (w : World) (job : Job) :
  heap w !! j = Some job ->
  _persist j k w = Done (set_io (io w ++ [(IOWrite (file job) job, k)]) w).
Proof. intros H. unfold _persist. now rewrite (with_job_eq _ _ _ _ H). Qed.

Lemma _enqueue_eq (j : jref) (w : World) (job : Job) :
  heap w !! j = Some job ->
  _enqueue j w =
    Done (set_tasks (q_insert (scheduled job) j (tasks w))
            (set_heap (<[j := set_processing false job]> (heap w)) w)).
Proof.
  intros H. unfold _enqueue, seq.
  rewrite (update_job_eq _ _ _ _ H).
  erewrite with_job_eq by (simpl; exact (lookup_insert_same _ _ _ _ H)).
  reflexivity.
Qed.

Lemma retry_eq (j : jref) (cb : option nat) (w : World) (job : Job) :
  heap w !! j = Some job ->
  processing job = true ->
  let job' := set_scheduled (scheduled job + retryFailedJobDelay o) job in
  retry o j cb w =
    Done (set_io (io w ++ [(IOWrite (file job) job', KRetry j cb)])
            (set_heap (<[j := job']> (heap w)) w)).
Proof.
  intros H Hp job'. unfold retry, seq.
  rewrite (with_job_eq _ _ _ _ H), Hp.
  rewrite (update_job_eq _ _ _ _ H).
  erewrite _persist_eq by (simpl; exact (lookup_insert_same _ _ _ _ H)).
  reflexivity.
Qed.

Lemma retry_unprocessed (j : jref) (cb : option nat) (w : World) (job : Job) :
  heap w !! j = Some job ->
  processing job = false ->
  retry o j cb w = Thrown "Cannot retry job because it is unprocessed" w.
Proof.
  intros H Hp. unfold retry. now rewrite (with_job_eq _ _ _ _ H), Hp.
Qed.

Lemma _worker_due_eq (j : jref) (w : World) (job : Job) :
  heap w !! j = Some job ->
  (scheduled job <= clock w)%Z ->
  let job' := set_attempts (attempts job + 1) (set_processing true job) in
  _worker o j w =
    Done (set_io (io w ++ [(IOWrite (file job) job', KWorker j)])
            (set_heap (<[j := job']> (heap w)) w)).
Proof.
  intros H Hd job'.
  pose proof (lookup_insert_same _ _ _ (set_processing true job) H) as H1.
  unfold _worker, seq, update_job, with_job, _persist, add_io, modify.
  rewrite H. wsimpl. rewrite H1. cbn [scheduled set_processing].
  replace (scheduled job <=? clock w)%Z with true by (symmetry; apply Z.leb_le; lia).
  wsimpl. rewrite H1. unfold with_job. wsimpl.
  rewrite (lookup_insert_same _ _ _ _ H1).
  wsimpl. now rewrite list_insert_insert_eq.
Qed.

Lemma _worker_early_eq (j : jref) (w : World) (job : Job) :
  heap w !! j = Some job ->
  (clock w < scheduled job)%Z ->
  _worker o j w =
    Done (set_timers (timers w ++ [((clock w + delayEarlyJob o)%Z, KEarly j)])
            (set_heap (<[j := set_processing true job]> (heap w)) w)).
Proof.
  intros H Hd.
  pose proof (lookup_insert_same _ _ _ (set_processing true job) H) as H1.
  unfold _worker, seq, update_job, with_job, setTimeout, modify.
  rewrite H. wsimpl. rewrite H1. cbn [scheduled set_processing].
  replace (scheduled job <=? clock w)%Z with false by (symmetry; apply Z.leb_gt; lia).
  reflexivity.
Qed.

Lemma push_eq (id data : string) (sched : option Z) (cb : option nat) (w : World) :
  let j := length (heap w) in
  let job := new_Job o id data (push_due (clock w) sched) in
  push o id data sched cb w =
    Done (set_io (io w ++ [(IOWrite (file job) job, KPush j cb)])
            (set_heap (heap w ++ [job]) w)).
Proof.
  intros j job. unfold push. fold j.
  replace (match sched with
           | Some s => if truthy s then s else (clock w + 10000)%Z
           | None => (clock w + 10000)%Z
           end) with (push_due (clock w) sched)
    by (unfold push_due, truthy; destruct sched as [s|]; [|reflexivity];
        destruct (s =? 0)%Z; reflexivity).
  fold job. msimpl.
  erewrite _persist_eq
    by (wsimpl; unfold j; rewrite lookup_app_r, Nat.sub_diag by lia; reflexivity).
  reflexivity.
Qed.

End Equations.

(** ** Relations that every action maintains *)

Section Keeps.

Variable R : World -> World -> Prop.
Hypothesis R_refl : forall w, R w w.
Hypothesis R_trans : forall a b c, R a b -> R b c -> R a c.

Lemma keeps_ret : keeps R ret.
Proof using R_refl. intros w. apply R_refl. Qed.

Lemma keeps_throw (e : Err) : keeps R (throw e).
Proof using R_refl. intros w. apply R_refl. Qed.

Lemma keeps_seq (a b : M) : keeps R a -> keeps R b -> keeps R (a >> b).
Proof using R_trans.
  intros Ha Hb w. unfold seq. specialize (Ha w).
  destruct (a w) as [w1|e w1]; cbn in *; [|exact Ha].
  eapply R_trans; [exact Ha|apply Hb].
Qed.

Lemma keeps_with_job (j : jref) (k : Job -> M) :
  (forall job, keeps R (k job)) -> keeps R (with_job j k).
Proof using R_refl.
  intros Hk w. unfold with_job. destruct (heap w !! j); [apply Hk|apply R_refl].
Qed.

Lemma keeps_modify (f : World -> World) :
  (forall w, R w (f w)) -> keeps R (modify f).
Proof using Type. intros Hf w. apply Hf. Qed.

Lemma keeps_if (b : bool) (a1 a2 : M) :
  keeps R a1 -> keeps R a2 -> keeps R (if b then a1 else a2).
Proof using Type. now destruct b. Qed.

End Keeps.

(** *** No action but [invoke_worker] calls the caller's worker *)

Lemma same_execs_refl w : same_execs w w.
Proof. reflexivity. Qed.

Lemma same_execs_trans a b c : same_execs a b -> same_execs b c -> same_execs a c.
Proof. unfold same_execs. congruence. Qed.

Lemma execs_snoc (l : list Entry) (x : Entry) :
  is_exec x = false -> execs (l ++ [x]) = execs l.
Proof.
  intros H. unfold execs. rewrite List.filter_app. cbn. rewrite H.
  apply app_nil_r.
Qed.

Section NoExec.

Variable o : Options.

Ltac keeps_step :=
  first
    [ apply keeps_ret; exact same_execs_refl
    | apply keeps_throw; exact same_execs_refl
    | apply keeps_seq; [exact same_execs_trans| |]
    | apply keeps_with_job; [exact same_execs_refl|intros ?]
    | apply keeps_if
    | apply keeps_modify; intros ?; unfold same_execs; wsimpl;
      first [reflexivity | apply execs_snoc; reflexivity] ].

Lemma trigger_execs n e j : keeps same_execs (trigger n e j).
Proof. unfold trigger. repeat keeps_step. Qed.

Lemma update_job_execs j f : keeps same_execs (update_job j f).
Proof. unfold update_job. repeat keeps_step. Qed.

Lemma add_io_execs r k : keeps same_execs (add_io r k).
Proof. unfold add_io. repeat keeps_step. Qed.

Lemma _persist_execs j k : keeps same_execs (_persist j k).
Proof. unfold _persist, add_io. repeat keeps_step. Qed.

Lemma _destroy_execs j k : keeps same_execs (_destroy j k).
Proof. unfold _destroy, add_io. repeat keeps_step. Qed.

Lemma _enqueue_execs j : keeps same_execs (_enqueue j).
Proof. unfold _enqueue, update_job. repeat keeps_step. Qed.

Lemma retry_execs j cb : keeps same_execs (retry o j cb).
Proof.
  unfold retry. apply keeps_with_job; [exact same_execs_refl|intros job].
  destruct (processing job).
  - apply keeps_seq; [exact same_execs_trans|apply update_job_execs|apply _persist_execs].
  - apply keeps_throw, same_execs_refl.
Qed.

Lemma _onJobComplete_execs err job : keeps same_execs (_onJobComplete o err job).
Proof.
  unfold _onJobComplete.
  destruct err as [e|], job as [j|];
    repeat first
      [ apply trigger_execs | apply retry_execs | apply _destroy_execs
      | apply add_io_execs
      | match goal with
        | |- keeps _ (if ?b then _ else _) => destruct b
        end
      | keeps_step ].
Qed.

Lemma _worker_execs j : keeps same_execs (_worker o j).
Proof.
  intros w. unfold _worker.
  apply (keeps_seq same_execs same_execs_trans); [apply update_job_execs|].
  apply keeps_with_job; [exact same_execs_refl|intros job].
  destruct (scheduled job <=? clock w)%Z.
  - apply keeps_seq; [exact same_execs_trans|apply update_job_execs|apply _persist_execs].
  - unfold setTimeout. keeps_step.
Qed.

Lemma process_execs : keeps same_execs (process o).
Proof.
  intros w. unfold process.
  destruct (negb (paused w) && (workers w <? concurrency o)%nat); [|reflexivity].
  destruct (tasks w) as [|[p j] r]; [reflexivity|].
  eapply same_execs_trans; [|apply _worker_execs]. reflexivity.
Qed.

(** Reporting a completion never starts an execution by itself. *)
Lemma next_execs err job : keeps same_execs (next o err job).
Proof.
  unfold next.
  apply keeps_seq; [exact same_execs_trans| |].
  - keeps_step.
  - apply keeps_seq; [exact same_execs_trans|apply _onJobComplete_execs|apply process_execs].
Qed.

End NoExec.

(** ** The worker *)

(** C1. When the worker receives a record whose due time has arrived, it
    sets [processing], adds exactly one to [attempts] and asks for the
    updated record to be persisted; nothing is executed at that point.
    When the write succeeds the record is on disk first and the
    caller-supplied function is invoked next (and, if that function throws,
    the completion is reported with what it threw).  When the write fails
    with [e], the caller-supplied function is not invoked and the
    completion is reported with [e] for this record. *)
Theorem C1_worker_persists_before_executing
    (o : Options) (worker_throws : Job -> option Err)
    (w : World) (j : jref) (job : Job) :
  heap w !! j = Some job ->
  (scheduled job <= clock w)%Z ->
  let job' := set_attempts (attempts job + 1) (set_processing true job) in
  let req := IOWrite (file job) job' in
  (exists w1,
      _worker o j w = Done w1 /\
      heap w1 !! j = Some job' /\
      processing job' = true /\
      attempts job' = (attempts job + 1)%Z /\
      io w1 = io w ++ [(req, KWorker j)] /\
      disk w1 = disk w /\
      log w1 = log w /\
      inflight w1 = inflight w) /\
  (forall w2 cur,
      heap w2 !! j = Some cur ->
      let w3 :=
        set_log (log w2 ++ [Wrote (file job) job'; Exec j cur])
          (set_disk (<[file job := job']> (disk w2)) w2) in
      complete_io o worker_throws req (KWorker j) None w2 =
        match worker_throws cur with
        | None => Done (set_inflight (inflight w2 ++ [j]) w3)
        | Some e => next o (Some e) (Some j) w3
        end) /\
  (forall w2 e,
      let w3 := set_log (log w2 ++ [Trigger "error" (Some e) None]) w2 in
      let out := complete_io o worker_throws req (KWorker j) (Some e) w2 in
      out = next o (Some e) (Some j) w3 /\
      execs (log (final out)) = execs (log w2) /\
      disk w3 = disk w2).
Proof.
  intros H Hdue job' req. split; [|split].
  - eexists. split; [apply (_worker_due_eq o j w job H Hdue)|].
    wsimpl. repeat split; try reflexivity.
    eapply lookup_insert_same; eauto.
  - intros w2 cur Hc w3.
    unfold complete_io, req, run_cont, invoke_worker. msimpl.
    erewrite with_job_eq by (wsimpl; exact Hc).
    msimpl. rewrite <- app_assoc. cbn [app].
    destruct (worker_throws cur); reflexivity.
  - intros w2 e w3 out. split; [reflexivity|split; [|reflexivity]].
    unfold out, complete_io, req, run_cont. msimpl.
    rewrite (next_execs o (Some e) (Some j) _).
    wsimpl. now apply execs_snoc.
Qed.

Lemma C1_witness :
  heap demo_world !! 0%nat = Some demo_job /\
  (scheduled demo_job <= clock demo_world)%Z /\
  exists w1,
    _worker demo_options 0 demo_world = Done w1 /\
    heap w1 !! 0%nat = Some (mkJob "a" "data" "q" "q/a" 1 true 5).
Proof.
  split; [reflexivity|]. split; [vm_compute; discriminate|].
  destruct
    (C1_worker_persists_before_executing demo_options never_throws
       demo_world 0 demo_job eq_refl ltac:(vm_compute; discriminate))
    as [[w1 [H1 [H2 _]]] _].
  exists w1. split; [exact H1|exact H2].
Defined.



(** ** Completion of an execution *)

(** What [_onJobComplete] does with an error, branch by branch. *)
Lemma _onJobComplete_error_eq (o : Options) (w : World) (j : jref) (r : Job) (e : Err) :
  heap w !! j = Some r ->
  let w1 :=
    set_log (log w ++ [Trigger "job:error" (Some e) (Some j);
                       Trigger "error" (Some e) None]) w in
  let w2 := set_log (log w1 ++ [Trigger "job:fail" None (Some j)]) w1 in
  _onJobComplete o (Some e) (Some j) w =
    if retryFailedJobs o then
      if (maxJobFailures o <=? 0)%Z || (attempts r <? maxJobFailures o)%Z then
        retry o j None w1
      else if moveFailedJobs o then
        Done (set_io (io w2 ++
                [(IORename (file r) (path_join (directory r) (".failed-" +:+ job_id r)),
                  KRename)]) w2)
      else if destroyFailedJobs o then
        Done (set_io (io w2 ++ [(IOUnlink (file r), KDestroy j)]) w2)
      else Done w2
    else Done w1.
Proof.
  intros H w1 w2. unfold _onJobComplete. msimpl.
  rewrite <- app_assoc. cbn [app]. fold w1.
  destruct (retryFailedJobs o); [|reflexivity].
  erewrite with_job_eq by (unfold w1; wsimpl; exact H).
  destruct ((maxJobFailures o <=? 0)%Z || (attempts r <? maxJobFailures o)%Z);
    [reflexivity|].
  msimpl. fold w2.
  destruct (moveFailedJobs o); [reflexivity|].
  destruct (destroyFailedJobs o); [|reflexivity].
  unfold _destroy. erewrite with_job_eq by (unfold w2, w1; wsimpl; exact H).
  reflexivity.
Qed.

Lemma app_snoc_neq {A} (l : list A) (x : A) : l <> l ++ [x].
Proof.
  intros H. apply (f_equal length) in H. rewrite length_app in H. cbn in H. lia.
Qed.

Lemma retry_requested_by_retry (o : Options) (w : World) (j : jref) (r : Job)
    (cb : option nat) :
  heap w !! j = Some r -> processing r = true ->
  retry_requested j w (final (retry o j cb w)).
Proof.
  intros H Hp. rewrite (retry_eq o j cb w r H Hp). wsimpl.
  eexists _, _. reflexivity.
Qed.

Lemma within_budget_test (o : Options) (r : Job) :
  within_budget o r <->
  retryFailedJobs o &&
    ((maxJobFailures o <=? 0)%Z || (attempts r <? maxJobFailures o)%Z) = true.
Proof.
  unfold within_budget.
  rewrite andb_true_iff, orb_true_iff, Z.leb_le, Z.ltb_lt. tauto.
Qed.

Lemma _onJobComplete_retries_iff (o : Options) (w : World) (j : jref) (r : Job) (e : Err) :
  heap w !! j = Some r ->
  retry_requested j w (final (_onJobComplete o (Some e) (Some j) w)) <->
  processing r = true /\ within_budget o r.
Proof.
  intros H. rewrite within_budget_test.
  rewrite (_onJobComplete_error_eq o w j r e H).
  set (w1 := set_log (log w ++ [Trigger "job:error" (Some e) (Some j);
                                Trigger "error" (Some e) None]) w).
  assert (H1 : heap w1 !! j = Some r) by exact H.
  destruct (retryFailedJobs o); cbn [andb].
  - destruct ((maxJobFailures o <=? 0)%Z || (attempts r <? maxJobFailures o)%Z).
    + destruct (processing r) eqn:Hp.
      * split; [intros _; now split|intros _].
        destruct (retry_requested_by_retry o w1 j r None H1 Hp) as (req & cb & Hio).
        exists req, cb. exact Hio.
      * rewrite (retry_unprocessed o j None w1 r H1 Hp).
        split; [|intros [? _]; discriminate].
        intros (req & cb & Hio). exfalso. wsimpl. exact (app_snoc_neq _ _ Hio).
    + split; [|intros [_ ?]; discriminate]. intros (req & cb & Hio). exfalso.
      destruct (moveFailedJobs o); [|destruct (destroyFailedJobs o)];
        wsimpl;
        first [ apply app_inj_tail in Hio as [_ Hio]; discriminate
              | exact (app_snoc_neq _ _ Hio) ].
  - split; [|intros [_ ?]; discriminate]. intros (req & cb & Hio). exfalso.
    wsimpl. exact (app_snoc_neq _ _ Hio).
Qed.

(** When the flag of the record has been cleared, a failure within the
    budget makes [retry] throw, after [job:error] and [error]. *)
Lemma _onJobComplete_unprocessed (o : Options) (w : World) (j : jref) (r : Job) (e : Err) :
  heap w !! j = Some r -> processing r = false -> within_budget o r ->
  _onJobComplete o (Some e) (Some j) w =
    Thrown "Cannot retry job because it is unprocessed"
      (set_log (log w ++ [Trigger "job:error" (Some e) (Some j);
                          Trigger "error" (Some e) None]) w).
Proof.
  intros H Hp Hb. apply within_budget_test in Hb.
  apply andb_true_iff in Hb as [Hr Hm].
  rewrite (_onJobComplete_error_eq o w j r e H), Hr, Hm.
  now apply (retry_unprocessed o j None _ r).
Qed.

(** C3 as stated does not hold.  In [retried_in_flight] the record is in
    the hands of the caller's worker and, because it was retried by hand
    meanwhile, it is pending again with [processing = false].  It has made
    one attempt of three, so a failure is within the budget; but when the
    worker reports one, [retry] throws and no retry is requested. *)
Lemma C3_counterexample :
  ~ (forall (o : Options) (w : World) (j : jref) (r : Job) (e : Err),
        heap w !! j = Some r ->
        let w' := final (_onJobComplete o (Some e) (Some j) w) in
        retry_requested j w w' <->
          retryFailedJobs o = true /\
          (maxJobFailures o <= 0 \/ attempts r < maxJobFailures o)%Z).
Proof.
  intros claim.
  assert (H : heap retried_in_flight !! 0%nat =
              Some (mkJob "a" "data" "q" "q/a" 1 false 15005))
    by (vm_compute; reflexivity).
  destruct (proj2 (claim retrying_options retried_in_flight 0%nat _ "boom" H))
    as (req & cb & Hio).
  - split; [reflexivity|]. right. vm_compute. reflexivity.
  - vm_compute in Hio. discriminate Hio.
Qed.

(** ** Retry *)

Lemma overdue_world_facts :
  heap overdue_world !! 0%nat = Some (mkJob "a" "data" "q" "q/a" 1 true 5) /\
  clock overdue_world = 100000%Z /\
  inflight overdue_world = [0%nat].
Proof. vm_compute. repeat split; reflexivity. Qed.

(** C4 as stated does not hold.  The due time after a retry is not the
    current time plus the retry delay: the record of [overdue_world] was
    due at 5, is retried at time 100000 with a delay of 15000, and ends up
    due at 15005. *)
Lemma C4_counterexample :
  ~ (forall (o : Options) (w w' : World) (j : jref) (cb : option nat) (job : Job),
        heap w !! j = Some job ->
        processing job = true ->
        retry o j cb w = Done w' ->
        scheduled <$> heap w' !! j = Some (clock w + retryFailedJobDelay o)%Z).
Proof.
  intros claim.
  destruct overdue_world_facts as (Hh & Hc & _).
  pose proof (retry_eq retrying_options 0 None overdue_world _ Hh eq_refl) as Hr.
  specialize (claim retrying_options overdue_world _ 0%nat None _ Hh eq_refl Hr).
  wsimpl. rewrite (lookup_insert_same _ _ _ _ Hh), Hc in claim.
  vm_compute in claim. discriminate.
Qed.

(** C4, as the code has it.  A retry adds [retryFailedJobDelay] to the
    record's due time (the clock is not consulted), leaves id and attempts
    alone and asks for the record to be persisted.  When that write
    succeeds the record is on disk and is put back into the queue, with
    [processing] cleared and with the due time it then has as priority;
    [job:retry] and [job:queue] are fired and the caller's callback, if
    any, is called.  The automatic retry of a failed execution is this
    same operation, called without callback. *)
Theorem C4_retry_advances_due_time
    (o : Options) (worker_throws : Job -> option Err)
    (w : World) (j : jref) (cb : option nat) (job : Job) :
  heap w !! j = Some job ->
  processing job = true ->
  let job' := set_scheduled (scheduled job + retryFailedJobDelay o) job in
  let req := IOWrite (file job) job' in
  (exists w1,
      retry o j cb w = Done w1 /\
      heap w1 = <[j := job']> (heap w) /\
      io w1 = io w ++ [(req, KRetry j cb)] /\
      tasks w1 = tasks w /\ log w1 = log w /\ disk w1 = disk w) /\
  (scheduled job' = scheduled job + retryFailedJobDelay o)%Z /\
  job_id job' = job_id job /\
  attempts job' = attempts job /\
  (forall t, final (retry o j cb (set_clock t w)) = set_clock t (final (retry o j cb w))) /\
  (forall w2 cur,
      heap w2 !! j = Some cur ->
      let w3 :=
        set_log (log w2 ++ [Wrote (file job) job';
                            Trigger "job:retry" None (Some j);
                            Trigger "job:queue" None (Some j)])
          (set_tasks (q_insert (scheduled cur) j (tasks w2))
             (set_heap (<[j := set_processing false cur]> (heap w2))
                (set_disk (<[file job := job']> (disk w2)) w2))) in
      complete_io o worker_throws req (KRetry j cb) None w2 =
        call_back cb None None w3) /\
  (forall e,
      retryFailedJobs o = true ->
      (maxJobFailures o <= 0 \/ attempts job < maxJobFailures o)%Z ->
      _onJobComplete o (Some e) (Some j) w =
        retry o j None
          (set_log (log w ++ [Trigger "job:error" (Some e) (Some j);
                              Trigger "error" (Some e) None]) w)).
Proof.
  intros H Hp job' req. repeat split.
  - eexists. split; [apply (retry_eq o j cb w job H Hp)|].
    repeat split; reflexivity.
  - intros t.
    rewrite (retry_eq o j cb w job H Hp).
    rewrite (retry_eq o j cb (set_clock t w) job H Hp). reflexivity.
  - intros w2 cur Hc w3.
    unfold complete_io, req, run_cont. msimpl.
    erewrite seq_done by (apply _enqueue_eq; wsimpl; exact Hc).
    msimpl. rewrite <- !app_assoc. reflexivity.
  - intros e Hr Hb.
    rewrite (_onJobComplete_error_eq o w j job e H), Hr.
    replace ((maxJobFailures o <=? 0)%Z || (attempts job <? maxJobFailures o)%Z)
      with true; [reflexivity|].
    symmetry. apply orb_true_iff. rewrite Z.leb_le, Z.ltb_lt. exact Hb.
Qed.

Lemma C4_witness :
  heap overdue_world !! 0%nat = Some (mkJob "a" "data" "q" "q/a" 1 true 5) /\
  processing (mkJob "a" "data" "q" "q/a" 1 true 5) = true /\
  exists w1,
    retry retrying_options 0 None overdue_world = Done w1 /\
    heap w1 = <[0%nat := mkJob "a" "data" "q" "q/a" 1 true 15005]> (heap overdue_world).
Proof.
  split; [vm_compute; reflexivity|]. split; [reflexivity|].
  destruct
    (C4_retry_advances_due_time retrying_options never_throws overdue_world 0 None
       (mkJob "a" "data" "q" "q/a" 1 true 5)
       ltac:(vm_compute; reflexivity) eq_refl)
    as [[w1 [H1 [H2 _]]] _].
  exists w1. split; [exact H1|exact H2].
Defined.

(** C9. Manual retry of a record whose [processing] flag is false throws
    and leaves the whole state as it was: nothing is persisted and nothing
    is put into the queue.  It goes ahead exactly when the flag is true. *)
Theorem C9_retry_of_unprocessed_record_throws
    (o : Options) (worker_throws : Job -> option Err)
    (w : World) (j : jref) (cb : option nat) (job : Job) :
  heap w !! j = Some job ->
  (processing job = false ->
     retry o j cb w = Thrown "Cannot retry job because it is unprocessed" w /\
     let w' := exec o worker_throws w (ERetry j cb) in
     io w' = io w /\ tasks w' = tasks w /\ heap w' = heap w /\ disk w' = disk w /\
     log w' = log w ++ [Uncaught "Cannot retry job because it is unprocessed"]) /\
  ((exists w', retry o j cb w = Done w') <-> processing job = true).
Proof.
  intros H. split.
  - intros Hp. pose proof (retry_unprocessed o j cb w job H Hp) as Ht.
    split; [exact Ht|]. unfold exec, step. rewrite Ht. repeat split; reflexivity.
  - split.
    + intros [w' Hw']. destruct (processing job) eqn:Hp; [reflexivity|].
      rewrite (retry_unprocessed o j cb w job H Hp) in Hw'. discriminate.
    + intros Hp. eexists. apply (retry_eq o j cb w job H Hp).
Qed.

Lemma C9_witness :
  heap demo_world !! 0%nat = Some demo_job /\
  processing demo_job = false /\
  retry demo_options 0 None demo_world =
    Thrown "Cannot retry job because it is unprocessed" demo_world.
Proof.
  split; [reflexivity|]. split; [reflexivity|].
  exact (proj1 (proj1
    (C9_retry_of_unprocessed_record_throws demo_options never_throws
       demo_world 0 None demo_job eq_refl) eq_refl)).
Defined.

(** ** Permanent failure *)

Lemma plain_world_facts :
  heap plain_world !! 0%nat =
    Some (mkJob "a" "data" "./kewkew-1" "./kewkew-1/a" 1 true 5) /\
  io plain_world = [] /\
  inflight plain_world = [0%nat].
Proof. vm_compute. repeat split; reflexivity. Qed.

(** C5 as stated does not hold.  With the default options
    ([retryFailedJobs = false]) a failed execution fires [job:error] and
    [error] and that is all: the file is neither renamed nor deleted. *)
Lemma C5_counterexample :
  ~ (forall (o : Options) (w : World) (j : jref) (r : Job) (e : Err),
        heap w !! j = Some r ->
        processing r = true ->
        ~ within_budget o r ->
        finalized_as_failed o r w (final (_onJobComplete o (Some e) (Some j) w))).
Proof.
  intros claim.
  destruct plain_world_facts as (Hh & Hio & _).
  specialize (claim plain_options plain_world 0%nat _ "boom" Hh eq_refl).
  rewrite (_onJobComplete_error_eq plain_options plain_world 0 _ "boom" Hh) in claim.
  change (retryFailedJobs plain_options) with false in claim. wsimpl.
  destruct claim as [[k Hk]|[_ [k Hk]]].
  - intros [Hr _]. discriminate Hr.
  - exact (app_snoc_neq _ _ Hk).
  - exact (app_snoc_neq _ _ Hk).
Qed.

(** The same happens when retries are on and exhausted but both
    [moveFailedJobs] and [destroyFailedJobs] are off. *)
Lemma exhausted_without_move_or_destroy (o : Options) (w : World) (j : jref)
    (r : Job) (e : Err) :
  heap w !! j = Some r ->
  retryFailedJobs o = true ->
  (0 < maxJobFailures o <= attempts r)%Z ->
  moveFailedJobs o = false ->
  destroyFailedJobs o = false ->
  io (final (_onJobComplete o (Some e) (Some j) w)) = io w.
Proof.
  intros H Hr Hm Hmv Hd.
  rewrite (_onJobComplete_error_eq o w j r e H), Hr, Hmv, Hd.
  replace ((maxJobFailures o <=? 0)%Z || (attempts r <? maxJobFailures o)%Z)
    with false; [reflexivity|].
  symmetry. apply orb_false_iff. rewrite Z.leb_gt, Z.ltb_ge. lia.
Qed.

(** C5, as the code has it.  When retries are enabled and the budget is
    used up ([0 < maxJobFailures <= attempts]) a failed execution fires
    [job:error], [error] and [job:fail]; the backing file is then renamed
    to [.failed-<id>] in the record's directory when [moveFailedJobs] is
    set, else deleted when [destroyFailedJobs] is set, else left alone.
    A controller built with [destroyFailedJobs: true] has
    [moveFailedJobs] off, so it deletes.  Once the rename (the deletion)
    has succeeded the file is gone from its old name. *)
Theorem C5_exhausted_job_is_finalized
    (o : Options) (worker_throws : Job -> option Err)
    (w : World) (j : jref) (r : Job) (e : Err) :
  heap w !! j = Some r ->
  retryFailedJobs o = true ->
  (0 < maxJobFailures o <= attempts r)%Z ->
  (exists w1,
      _onJobComplete o (Some e) (Some j) w = Done w1 /\
      log w1 = log w ++ [Trigger "job:error" (Some e) (Some j);
                         Trigger "error" (Some e) None;
                         Trigger "job:fail" None (Some j)] /\
      io w1 = io w ++
        (if moveFailedJobs o then [(IORename (file r) (failed_marker r), KRename)]
         else if destroyFailedJobs o then [(IOUnlink (file r), KDestroy j)]
         else []) /\
      tasks w1 = tasks w /\ heap w1 = heap w) /\
  (forall uid u,
      u_destroyFailedJobs u = Some true ->
      moveFailedJobs (KewKew_options uid (Some u)) = false /\
      destroyFailedJobs (KewKew_options uid (Some u)) = true) /\
  (forall w2 c,
      disk w2 !! file r = Some c ->
      file r <> failed_marker r ->
      let w3 := final (complete_io o worker_throws
                         (IORename (file r) (failed_marker r)) KRename None w2) in
      disk w3 !! failed_marker r = Some c /\ disk w3 !! file r = None) /\
  (forall w2,
      let w3 := final (complete_io o worker_throws
                         (IOUnlink (file r)) (KDestroy j) None w2) in
      disk w3 !! file r = None /\
      log w3 = log w2 ++ [Trigger "job:destroy" None (Some j)]).
Proof.
  intros H Hr Hm. split; [|split; [|split]].
  - rewrite (_onJobComplete_error_eq o w j r e H), Hr.
    replace ((maxJobFailures o <=? 0)%Z || (attempts r <? maxJobFailures o)%Z)
      with false
      by (symmetry; apply orb_false_iff; rewrite Z.leb_gt, Z.ltb_ge; lia).
    destruct (moveFailedJobs o); [|destruct (destroyFailedJobs o)];
      eexists; (split; [reflexivity|]); wsimpl;
      rewrite <- ?app_assoc, ?app_nil_r; repeat split; reflexivity.
  - intros uid u Hu. unfold KewKew_options, disable_moves.
    destruct (u_destroySuccessfulJobs u) as [[|]|]; cbn; rewrite Hu; cbn;
      rewrite ?Hu; split; reflexivity.
  - intros w2 c Hc Hne w3. unfold w3, complete_io, run_cont. msimpl.
    rewrite Hc. wsimpl. split.
    + apply lookup_insert_eq.
    + rewrite lookup_insert_ne by congruence. apply lookup_delete_eq.
  - intros w2 w3. unfold w3, complete_io, run_cont. msimpl. split.
    + apply lookup_delete_eq.
    + reflexivity.
Qed.

Lemma C5_witness :
  heap exhausted_world !! 0%nat = Some (mkJob "a" "data" "q" "q/a" 3 true 5) /\
  retryFailedJobs retrying_options = true /\
  (0 < maxJobFailures retrying_options <= 3)%Z /\
  exists w1,
    _onJobComplete retrying_options (Some "boom") (Some 0%nat) exhausted_world = Done w1 /\
    io w1 = [(IORename "q/a" "q/.failed-a", KRename)].
Proof.
  split; [reflexivity|]. split; [reflexivity|]. split; [cbn; lia|].
  destruct
    (C5_exhausted_job_is_finalized retrying_options never_throws exhausted_world 0
       (mkJob "a" "data" "q" "q/a" 3 true 5) "boom" eq_refl eq_refl
       ltac:(cbn; lia))
    as [[w1 [H1 [_ [H2 _]]]] _].
  exists w1. split; [exact H1|exact H2].
Defined.

(** ** Recovery *)

Section Recovery.

Context {A : Type}.

Lemma first_error_in (rs : list (Err + A)) (order : list nat) (e : Err) :
  first_error rs order = Some e -> In (inl e) rs.
Proof.
  induction order as [|i rest IH]; cbn; [discriminate|].
  destruct (rs !! i) as [[e'|a]|] eqn:Hi; auto.
  intros [= ->]. apply list_elem_of_In. eapply list_elem_of_lookup_2; eauto.
Qed.

Lemma collect_error (rs : list (Err + A)) (e : Err) :
  In (inl e) rs -> exists e', collect rs = inl e' /\ In (inl e') rs.
Proof.
  induction rs as [|[e0|a] rest IH]; cbn; [tauto| |].
  - intros _. exists e0. split; [reflexivity|now left].
  - intros [Hx|Hx]; [discriminate|].
    destruct (IH Hx) as (e' & -> & Hin). exists e'. split; [reflexivity|now right].
Qed.

(** One failing task makes the whole batch fail, with the error of a
    failing task, whatever the order of completion. *)
Lemma parallelLimit_error (rs : list (Err + A)) (order : list nat) (e : Err) :
  In (inl e) rs ->
  exists e', parallelLimit rs order = inl e' /\ In (inl e') rs.
Proof.
  intros Hin. unfold parallelLimit.
  destruct (first_error rs order) as [e'|] eqn:Hf.
  - exists e'. split; [reflexivity|]. eapply first_error_in; eauto.
  - eapply collect_error; eauto.
Qed.

End Recovery.

(** C6. If one file of the queue directory that is not hidden fails to
    load, recovery stops with the error of a failing file: the queue is
    left empty, no record is created, the error is fired on the [error]
    channel, and neither [ready] is fired nor the queue started. *)
Theorem C6_recovery_fails_fast
    (o : Options) (fromDisk : string -> Err + Job)
    (files : list string) (order : list nat) (w : World)
    (f : string) (e : Err) :
  In f (filterDotFiles files) ->
  fromDisk (path_join (opt_directory o) f) = inl e ->
  exists f' e',
    In f' (filterDotFiles files) /\
    fromDisk (path_join (opt_directory o) f') = inl e' /\
    _init o fromDisk (inr files) order w =
      Done (set_log (log w ++ [Trigger "error" (Some e') None])
              (set_paused true (set_tasks [] w))) /\
    tasks (final (_init o fromDisk (inr files) order w)) = [] /\
    heap (final (_init o fromDisk (inr files) order w)) = heap w /\
    paused (final (_init o fromDisk (inr files) order w)) = true.
Proof.
  intros Hf He.
  set (rs := map (fun f => fromDisk (path_join (opt_directory o) f)) (filterDotFiles files)).
  assert (Hin : In (inl e) rs).
  { unfold rs. apply in_map_iff. exists f. split; [exact He|exact Hf]. }
  destruct (parallelLimit_error rs order e Hin) as (e' & Hp & Hin').
  apply in_map_iff in Hin' as (f' & He' & Hf').
  exists f', e'. split; [exact Hf'|]. split; [exact He'|].
  assert (Heq : _init o fromDisk (inr files) order w =
      Done (set_log (log w ++ [Trigger "error" (Some e') None])
              (set_paused true (set_tasks [] w)))).
  { unfold _init, _reload. fold rs. rewrite Hp. reflexivity. }
  rewrite Heq. repeat split; reflexivity.
Qed.

Lemma C6_witness :
  In "bad" (filterDotFiles [".success-x"; "good"; "bad"]) /\
  demo_fromDisk (path_join (opt_directory demo_options) "bad") = inl "Unexpected token" /\
  exists f' e',
    In f' (filterDotFiles [".success-x"; "good"; "bad"]) /\
    demo_fromDisk (path_join (opt_directory demo_options) f') = inl e' /\
    tasks (final (_init demo_options demo_fromDisk
                    (inr [".success-x"; "good"; "bad"]) [0%nat; 1%nat]
                    (new_world 0 ∅))) = [].
Proof.
  split; [cbn; tauto|]. split; [reflexivity|].
  destruct
    (C6_recovery_fails_fast demo_options demo_fromDisk
       [".success-x"; "good"; "bad"] [0%nat; 1%nat] (new_world 0 ∅)
       "bad" "Unexpected token" ltac:(cbn; tauto) eq_refl)
    as (f' & e' & H1 & H2 & _ & H3 & _).
  exists f', e'. split; [exact H1|]. split; [exact H2|exact H3].
Defined.

(** Recovery of the same directory without the corrupt entry enqueues the
    good record with [processing = false] and skips the hidden one. *)
Example recovery_without_corruption :
  let w := final (_init demo_options demo_fromDisk (inr [".success-x"; "good"]) [0%nat]
                    (new_world 0 ∅)) in
  tasks w = [(5%Z, 0%nat)] /\
  heap w = [mkJob "good" "data" "q" "q/good" 0 false 5] /\
  fired (log w) = ["ready"] /\ paused w = false.
Proof. vm_compute. repeat split; reflexivity. Qed.

(** ** Shutdown *)

Lemma quiet_refl w : quiet w w.
Proof. intros H. split; [exact H|reflexivity]. Qed.

Lemma quiet_trans a b c : quiet a b -> quiet b c -> quiet a c.
Proof.
  intros Hab Hbc Ha. destruct (Hab Ha) as [Hb S1]. destruct (Hbc Hb) as [Hc S2].
  split; [exact Hc|]. etransitivity; eauto.
Qed.

Lemma sublist_q_insert (p : Z) (j : jref) (ts : list (Z * jref)) :
  sublist ts (q_insert p j ts).
Proof.
  induction ts as [|[p' j'] r IH]; cbn.
  - apply sublist_nil_l.
  - destruct (p' <=? p)%Z.
    + now apply sublist_skip.
    + apply sublist_cons. reflexivity.
Qed.

Section Quiet.

Variable o : Options.
Variable worker_throws : Job -> option Err.

Ltac quiet_step :=
  first
    [ apply keeps_ret; exact quiet_refl
    | apply keeps_throw; exact quiet_refl
    | apply keeps_seq; [exact quiet_trans| |]
    | apply keeps_with_job; [exact quiet_refl|intros ?]
    | apply keeps_if
    | apply keeps_modify; intros ? ?; wsimpl;
      first [ split; [assumption|reflexivity]
            | split; [assumption|apply sublist_q_insert]
            | split; reflexivity ]
    | match goal with
      | |- keeps _ (match ?x with Some _ => _ | None => _ end) => destruct x
      | |- keeps _ (if ?b then _ else _) => destruct b
      end ].

Lemma trigger_quiet n e j : keeps quiet (trigger n e j).
Proof. unfold trigger. repeat quiet_step. Qed.

Lemma emit_quiet x : keeps quiet (emit x).
Proof. unfold emit. repeat quiet_step. Qed.

Lemma call_back_quiet cb e j : keeps quiet (call_back cb e j).
Proof. unfold call_back, emit. repeat quiet_step. Qed.

Lemma update_job_quiet j f : keeps quiet (update_job j f).
Proof. unfold update_job. repeat quiet_step. Qed.

Lemma add_io_quiet r k : keeps quiet (add_io r k).
Proof. unfold add_io. repeat quiet_step. Qed.

Lemma _persist_quiet j k : keeps quiet (_persist j k).
Proof. unfold _persist, add_io. repeat quiet_step. Qed.

Lemma _destroy_quiet j k : keeps quiet (_destroy j k).
Proof. unfold _destroy, add_io. repeat quiet_step. Qed.

Lemma _enqueue_quiet j : keeps quiet (_enqueue j).
Proof. unfold _enqueue, update_job. repeat quiet_step. Qed.

Lemma retry_quiet j cb : keeps quiet (retry o j cb).
Proof.
  unfold retry. apply keeps_with_job; [exact quiet_refl|intros job].
  destruct (processing job).
  - apply keeps_seq; [exact quiet_trans|apply update_job_quiet|apply _persist_quiet].
  - apply keeps_throw, quiet_refl.
Qed.

Lemma _onJobComplete_quiet err job : keeps quiet (_onJobComplete o err job).
Proof.
  unfold _onJobComplete.
  destruct err as [e|], job as [j|];
    repeat first
      [ apply trigger_quiet | apply retry_quiet | apply _destroy_quiet
      | apply add_io_quiet | quiet_step ].
Qed.

(** A paused queue dispatches nothing. *)
Lemma process_paused (w : World) : paused w = true -> process o w = Done w.
Proof. intros H. unfold process. now rewrite H. Qed.

Lemma process_quiet : keeps quiet (process o).
Proof. intros w H. rewrite (process_paused w H). now apply quiet_refl. Qed.

Lemma next_quiet err job : keeps quiet (next o err job).
Proof.
  unfold next.
  apply keeps_seq; [exact quiet_trans| |].
  - quiet_step.
  - apply keeps_seq; [exact quiet_trans|apply _onJobComplete_quiet|apply process_quiet].
Qed.

Lemma whilst_running_quiet cb : keeps quiet (whilst_running cb).
Proof.
  intros w. unfold whilst_running.
  destruct (workers w =? 0)%nat; [apply emit_quiet|].
  unfold setTimeout. intros H. wsimpl. split; [exact H|reflexivity].
Qed.

Lemma run_cont_quiet k err : keeps quiet (run_cont o worker_throws k err).
Proof.
  destruct k; cbn [run_cont].
  - destruct err; [apply next_quiet|].
    unfold invoke_worker. apply keeps_with_job; [exact quiet_refl|intros job].
    apply keeps_seq; [exact quiet_trans|apply emit_quiet|].
    destruct (worker_throws job); [apply next_quiet|quiet_step].
  - destruct err;
      repeat first [apply call_back_quiet | apply trigger_quiet
                   | apply _enqueue_quiet | quiet_step].
  - destruct err;
      repeat first [apply call_back_quiet | apply trigger_quiet
                   | apply _enqueue_quiet | quiet_step].
  - destruct err; [apply trigger_quiet|quiet_step].
  - destruct err; [quiet_step|apply trigger_quiet].
  - apply keeps_seq; [exact quiet_trans|apply _enqueue_quiet|apply next_quiet].
  - apply whilst_running_quiet.
Qed.

Lemma complete_io_quiet r k res : keeps quiet (complete_io o worker_throws r k res).
Proof.
  destruct r, res; cbn [complete_io];
    repeat first [ apply trigger_quiet | apply emit_quiet | apply run_cont_quiet
                 | apply keeps_throw; exact quiet_refl
                 | apply keeps_seq; [exact quiet_trans| |] ].
  - quiet_step.
  - apply keeps_modify. intros w H. destruct (disk w !! src); wsimpl;
      (split; [exact H|reflexivity]).
  - quiet_step.
Qed.

Lemma push_quiet id data sched cb : keeps quiet (push o id data sched cb).
Proof.
  intros w. unfold push.
  apply (keeps_seq quiet quiet_trans); [unfold alloc; quiet_step|apply _persist_quiet].
Qed.

Lemma pause_quiet : keeps quiet pause.
Proof.
  intros w H. unfold pause. rewrite H. now apply quiet_refl.
Qed.

Lemma shutdown_quiet cb : keeps quiet (shutdown cb).
Proof.
  unfold shutdown. apply keeps_seq; [exact quiet_trans| |apply whilst_running_quiet].
  apply keeps_modify. intros w H. wsimpl. split; reflexivity.
Qed.

(** Every event other than a call of [resume] keeps a paused queue
    paused and its pending tasks in place. *)
Lemma step_quiet (ev : Event) :
  ev <> EResume -> keeps quiet (step o worker_throws ev).
Proof.
  intros Hev. destruct ev; cbn [step]; try congruence.
  - apply push_quiet.
  - apply retry_quiet.
  - apply pause_quiet.
  - apply shutdown_quiet.
  - apply process_quiet.
  - intros w. destruct (io w !! n) as [[r k]|]; [|apply quiet_refl].
    eapply quiet_trans; [|apply complete_io_quiet].
    intros H. wsimpl. split; [exact H|reflexivity].
  - intros w. destruct (timers w !! n) as [[t k]|]; [|apply quiet_refl].
    destruct (t <=? clock w)%Z; [|apply quiet_refl].
    eapply quiet_trans; [|apply run_cont_quiet].
    intros H. wsimpl. split; [exact H|reflexivity].
  - intros w. destruct (member j (inflight w)); [|apply trigger_quiet].
    eapply quiet_trans; [|apply next_quiet].
    intros H. wsimpl. split; [exact H|reflexivity].
  - quiet_step.
Qed.

Lemma exec_quiet (ev : Event) (w : World) :
  ev <> EResume -> quiet w (exec o worker_throws w ev).
Proof.
  intros Hev. pose proof (step_quiet ev Hev w) as H. unfold exec.
  destruct (step o worker_throws ev w) as [w'|e w']; cbn in H; [exact H|].
  eapply quiet_trans; [exact H|]. intros Hp. wsimpl. split; [exact Hp|reflexivity].
Qed.

Lemma run_quiet (evs : list Event) (w : World) :
  Forall (fun ev => ev <> EResume) evs -> quiet w (run o worker_throws evs w).
Proof.
  intros H. revert w. induction H as [|ev evs Hev _ IH]; intros w; cbn.
  - apply quiet_refl.
  - eapply quiet_trans; [apply exec_quiet; exact Hev|apply IH].
Qed.

Lemma enqueue_all_quiet (jobs : list Job) : keeps quiet (enqueue_all jobs).
Proof.
  induction jobs as [|job rest IH]; cbn [enqueue_all];
    [apply keeps_ret; exact quiet_refl|].
  apply keeps_seq; [exact quiet_trans| |exact IH].
  intros w. cbn beta.
  apply (keeps_seq quiet quiet_trans); [unfold alloc; quiet_step|apply _enqueue_quiet].
Qed.

(** Recovery that completes on a controller built without [autoStart]
    does not resume the queue. *)
Lemma _reload_quiet (fromDisk : string -> Err + Job) (listing : Err + list string)
    (order : list nat) :
  autoStart o = false ->
  keeps quiet (_reload o fromDisk listing order (_init_callback o)).
Proof.
  intros Ha. unfold _reload, _init_callback. rewrite Ha.
  destruct listing as [e|files]; [apply trigger_quiet|].
  destruct (parallelLimit _ order) as [e|jobs]; [apply trigger_quiet|].
  apply keeps_seq; [exact quiet_trans|apply enqueue_all_quiet|].
  apply keeps_seq; [exact quiet_trans|apply trigger_quiet|].
  apply keeps_ret; exact quiet_refl.
Qed.

End Quiet.

(** [_init] is [_initQueue] followed by [_reload] with [_init_callback]. *)
Lemma _init_eq (o : Options) (fromDisk : string -> Err + Job)
    (listing : Err + list string) (order : list nat) :
  _init o fromDisk listing order =
    (_initQueue >> _reload o fromDisk listing order (_init_callback o)).
Proof. reflexivity. Qed.

(** C7 as stated does not hold: after [shutdown] the queue dispatches
    again as soon as it is resumed.  First, [shutdown] is called on a new
    controller (built with [autoStart], the default) before the recovery
    of its directory has completed: nothing is running, so [shutdown]
    calls back at once; then recovery completes, enqueues the record it
    found and resumes the queue, and the next turn of the queue hands that
    record to the worker.  Second, after [shutdown] on a controller with a
    pending record the caller calls [resume], and the next turn of the
    queue dispatches the record. *)
Lemma C7_counterexample :
  ~ (forall (o : Options) (worker_throws : Job -> option Err)
            (fromDisk : string -> Err + Job) (listing : Err + list string)
            (order : list nat) (now : Z) (d : gmap string Job) (cb : nat)
            (evs : list Event),
        let w1 := final (shutdown cb (final (_initQueue (new_world now d)))) in
        let w2 := run o worker_throws evs
                    (final (_reload o fromDisk listing order (_init_callback o) w1)) in
        process o w2 = Done w2) /\
  ~ (forall (o : Options) (worker_throws : Job -> option Err) (w : World)
            (cb : nat) (evs : list Event),
        let w2 := run o worker_throws evs (final (shutdown cb w)) in
        process o w2 = Done w2).
Proof.
  split; intros claim.
  - specialize (claim demo_options never_throws demo_fromDisk (inr ["good"])
                  [0%nat] 100000%Z ∅ 7%nat []).
    apply (f_equal (fun out => tasks (final out))) in claim.
    vm_compute in claim. discriminate claim.
  - specialize (claim demo_options never_throws demo_world 7%nat [EResume]).
    apply (f_equal (fun out => tasks (final out))) in claim.
    vm_compute in claim. discriminate claim.
Qed.

(** C7, as the code has it.  [shutdown] pauses the queue before anything
    else and leaves the pending tasks and the records alone.  It calls back at once when no
    execution is in flight, and otherwise sets a timer 250 ms ahead; each
    time that timer fires the same test is made again, so the callback
    is reached only in a state with no execution in flight.  From the
    call of [shutdown] on, as long as [resume] is not called, the queue
    stays paused, every pending task stays in the queue, and a turn of the
    queue dispatches nothing; recovery that completes after the call
    leaves the queue paused too, unless the controller was built with
    [autoStart].  The run shows one execution in flight at
    shutdown: the first poll re-arms the timer, the second one, after the
    execution has finished, calls back; the second record was never
    executed and is still pending. *)
Theorem C7_shutdown_drains_without_dispatching
    (o : Options) (worker_throws : Job -> option Err) (w : World) (cb : nat) :
  let w1 := final (shutdown cb w) in
  (paused w1 = true /\ tasks w1 = tasks w /\ heap w1 = heap w /\
   workers w1 = workers w) /\
  (workers w = 0%nat ->
     shutdown cb w =
       Done (set_log (log w ++ [Callback cb None None]) (set_paused true w))) /\
  (workers w <> 0%nat ->
     shutdown cb w =
       Done (set_timers (timers w ++ [((clock w + 250)%Z, KPoll cb)])
               (set_paused true w))) /\
  (forall w2,
     workers w2 = 0%nat ->
     run_cont o worker_throws (KPoll cb) None w2 =
       Done (set_log (log w2 ++ [Callback cb None None]) w2)) /\
  (forall w2,
     workers w2 <> 0%nat ->
     run_cont o worker_throws (KPoll cb) None w2 =
       Done (set_timers (timers w2 ++ [((clock w2 + 250)%Z, KPoll cb)]) w2)) /\
  (forall evs,
     Forall (fun ev => ev <> EResume) evs ->
     let w2 := run o worker_throws evs w1 in
     paused w2 = true /\ sublist (tasks w) (tasks w2) /\
     process o w2 = Done w2) /\
  (forall (fromDisk : string -> Err + Job) (listing : Err + list string)
          (order : list nat) (w2 : World),
     autoStart o = false ->
     paused w2 = true ->
     let w3 := final (_reload o fromDisk listing order (_init_callback o) w2) in
     paused w3 = true /\ sublist (tasks w2) (tasks w3) /\
     process o w3 = Done w3) /\
  (let w2 := run demo_options never_throws shutdown_run_after shutting_down in
   workers shutting_down = 1%nat /\
   tasks shutting_down = [(6%Z, 1%nat)] /\
   log (run demo_options never_throws [EDispatch; ETick 250; EFire 0] shutting_down)
     = log shutting_down /\
   tasks w2 = [(6%Z, 1%nat)] /\
   workers w2 = 0%nat /\
   log w2 = log shutting_down ++
            [Trigger "job:complete" None (Some 0%nat); Callback 7 None None] /\
   execs (log w2) = [Exec 0 (mkJob "a" "data" "q" "q/a" 1 true 5)]).
Proof.
  intros w1.
  assert (E0 : workers w = 0%nat ->
     shutdown cb w =
       Done (set_log (log w ++ [Callback cb None None]) (set_paused true w))).
  { intros H0. unfold shutdown, whilst_running, seq, modify. wsimpl.
    rewrite H0. reflexivity. }
  assert (E1 : workers w <> 0%nat ->
     shutdown cb w =
       Done (set_timers (timers w ++ [((clock w + 250)%Z, KPoll cb)])
               (set_paused true w))).
  { intros H0. unfold shutdown, whilst_running, seq, modify. wsimpl.
    destruct (workers w); [congruence|reflexivity]. }
  assert (Hw1 : paused w1 = true /\ tasks w1 = tasks w /\ heap w1 = heap w /\
                workers w1 = workers w).
  { unfold w1. destruct (Nat.eq_dec (workers w) 0) as [H0|H0].
    - rewrite (E0 H0). repeat split; reflexivity.
    - rewrite (E1 H0). repeat split; reflexivity. }
  split; [exact Hw1|]. split; [exact E0|]. split; [exact E1|].
  split; [|split; [|split; [|split]]].
  - intros w2 H0. cbn [run_cont]. unfold whilst_running. rewrite H0. reflexivity.
  - intros w2 H0. cbn [run_cont]. unfold whilst_running.
    destruct (workers w2); [congruence|reflexivity].
  - intros evs Hevs w2. destruct Hw1 as (Hp & Ht & _).
    destruct (run_quiet o worker_throws evs w1 Hevs Hp) as [Hp2 Hs].
    split; [exact Hp2|]. split; [now rewrite <- Ht|].
    now apply process_paused.
  - intros fromDisk listing order w2 Ha Hp w3.
    destruct (_reload_quiet o fromDisk listing order Ha w2 Hp) as [Hp3 Hs].
    split; [exact Hp3|]. split; [exact Hs|].
    now apply process_paused.
  - vm_compute. repeat split; reflexivity.
Qed.

Lemma C7_witness :
  Forall (fun ev => ev <> EResume) [EDispatch; ETick 250; EFire 0] /\
  paused (run demo_options never_throws [EDispatch; ETick 250; EFire 0]
            (final (shutdown 7 demo_world))) = true.
Proof.
  assert (H : Forall (fun ev => ev <> EResume) [EDispatch; ETick 250; EFire 0])
    by (repeat constructor; discriminate).
  split; [exact H|].
  exact (proj1 (proj1 (proj2 (proj2 (proj2 (proj2 (proj2
    (C7_shutdown_drains_without_dispatching demo_options never_throws demo_world 7))))))
    _ H)).
Defined.

(** ** Push *)

(** C8 as stated does not hold.  A record pushed with a due time in the
    past is executed without any time passing: after the push, the two
    writes and one turn of the queue, the clock still shows the time of the
    push, 100000, and the caller's worker has been invoked. *)
Lemma C8_counterexample :
  ~ (forall (o : Options) (worker_throws : Job -> option Err) (w : World)
            (id data : string) (s : Z) (cb : option nat) (evs : list Event)
            (snap : Job),
        (s < clock w)%Z ->
        let w' := run o worker_throws evs
                    (exec o worker_throws w (EPush id data (Some s) cb)) in
        In (Exec (length (heap w)) snap) (log w') ->
        (clock w + 10000 <= clock w')%Z).
Proof.
  intros claim.
  specialize (claim plain_options never_throws (started plain_options 100000)
                "a" "data" 5%Z None [EIoDone 0 None; EDispatch; EIoDone 0 None]
                (mkJob "a" "data" "./kewkew-1" "./kewkew-1/a" 1 true 5) eq_refl).
  vm_compute in claim. apply claim; [|reflexivity].
  right. right. right. right. left. reflexivity.
Qed.

(** C8, as the code has it.  [push] creates the record and asks for it to
    be persisted; the queue and the trace are untouched, so nothing is
    dispatched inside the call.  Without a due time (or with a due time of
    0) the record is due 10000 ms after the call, and a worker that
    receives it earlier does not execute it.  A due time given by the
    caller is kept as it is, so a record pushed with a due time in the
    past is persisted and executed the first time the worker receives
    it. *)
Theorem C8_push_due_time
    (o : Options) (w : World) (id data : string) (sched : option Z)
    (cb : option nat) :
  let j := length (heap w) in
  let job := new_Job o id data (push_due (clock w) sched) in
  let w1 := final (push o id data sched cb w) in
  push o id data sched cb w =
    Done (set_io (io w ++ [(IOWrite (file job) job, KPush j cb)])
            (set_heap (heap w ++ [job]) w)) /\
  (tasks w1 = tasks w /\ log w1 = log w /\ workers w1 = workers w /\
   heap w1 !! j = Some job /\ attempts job = 0%Z /\ processing job = false) /\
  (sched = None -> scheduled job = (clock w + 10000)%Z) /\
  (forall s, sched = Some s -> s <> 0%Z -> scheduled job = s) /\
  (sched = None ->
   forall w2,
     heap w2 !! j = Some job ->
     (clock w2 < clock w + 10000)%Z ->
     exists w3,
       _worker o j w2 = Done w3 /\ log w3 = log w2 /\ io w3 = io w2 /\
       attempts <$> heap w3 !! j = Some 0%Z) /\
  (forall s w2,
     sched = Some s -> s <> 0%Z ->
     heap w2 !! j = Some job ->
     (s <= clock w2)%Z ->
     exists w3,
       _worker o j w2 = Done w3 /\
       io w3 = io w2 ++
         [(IOWrite (file job)
             (set_attempts 1 (set_processing true job)), KWorker j)]).
Proof.
  intros j job w1.
  pose proof (push_eq o id data sched cb w) as Hpush. cbn zeta in Hpush.
  fold j job in Hpush.
  assert (Hj : (heap w ++ [job]) !! j = Some job)
    by (unfold j; rewrite lookup_app_r, Nat.sub_diag by lia; reflexivity).
  split; [exact Hpush|]. unfold w1. rewrite Hpush. wsimpl.
  split; [repeat split; try reflexivity; exact Hj|].
  split; [intros ->; reflexivity|].
  split.
  { intros s -> Hs. cbn. destruct (s =? 0)%Z eqn:E; [|reflexivity].
    apply Z.eqb_eq in E. contradiction. }
  split.
  - intros -> w2 H2 Hc.
    eexists. split; [apply (_worker_early_eq o j w2 job H2); cbn; lia|].
    wsimpl. rewrite (lookup_insert_same _ _ _ _ H2).
    repeat split; reflexivity.
  - intros s w2 -> Hs H2 Hc.
    assert (Hd : scheduled job = s).
    { cbn. destruct (s =? 0)%Z eqn:E; [|reflexivity].
      apply Z.eqb_eq in E. contradiction. }
    eexists. split; [apply (_worker_due_eq o j w2 job H2); lia|].
    reflexivity.
Qed.

Lemma C8_witness :
  scheduled (new_Job plain_options "a" "data" (push_due 100000 (Some 5%Z))) = 5%Z.
Proof.
  exact (proj1 (proj2 (proj2 (proj2
    (C8_push_due_time plain_options (started plain_options 100000)
       "a" "data" (Some 5%Z) None)))) 5%Z eq_refl ltac:(discriminate)).
Defined.

(** ** The [processing] flag of pending records *)

(** C10 as stated does not hold.  After [retry_during_backoff] on a fresh
    controller the task [(125000, 0)] is pending and record 0 has
    [processing = true]. *)
Lemma C10_counterexample :
  ~ (forall (o : Options) (worker_throws : Job -> option Err)
            (evs : list Event) (now : Z),
        pending_unprocessed (run o worker_throws evs (started o now))).
Proof.
  intros claim.
  specialize (claim demo_options never_throws retry_during_backoff 100000%Z
                125000%Z 0%nat).
  destruct claim as (job & Hj & Hp).
  - vm_compute. left. reflexivity.
  - vm_compute in Hj. injection Hj as <-. discriminate Hp.
Qed.

(** *** Counting references *)

Lemma cnt_q_insert (i : jref) (p : Z) (j : jref) (ts : list (Z * jref)) :
  cnt i (map snd (q_insert p j ts)) = cnt i (j :: map snd ts).
Proof.
  induction ts as [|[p' j'] r IH]; [reflexivity|].
  cbn [q_insert]. destruct (p' <=? p)%Z; [|reflexivity].
  cbn [map snd count_occ] in *.
  destruct (Nat.eq_dec j' i), (Nat.eq_dec j i); lia.
Qed.

Lemma In_q_insert (x : Z * jref) (p : Z) (j : jref) (ts : list (Z * jref)) :
  In x (q_insert p j ts) <-> x = (p, j) \/ In x ts.
Proof.
  induction ts as [|[p' j'] r IH]; cbn [q_insert].
  - cbn. intuition congruence.
  - destruct (p' <=? p)%Z; cbn [In] in *; intuition congruence.
Qed.

Lemma cnt_refs_snoc {X : Type} (i : jref) (l : list (X * Cont)) (x : X) (k : Cont) :
  cnt i (refs_of (l ++ [(x, k)])) = cnt i (refs_of l) + cnt i (cont_refs k).
Proof.
  unfold refs_of. rewrite flat_map_app, count_occ_app. cbn [flat_map snd].
  now rewrite app_nil_r.
Qed.

Lemma refs_of_cons {X : Type} (x : X) (k : Cont) (l : list (X * Cont)) :
  refs_of ((x, k) :: l) = cont_refs k ++ refs_of l.
Proof. reflexivity. Qed.

Lemma cnt_refs_delete {X : Type} (i : jref) (l : list (X * Cont)) (n : nat)
    (x : X) (k : Cont) :
  l !! n = Some (x, k) ->
  cnt i (refs_of l) = cnt i (cont_refs k) + cnt i (refs_of (delete n l)).
Proof.
  revert n. induction l as [|[x' k'] r IH]; intros n H; [discriminate|].
  destruct n as [|n]; cbn in H.
  - injection H as -> ->. change (delete 0 ((x, k) :: r)) with r.
    now rewrite refs_of_cons, count_occ_app.
  - specialize (IH n H).
    change (delete (S n) ((x', k') :: r)) with ((x', k') :: delete n r).
    rewrite !refs_of_cons, !count_occ_app, IH. lia.
Qed.

Lemma cnt_remove_first (i j : jref) (l : list jref) :
  In j l -> cnt i l = cnt i [j] + cnt i (remove_first j l).
Proof.
  induction l as [|x r IH]; [intros []|].
  intros Hin. cbn [remove_first]. destruct (decide (x = j)) as [->|Hne].
  - cbn [count_occ]. destruct (Nat.eq_dec j i); lia.
  - destruct Hin as [Hx|Hin]; [congruence|]. specialize (IH Hin).
    cbn [count_occ] in *. destruct (Nat.eq_dec x i), (Nat.eq_dec j i); lia.
Qed.

Lemma cnt_task (p : Z) (j : jref) (ts : list (Z * jref)) :
  In (p, j) ts -> 0 < cnt j (map snd ts).
Proof.
  intros H. apply count_occ_In. apply in_map_iff. exists (p, j). now split.
Qed.

Lemma pending_update (w : World) (j : jref) (x : Job) :
  pending_unprocessed w ->
  (forall p, In (p, j) (tasks w) -> processing x = false) ->
  j < length (heap w) ->
  pending_unprocessed (set_heap (<[j := x]> (heap w)) w).
Proof.
  intros Hp Hx Hlt p i Hin. wsimpl. destruct (Nat.eq_dec i j) as [->|Hne].
  - exists x. split; [now apply list_lookup_insert_eq|]. eapply Hx; eauto.
  - rewrite list_lookup_insert_ne by congruence. eapply Hp; eauto.
Qed.

Section Ownership.

Variable o : Options.
Variable worker_throws : Job -> option Err.

(** Changes that touch neither the records nor the references. *)
Lemma inv_same (h : list jref) (w w' : World) :
  tasks w' = tasks w -> io w' = io w -> timers w' = timers w ->
  inflight w' = inflight w -> heap w' = heap w ->
  inv h w -> inv h w'.
Proof.
  intros Ht Hi Htm Hf Hh (Hc & Hb & Hp). unfold inv, owners, pending_unprocessed.
  rewrite Ht, Hi, Htm, Hf, Hh. exact (conj Hc (conj Hb Hp)).
Qed.

Lemma inv_weaken (j : jref) (h : list jref) (w : World) :
  inv (j :: h) w -> inv h w.
Proof.
  intros (Hc & Hb & Hp). split; [|split; [|exact Hp]].
  - intros i. specialize (Hc i). cbn [count_occ] in Hc.
    destruct (Nat.eq_dec j i); lia.
  - intros i Hi. apply Hb. cbn [count_occ]. destruct (Nat.eq_dec j i); lia.
Qed.

Lemma inv_weaken_app (h' h : list jref) (w : World) :
  inv (h' ++ h) w -> inv h w.
Proof.
  induction h' as [|j h' IH]; [trivial|]. intros H. apply IH.
  exact (inv_weaken j _ w H).
Qed.

(** A held record is in range and is not a pending task. *)
Lemma inv_held (j : jref) (h : list jref) (w : World) :
  inv (j :: h) w ->
  j < length (heap w) /\ forall p, ~ In (p, j) (tasks w).
Proof.
  intros (Hc & Hb & _). split.
  - apply Hb. cbn [count_occ]. destruct (Nat.eq_dec j j); [lia|congruence].
  - intros p Hin. apply cnt_task in Hin. specialize (Hc j).
    unfold owners in Hc. rewrite count_occ_app in Hc. cbn [count_occ] in Hc.
    destruct (Nat.eq_dec j j); [lia|congruence].
Qed.

(** Writing to a record that the running code holds. *)
Lemma inv_update_held (j : jref) (h : list jref) (w : World) (x : Job) :
  inv (j :: h) w -> inv (j :: h) (set_heap (<[j := x]> (heap w)) w).
Proof.
  intros H. destruct (inv_held j h w H) as [Hlt Hnot].
  destruct H as (Hc & Hb & Hp). split; [|split].
  - exact Hc.
  - intros i Hi. wsimpl. rewrite length_insert. now apply Hb.
  - apply pending_update; [exact Hp| |exact Hlt].
    intros p Hin. destruct (Hnot p Hin).
Qed.

(** Putting a held record into the queue after clearing its flag. *)
Lemma inv_enqueue (j : jref) (h : list jref) (w : World) (job : Job) (p : Z) :
  heap w !! j = Some job ->
  inv (j :: h) w ->
  inv h (set_tasks (q_insert p j (tasks w))
           (set_heap (<[j := set_processing false job]> (heap w)) w)).
Proof.
  intros Hj H. destruct (inv_held j h w H) as [Hlt Hnot].
  destruct H as (Hc & Hb & Hp). split; [|split].
  - intros i. specialize (Hc i). unfold owners in *. wsimpl.
    rewrite !count_occ_app in *. rewrite cnt_q_insert.
    cbn [count_occ] in *. destruct (Nat.eq_dec j i); lia.
  - intros i Hi. wsimpl. rewrite length_insert. apply Hb.
    unfold owners in *. wsimpl. rewrite !count_occ_app in *.
    rewrite cnt_q_insert in Hi. cbn [count_occ] in *.
    destruct (Nat.eq_dec j i); lia.
  - intros p' i Hin. wsimpl. apply In_q_insert in Hin as [[= -> ->]|Hin].
    + exists (set_processing false job). split; [|reflexivity].
      now apply list_lookup_insert_eq.
    + destruct (Nat.eq_dec i j) as [->|Hne]; [destruct (Hnot p' Hin)|].
      rewrite list_lookup_insert_ne by congruence. eapply Hp; eauto.
Qed.

(** Handing held references to a callback. *)
Lemma inv_add_io (r : IOReq) (k : Cont) (h : list jref) (w : World) :
  inv (cont_refs k ++ h) w -> inv h (set_io (io w ++ [(r, k)]) w).
Proof.
  intros (Hc & Hb & Hp). split; [|split; [|exact Hp]].
  - intros i. specialize (Hc i). unfold owners in *. wsimpl.
    rewrite !count_occ_app in *. rewrite cnt_refs_snoc. lia.
  - intros i Hi. wsimpl. apply Hb. unfold owners in *. wsimpl.
    rewrite !count_occ_app in *. rewrite cnt_refs_snoc in Hi. lia.
Qed.

Lemma inv_add_timer (t : Z) (k : Cont) (h : list jref) (w : World) :
  inv (cont_refs k ++ h) w -> inv h (set_timers (timers w ++ [(t, k)]) w).
Proof.
  intros (Hc & Hb & Hp). split; [|split; [|exact Hp]].
  - intros i. specialize (Hc i). unfold owners in *. wsimpl.
    rewrite !count_occ_app in *. rewrite cnt_refs_snoc. lia.
  - intros i Hi. wsimpl. apply Hb. unfold owners in *. wsimpl.
    rewrite !count_occ_app in *. rewrite cnt_refs_snoc in Hi. lia.
Qed.

Lemma inv_add_inflight (j : jref) (h : list jref) (w : World) :
  inv (j :: h) w -> inv h (set_inflight (inflight w ++ [j]) w).
Proof.
  intros (Hc & Hb & Hp). split; [|split; [|exact Hp]].
  - intros i. specialize (Hc i). unfold owners in *. wsimpl.
    rewrite !count_occ_app in *. cbn [count_occ] in *.
    destruct (Nat.eq_dec j i); lia.
  - intros i Hi. wsimpl. apply Hb. unfold owners in *. wsimpl.
    rewrite !count_occ_app in *. cbn [count_occ] in *.
    destruct (Nat.eq_dec j i); lia.
Qed.

(** Taking references back from the queue, a request, a timer or the
    caller's worker. *)
Lemma inv_pop (p : Z) (j : jref) (r : list (Z * jref)) (h : list jref) (w : World) :
  tasks w = (p, j) :: r -> inv h w -> inv (j :: h) (set_tasks r w).
Proof.
  intros Ht (Hc & Hb & Hp). split; [|split].
  - intros i. specialize (Hc i). unfold owners in *. wsimpl. rewrite Ht in Hc.
    rewrite !count_occ_app in *. cbn [map snd count_occ] in *.
    destruct (Nat.eq_dec j i); lia.
  - intros i Hi. wsimpl. apply Hb. unfold owners in *. wsimpl. rewrite Ht.
    rewrite !count_occ_app in *. cbn [map snd count_occ] in *.
    destruct (Nat.eq_dec j i); lia.
  - intros p' i Hin. wsimpl. apply (Hp p' i). rewrite Ht. now right.
Qed.

Lemma inv_take_io (n : nat) (r : IOReq) (k : Cont) (h : list jref) (w : World) :
  io w !! n = Some (r, k) -> inv h w ->
  inv (cont_refs k ++ h) (set_io (delete n (io w)) w).
Proof.
  intros Hn (Hc & Hb & Hp). split; [|split; [|exact Hp]].
  - intros i. specialize (Hc i). unfold owners in *. wsimpl.
    rewrite !count_occ_app in *. rewrite (cnt_refs_delete i _ _ _ _ Hn) in Hc. lia.
  - intros i Hi. wsimpl. apply Hb. unfold owners in *. wsimpl.
    rewrite !count_occ_app in *. rewrite (cnt_refs_delete i _ _ _ _ Hn). lia.
Qed.

Lemma inv_take_timer (n : nat) (t : Z) (k : Cont) (h : list jref) (w : World) :
  timers w !! n = Some (t, k) -> inv h w ->
  inv (cont_refs k ++ h) (set_timers (delete n (timers w)) w).
Proof.
  intros Hn (Hc & Hb & Hp). split; [|split; [|exact Hp]].
  - intros i. specialize (Hc i). unfold owners in *. wsimpl.
    rewrite !count_occ_app in *. rewrite (cnt_refs_delete i _ _ _ _ Hn) in Hc. lia.
  - intros i Hi. wsimpl. apply Hb. unfold owners in *. wsimpl.
    rewrite !count_occ_app in *. rewrite (cnt_refs_delete i _ _ _ _ Hn). lia.
Qed.

Lemma inv_take_inflight (j : jref) (h : list jref) (w : World) :
  In j (inflight w) -> inv h w ->
  inv (j :: h) (set_inflight (remove_first j (inflight w)) w).
Proof.
  intros Hin (Hc & Hb & Hp). split; [|split; [|exact Hp]].
  - intros i. specialize (Hc i). unfold owners in *. wsimpl.
    rewrite !count_occ_app in *. rewrite (cnt_remove_first i j _ Hin) in Hc.
    cbn [count_occ] in *. destruct (Nat.eq_dec j i); lia.
  - intros i Hi. wsimpl. apply Hb. unfold owners in *. wsimpl.
    rewrite !count_occ_app in *. rewrite (cnt_remove_first i j _ Hin).
    cbn [count_occ] in *. destruct (Nat.eq_dec j i); lia.
Qed.

(** The same, for a state given by its fields. *)
Lemma inv_io_rel (r : IOReq) (k : Cont) (h : list jref) (w w' : World) :
  io w' = io w ++ [(r, k)] ->
  tasks w' = tasks w -> timers w' = timers w ->
  inflight w' = inflight w -> heap w' = heap w ->
  inv (cont_refs k ++ h) w -> inv h w'.
Proof.
  intros Hi Ht Htm Hf Hh H.
  apply (inv_same h (set_io (io w ++ [(r, k)]) w)); auto.
  now apply inv_add_io.
Qed.

(** A new record object is held by the code that created it. *)
Lemma inv_alloc (job : Job) (h : list jref) (w : World) :
  inv h w -> inv (length (heap w) :: h) (set_heap (heap w ++ [job]) w).
Proof.
  intros (Hc & Hb & Hp). split; [|split].
  - intros i. specialize (Hc i). specialize (Hb i).
    unfold owners in *. wsimpl. cbn [count_occ].
    destruct (Nat.eq_dec (length (heap w)) i); lia.
  - intros i Hi. specialize (Hb i). unfold owners in *. wsimpl.
    rewrite length_app. cbn [length count_occ] in *.
    destruct (Nat.eq_dec (length (heap w)) i); lia.
  - intros p i Hin. wsimpl. destruct (Hp p i Hin) as (x & Hx & Hpx).
    exists x. split; [|exact Hpx]. now apply lookup_app_l_Some.
Qed.

End Ownership.

(** *** Every action hands the references on correctly *)

Lemma seq_post (P Q R : World -> Prop) (a b : M) (w : World) :
  P w ->
  (forall w, P w -> Q (final (a w))) ->
  (forall w, Q w -> R (final (b w))) ->
  (forall w, Q w -> R w) ->
  R (final ((a >> b) w)).
Proof.
  intros HP Ha Hb HQR. unfold seq. specialize (Ha w HP).
  destruct (a w) as [w1|e w1]; cbn in *; auto.
Qed.

Section Handover.

Variable o : Options.
Variable worker_throws : Job -> option Err.

Lemma inv_lookup (j : jref) (h : list jref) (w : World) :
  inv (j :: h) w -> exists job, heap w !! j = Some job.
Proof.
  intros H. destruct (inv_held j h w H) as [Hlt _].
  destruct (lookup_lt_is_Some_2 (heap w) j Hlt) as [job Hjob]. eauto.
Qed.

Lemma inv_log (x : list Entry) (h : list jref) (w : World) :
  inv h w -> inv h (set_log x w).
Proof. apply inv_same; reflexivity. Qed.

Lemma trigger_inv n e j h w : inv h w -> inv h (final (trigger n e j w)).
Proof. apply inv_log. Qed.

Lemma call_back_inv cb e j h w : inv h w -> inv h (final (call_back cb e j w)).
Proof. destruct cb; [apply inv_log|trivial]. Qed.

Lemma _enqueue_inv (j : jref) (h : list jref) (w : World) :
  inv (j :: h) w -> inv h (final (_enqueue j w)).
Proof.
  intros H. destruct (inv_lookup j h w H) as [job Hj].
  rewrite (_enqueue_eq j w job Hj). now apply inv_enqueue.
Qed.

Lemma retry_inv (j : jref) (cb : option nat) (h : list jref) (w : World) :
  inv (j :: h) w -> inv h (final (retry o j cb w)).
Proof.
  intros H. destruct (inv_lookup j h w H) as [job Hj].
  destruct (processing job) eqn:Hp.
  - rewrite (retry_eq o j cb w job Hj Hp). cbn [final].
    apply (inv_add_io _ (KRetry j cb) h (set_heap _ w)).
    cbn [cont_refs app]. now apply inv_update_held.
  - rewrite (retry_unprocessed o j cb w job Hj Hp). cbn [final].
    exact (inv_weaken j h w H).
Qed.

Lemma _onJobComplete_inv (err : option Err) (job : option jref)
    (h : list jref) (w : World) :
  inv (option_list job ++ h) w ->
  inv h (final (_onJobComplete o err job w)).
Proof.
  destruct err as [e|], job as [j|]; cbn [option_list app]; intros H.
  - destruct (inv_lookup j h w H) as [r Hj].
    rewrite (_onJobComplete_error_eq o w j r e Hj).
    destruct (retryFailedJobs o);
      [|cbn [final]; apply inv_log; exact (inv_weaken j h w H)].
    destruct ((maxJobFailures o <=? 0)%Z || (attempts r <? maxJobFailures o)%Z).
    + apply retry_inv. now apply inv_log.
    + apply inv_weaken in H.
      destruct (moveFailedJobs o); [|destruct (destroyFailedJobs o)]; cbn [final].
      * eapply (inv_io_rel _ KRename h w); try reflexivity. exact H.
      * eapply (inv_io_rel _ (KDestroy j) h w); try reflexivity. exact H.
      * now repeat apply inv_log.
  - unfold _onJobComplete. msimpl.
    destruct (retryFailedJobs o); cbn [final throw]; repeat apply inv_log; exact H.
  - destruct (inv_lookup j h w H) as [r Hj].
    apply inv_weaken in H.
    unfold _onJobComplete, _destroy. msimpl.
    destruct (moveSuccessfulJobs o); [|destruct (destroySuccessfulJobs o)].
    + erewrite with_job_eq by (wsimpl; exact Hj). msimpl.
      eapply (inv_io_rel _ KRename h w); try reflexivity. exact H.
    + erewrite with_job_eq by (wsimpl; exact Hj). msimpl.
      eapply (inv_io_rel _ (KDestroy j) h w); try reflexivity. exact H.
    + msimpl. now apply inv_log.
  - exact H.
Qed.

Lemma _worker_inv (j : jref) (h : list jref) (w : World) :
  inv (j :: h) w -> inv h (final (_worker o j w)).
Proof.
  intros H. destruct (inv_lookup j h w H) as [job Hj].
  destruct (Z_le_gt_dec (scheduled job) (clock w)) as [Hd|Hd].
  - rewrite (_worker_due_eq o j w job Hj Hd). cbn [final].
    apply (inv_add_io _ (KWorker j) h (set_heap _ w)).
    cbn [cont_refs app]. now apply inv_update_held.
  - rewrite (_worker_early_eq o j w job Hj) by lia. cbn [final].
    apply (inv_add_timer _ (KEarly j) h (set_heap _ w)).
    cbn [cont_refs app]. now apply inv_update_held.
Qed.

Lemma process_inv (h : list jref) (w : World) :
  inv h w -> inv h (final (process o w)).
Proof.
  intros H. unfold process.
  destruct (negb (paused w) && (workers w <? concurrency o)%nat); [|exact H].
  destruct (tasks w) as [|[p j] r] eqn:Ht; [exact H|].
  apply _worker_inv. apply (inv_pop p j r); [exact Ht|].
  revert H. apply inv_same; reflexivity.
Qed.

Lemma next_inv (err : option Err) (job : option jref) (h : list jref) (w : World) :
  inv (option_list job ++ h) w -> inv h (final (next o err job w)).
Proof.
  intros H. unfold next. msimpl.
  apply (seq_post (inv (option_list job ++ h)) (inv h) (inv h)).
  - revert H. apply inv_same; reflexivity.
  - intros w1. apply _onJobComplete_inv.
  - intros w1. apply process_inv.
  - trivial.
Qed.

Lemma invoke_worker_inv (j : jref) (h : list jref) (w : World) :
  inv (j :: h) w -> inv h (final (invoke_worker o worker_throws j w)).
Proof.
  intros H. destruct (inv_lookup j h w H) as [job Hj].
  unfold invoke_worker. rewrite (with_job_eq j _ w job Hj). msimpl.
  destruct (worker_throws job) as [e|].
  - apply (next_inv (Some e) (Some j)). cbn [option_list app]. now apply inv_log.
  - msimpl. apply (inv_add_inflight j h (set_log _ w)). now apply inv_log.
Qed.

Lemma whilst_running_inv (cb : nat) (h : list jref) (w : World) :
  inv h w -> inv h (final (whilst_running cb w)).
Proof.
  intros H. unfold whilst_running. destruct (workers w =? 0)%nat.
  - now apply inv_log.
  - unfold setTimeout. msimpl. apply (inv_add_timer _ (KPoll cb)). exact H.
Qed.

Lemma enqueue_then_inv (j : jref) (k : M) (h : list jref) (w : World) :
  (forall w, inv h w -> inv h (final (k w))) ->
  inv (j :: h) w -> inv h (final ((_enqueue j >> k) w)).
Proof.
  intros Hk H.
  apply (seq_post (inv (j :: h)) (inv h) (inv h));
    [ exact H | intros w1; apply _enqueue_inv | exact Hk | trivial ].
Qed.

Lemma run_cont_inv (k : Cont) (err : option Err) (h : list jref) (w : World) :
  inv (cont_refs k ++ h) w -> inv h (final (run_cont o worker_throws k err w)).
Proof.
  destruct k as [j|j cb|j cb| |j|j|cb]; cbn [cont_refs app run_cont]; intros H.
  - destruct err as [e|].
    + now apply (next_inv (Some e) (Some j)).
    + now apply invoke_worker_inv.
  - destruct err as [e|].
    + apply call_back_inv. exact (inv_weaken j h w H).
    + apply enqueue_then_inv; [|exact H]. intros w1 H1.
      apply (seq_post (inv h) (inv h) (inv h));
        [ exact H1 | intros w2; apply trigger_inv
        | intros w2; apply call_back_inv | trivial ].
  - destruct err as [e|].
    + apply inv_weaken in H. msimpl.
      apply call_back_inv. now repeat apply inv_log.
    + apply enqueue_then_inv; [|exact H]. intros w1 H1. msimpl.
      apply call_back_inv. now repeat apply inv_log.
  - destruct err; [now apply inv_log|exact H].
  - destruct err; [exact H|now apply inv_log].
  - apply enqueue_then_inv; [|exact H]. intros w1.
    apply (next_inv None None).
  - now apply whilst_running_inv.
Qed.

Lemma complete_io_inv (r : IOReq) (k : Cont) (res : option Err)
    (h : list jref) (w : World) :
  inv (cont_refs k ++ h) w ->
  inv h (final (complete_io o worker_throws r k res w)).
Proof.
  intros H. destruct r as [path snap|src dst|path], res as [e|];
    cbn [complete_io]; msimpl.
  - apply run_cont_inv. now apply inv_log.
  - apply run_cont_inv. apply inv_log. revert H. apply inv_same; reflexivity.
  - now apply run_cont_inv.
  - apply run_cont_inv. destruct (disk w !! src); [|exact H].
    revert H. apply inv_same; reflexivity.
  - exact (inv_weaken_app _ _ _ H).
  - apply run_cont_inv. revert H. apply inv_same; reflexivity.
Qed.

Lemma push_inv id data sched cb (w : World) :
  inv [] w -> inv [] (final (push o id data sched cb w)).
Proof.
  intros H.
  rewrite (push_eq o id data sched cb w). cbn [final].
  apply (inv_add_io _ (KPush (length (heap w)) cb) [] (set_heap _ w)).
  cbn [cont_refs app]. now apply inv_alloc.
Qed.

Lemma step_inv (ev : Event) (w : World) :
  not_manual_retry ev = true ->
  inv [] w -> inv [] (final (step o worker_throws ev w)).
Proof.
  intros Hev H. destruct ev; cbn [step]; try discriminate Hev.
  - now apply push_inv.
  - unfold pause. destruct (negb (paused w)); [|exact H]. msimpl.
    apply inv_log. revert H. apply inv_same; reflexivity.
  - unfold resume. destruct (paused w); [|exact H]. msimpl.
    apply inv_log. revert H. apply inv_same; reflexivity.
  - unfold shutdown. msimpl. apply whilst_running_inv.
    revert H. apply inv_same; reflexivity.
  - now apply process_inv.
  - destruct (io w !! n) as [[r k]|] eqn:Hn; [|exact H].
    apply complete_io_inv. now apply (inv_take_io n r k).
  - destruct (timers w !! n) as [[t k]|] eqn:Hn; [|exact H].
    destruct (t <=? clock w)%Z; [|exact H].
    apply run_cont_inv. now apply (inv_take_timer n t k).
  - unfold member. destruct (bool_decide (j ∈ inflight w)) eqn:Hm.
    + apply bool_decide_eq_true in Hm. apply list_elem_of_In in Hm.
      apply (next_inv res (Some j)). cbn [option_list app].
      now apply inv_take_inflight.
    + now apply trigger_inv.
  - msimpl. revert H. apply inv_same; reflexivity.
Qed.

Lemma exec_inv (ev : Event) (w : World) :
  not_manual_retry ev = true ->
  inv [] w -> inv [] (exec o worker_throws w ev).
Proof.
  intros Hev H. pose proof (step_inv ev w Hev H) as H1. unfold exec.
  destruct (step o worker_throws ev w) as [w'|e w']; cbn in H1; [exact H1|].
  now apply inv_log.
Qed.

Lemma run_inv (evs : list Event) (w : World) :
  forallb not_manual_retry evs = true ->
  inv [] w -> inv [] (run o worker_throws evs w).
Proof.
  revert w. induction evs as [|ev evs IH]; intros w Hevs H; [exact H|].
  cbn in Hevs. apply andb_true_iff in Hevs as [Hev Hevs].
  cbn [run fold_left]. apply IH; [exact Hevs|]. now apply exec_inv.
Qed.

(** Recovery leaves every loaded record pending and unprocessed. *)
Lemma enqueue_all_inv (jobs : list Job) (w : World) :
  inv [] w -> inv [] (final (enqueue_all jobs w)).
Proof.
  revert w. induction jobs as [|job rest IH]; intros w H; [exact H|].
  cbn [enqueue_all].
  apply (seq_post (inv []) (inv []) (inv []));
    [ exact H | | intros w1; apply IH | trivial ].
  intros w1 H1. unfold alloc. msimpl. apply _enqueue_inv.
  exact (inv_alloc job [] w1 H1).
Qed.

Lemma new_world_inv (now : Z) (d : gmap string Job) : inv [] (new_world now d).
Proof.
  split; [|split].
  - intros j. cbn. lia.
  - intros j Hj. cbn in Hj. lia.
  - intros p j [].
Qed.

Lemma _init_inv (fromDisk : string -> Err + Job) (listing : Err + list string)
    (order : list nat) (now : Z) (d : gmap string Job) :
  inv [] (final (_init o fromDisk listing order (new_world now d))).
Proof.
  unfold _init, _reload. msimpl.
  set (w0 := set_paused true (set_tasks [] (new_world now d))).
  assert (H0 : inv [] w0) by (apply new_world_inv).
  destruct listing as [e|files]; [now apply inv_log|].
  destruct (parallelLimit _ order) as [e|jobs]; [now apply inv_log|].
  apply (seq_post (inv []) (inv []) (inv []));
    [ exact H0 | intros w1; apply enqueue_all_inv | | trivial ].
  intros w1 H1. msimpl.
  destruct (autoStart o); msimpl; [|now apply inv_log].
  apply (inv_log (log w1 ++ [Trigger "ready" None None])) in H1.
  revert H1. apply inv_same; reflexivity.
Qed.

End Handover.

(** *** Only the worker sets the flag *)

Lemma no_flag_set_refl w : no_flag_set w w.
Proof. intros j job H. exists job. auto. Qed.

Lemma no_flag_set_trans a b c : no_flag_set a b -> no_flag_set b c -> no_flag_set a c.
Proof.
  intros Hab Hbc j job H. destruct (Hab j job H) as (job1 & H1 & P1).
  destruct (Hbc j job1 H1) as (job2 & H2 & P2). exists job2. auto.
Qed.

Lemma no_flag_set_weaken w w' : no_flag_set w w' -> flag_set_by_worker w w'.
Proof.
  intros H j job Hj. destruct (H j job Hj) as (job' & H1 & P1).
  exists job'. auto.
Qed.

Lemma flag_set_after a b c :
  no_flag_set a b -> flag_set_by_worker b c -> flag_set_by_worker a c.
Proof.
  intros Hab Hbc j job H. destruct (Hab j job H) as (job1 & H1 & P1).
  destruct (Hbc j job1 H1) as (job2 & H2 & P2). exists job2.
  split; [exact H2|]. intros Ht. destruct (P2 Ht); auto.
Qed.

Lemma no_flag_set_same_heap w w' : heap w' = heap w -> no_flag_set w w'.
Proof. intros Hh j job H. exists job. rewrite Hh. auto. Qed.

Lemma keeps_seq_worker (a b : M) :
  keeps no_flag_set a -> keeps flag_set_by_worker b ->
  keeps flag_set_by_worker (a >> b).
Proof.
  intros Ha Hb w. unfold seq. specialize (Ha w).
  destruct (a w) as [w1|e w1]; cbn in *.
  - eapply flag_set_after; [exact Ha|apply Hb].
  - now apply no_flag_set_weaken.
Qed.

Section FlagSetters.

Variable o : Options.
Variable worker_throws : Job -> option Err.

Ltac flag_step :=
  first
    [ apply keeps_ret; exact no_flag_set_refl
    | apply keeps_throw; exact no_flag_set_refl
    | apply keeps_seq; [exact no_flag_set_trans| |]
    | apply keeps_with_job; [exact no_flag_set_refl|intros ?]
    | apply keeps_modify; intros ?; apply no_flag_set_same_heap; reflexivity
    | match goal with
      | |- keeps _ (match ?x with Some _ => _ | None => _ end) => destruct x
      | |- keeps _ (if ?b then _ else _) => destruct b
      end ].

Lemma update_job_flag (j : jref) (f : Job -> Job) :
  (forall job, processing (f job) = true -> processing job = true) ->
  keeps no_flag_set (update_job j f).
Proof.
  intros Hf w. unfold update_job, with_job.
  destruct (heap w !! j) as [job|] eqn:Hj; [|apply no_flag_set_refl].
  msimpl. intros i x Hi. wsimpl. destruct (Nat.eq_dec i j) as [->|Hne].
  - exists (f job). split; [now apply (lookup_insert_same _ _ job)|].
    intros Ht. apply Hf in Ht. congruence.
  - exists x. rewrite list_lookup_insert_ne by congruence. auto.
Qed.

Lemma trigger_flag n e j : keeps no_flag_set (trigger n e j).
Proof. unfold trigger. flag_step. Qed.

Lemma emit_flag x : keeps no_flag_set (emit x).
Proof. unfold emit. flag_step. Qed.

Lemma call_back_flag cb e j : keeps no_flag_set (call_back cb e j).
Proof. unfold call_back, emit. repeat flag_step. Qed.

Lemma add_io_flag r k : keeps no_flag_set (add_io r k).
Proof. unfold add_io. flag_step. Qed.

Lemma _persist_flag j k : keeps no_flag_set (_persist j k).
Proof. unfold _persist, add_io. repeat flag_step. Qed.

Lemma _destroy_flag j k : keeps no_flag_set (_destroy j k).
Proof. unfold _destroy, add_io. repeat flag_step. Qed.

Lemma _enqueue_flag j : keeps no_flag_set (_enqueue j).
Proof.
  unfold _enqueue. apply keeps_seq; [exact no_flag_set_trans| |].
  - apply update_job_flag. intros job Ht. discriminate Ht.
  - repeat flag_step.
Qed.

Lemma retry_flag j cb : keeps no_flag_set (retry o j cb).
Proof.
  unfold retry. apply keeps_with_job; [exact no_flag_set_refl|intros job].
  destruct (processing job); [|flag_step].
  apply keeps_seq; [exact no_flag_set_trans| |apply _persist_flag].
  apply update_job_flag. trivial.
Qed.

Lemma _onJobComplete_flag err job : keeps no_flag_set (_onJobComplete o err job).
Proof.
  unfold _onJobComplete.
  destruct err as [e|], job as [j|];
    repeat first
      [ apply trigger_flag | apply retry_flag | apply _destroy_flag
      | apply add_io_flag | flag_step ].
Qed.

Lemma whilst_running_flag cb : keeps no_flag_set (whilst_running cb).
Proof.
  intros w. unfold whilst_running.
  destruct (workers w =? 0)%nat; [apply emit_flag|].
  now apply no_flag_set_same_heap.
Qed.

Lemma push_flag id data sched cb : keeps no_flag_set (push o id data sched cb).
Proof.
  intros w. unfold push.
  apply (keeps_seq no_flag_set no_flag_set_trans); [|apply _persist_flag].
  intros w1 j job Hj. exists job. cbn. split; [|auto].
  now apply lookup_app_l_Some.
Qed.

(** The worker turns the flag on, for the record it was given. *)
Lemma _worker_flag j : keeps flag_set_by_worker (_worker o j).
Proof.
  intros w. destruct (heap w !! j) as [job|] eqn:Hj.
  - destruct (Z_le_gt_dec (scheduled job) (clock w)) as [Hd|Hd].
    + rewrite (_worker_due_eq o j w job Hj Hd). cbn [final].
      intros i x Hi. wsimpl. destruct (Nat.eq_dec i j) as [->|Hne].
      * eexists. split; [now apply (lookup_insert_same _ _ job)|].
        intros _. right. left. eexists. apply last_snoc.
      * exists x. rewrite list_lookup_insert_ne by congruence. auto.
    + rewrite (_worker_early_eq o j w job Hj) by lia. cbn [final].
      intros i x Hi. wsimpl. destruct (Nat.eq_dec i j) as [->|Hne].
      * eexists. split; [now apply (lookup_insert_same _ _ job)|].
        intros _. right. right. eexists. apply last_snoc.
      * exists x. rewrite list_lookup_insert_ne by congruence. auto.
  - unfold _worker, seq, update_job, with_job. rewrite Hj. cbn.
    apply no_flag_set_weaken, no_flag_set_refl.
Qed.

Lemma process_flag : keeps flag_set_by_worker (process o).
Proof.
  intros w. unfold process.
  destruct (negb (paused w) && (workers w <? concurrency o)%nat);
    [|apply no_flag_set_weaken, no_flag_set_refl].
  destruct (tasks w) as [|[p j] r];
    [apply no_flag_set_weaken, no_flag_set_refl|].
  eapply flag_set_after; [|apply _worker_flag].
  now apply no_flag_set_same_heap.
Qed.

Lemma next_flag err job : keeps flag_set_by_worker (next o err job).
Proof.
  unfold next. apply keeps_seq_worker; [flag_step|].
  apply keeps_seq_worker; [apply _onJobComplete_flag|apply process_flag].
Qed.

Lemma run_cont_flag k err : keeps flag_set_by_worker (run_cont o worker_throws k err).
Proof.
  assert (W : forall a, keeps no_flag_set a -> keeps flag_set_by_worker a)
    by (intros a Ha w; apply no_flag_set_weaken, Ha).
  destruct k; cbn [run_cont].
  - destruct err; [apply next_flag|].
    unfold invoke_worker. intros w. unfold with_job.
    destruct (heap w !! j) as [job|]; [|apply no_flag_set_weaken, no_flag_set_refl].
    apply keeps_seq_worker; [apply emit_flag|].
    destruct (worker_throws job); [apply next_flag|apply W; flag_step].
  - apply W. destruct err;
      repeat first [apply call_back_flag | apply trigger_flag
                   | apply _enqueue_flag | flag_step].
  - apply W. destruct err;
      repeat first [apply call_back_flag | apply trigger_flag
                   | apply _enqueue_flag | flag_step].
  - apply W. destruct err; [apply trigger_flag|flag_step].
  - apply W. destruct err; [flag_step|apply trigger_flag].
  - apply keeps_seq_worker; [apply _enqueue_flag|apply next_flag].
  - apply W, whilst_running_flag.
Qed.

Lemma complete_io_flag r k res :
  keeps flag_set_by_worker (complete_io o worker_throws r k res).
Proof.
  destruct r as [path snap|src dst|path], res as [e|]; cbn [complete_io].
  - apply keeps_seq_worker; [apply trigger_flag|apply run_cont_flag].
  - apply keeps_seq_worker; [flag_step|].
    apply keeps_seq_worker; [apply emit_flag|apply run_cont_flag].
  - apply run_cont_flag.
  - apply keeps_seq_worker; [|apply run_cont_flag].
    apply keeps_modify. intros w. apply no_flag_set_same_heap.
    now destruct (disk w !! src).
  - intros w. apply no_flag_set_weaken, no_flag_set_refl.
  - apply keeps_seq_worker; [flag_step|apply run_cont_flag].
Qed.

Lemma step_flag ev : keeps flag_set_by_worker (step o worker_throws ev).
Proof.
  assert (W : forall a, keeps no_flag_set a -> keeps flag_set_by_worker a)
    by (intros a Ha w; apply no_flag_set_weaken, Ha).
  destruct ev; cbn [step].
  - apply W, push_flag.
  - apply W, retry_flag.
  - apply W. intros w. unfold pause. destruct (negb (paused w));
      [|apply no_flag_set_refl]. now apply no_flag_set_same_heap.
  - apply W. intros w. unfold resume. destruct (paused w);
      [|apply no_flag_set_refl]. now apply no_flag_set_same_heap.
  - apply W. unfold shutdown.
    apply keeps_seq; [exact no_flag_set_trans|flag_step|apply whilst_running_flag].
  - apply process_flag.
  - intros w. destruct (io w !! n) as [[r k]|];
      [|apply no_flag_set_weaken, no_flag_set_refl].
    eapply flag_set_after; [|apply complete_io_flag].
    now apply no_flag_set_same_heap.
  - intros w. destruct (timers w !! n) as [[t k]|];
      [|apply no_flag_set_weaken, no_flag_set_refl].
    destruct (t <=? clock w)%Z; [|apply no_flag_set_weaken, no_flag_set_refl].
    eapply flag_set_after; [|apply run_cont_flag].
    now apply no_flag_set_same_heap.
  - intros w. destruct (member j (inflight w)); [|apply W, trigger_flag].
    eapply flag_set_after; [|apply next_flag].
    now apply no_flag_set_same_heap.
  - apply W. flag_step.
Qed.

(** Whatever happens, manual retry included, a flag that was off and is
    on afterwards belongs to a record the worker has just taken. *)
Lemma exec_flag (ev : Event) (w : World) (j : jref) (job job' : Job) :
  heap w !! j = Some job -> processing job = false ->
  heap (exec o worker_throws w ev) !! j = Some job' -> processing job' = true ->
  taken_by_worker j (exec o worker_throws w ev).
Proof.
  intros Hj Hp Hj' Hp'. pose proof (step_flag ev w j job Hj) as (x & Hx & Px).
  unfold exec in *. destruct (step o worker_throws ev w) as [w'|e w']; cbn in *.
  - rewrite Hx in Hj'. injection Hj' as <-. destruct (Px Hp'); [congruence|assumption].
  - rewrite Hx in Hj'. injection Hj' as <-.
    destruct (Px Hp') as [|[H|H]]; [congruence|left; exact H|right; exact H].
Qed.

End FlagSetters.

(** C10, as the code has it.  All four ways into the queue (the callback
    of [push], recovery, the backoff timer and the callback of [retry])
    go through [_enqueue], which clears [processing] and then inserts the
    record; and whatever happens, a flag that was off and is on afterwards
    belongs to a record the worker has just taken from the queue (whether
    it then executes it or finds it early).  Hence, in every run from a
    fresh controller in which [retry] is not called by hand, every pending
    record has [processing = false]. *)
Theorem C10_pending_records_are_unprocessed
    (o : Options) (worker_throws : Job -> option Err)
    (fromDisk : string -> Err + Job) (listing : Err + list string)
    (order : list nat) (now : Z) (d : gmap string Job) (evs : list Event) :
  forallb not_manual_retry evs = true ->
  let w := run o worker_throws evs
             (final (_init o fromDisk listing order (new_world now d))) in
  pending_unprocessed w /\
  (forall w0 j job,
      heap w0 !! j = Some job ->
      exists w1,
        _enqueue j w0 = Done w1 /\
        heap w1 !! j = Some (set_processing false job) /\
        tasks w1 = q_insert (scheduled job) j (tasks w0)) /\
  (forall j cb job rest,
      run_cont o worker_throws (KPush j cb) None =
        (_enqueue j >> trigger "job:queue" None (Some j) >> call_back cb None (Some j)) /\
      run_cont o worker_throws (KRetry j cb) None =
        (_enqueue j >> trigger "job:retry" None (Some j) >>
         trigger "job:queue" None (Some j) >> call_back cb None None) /\
      run_cont o worker_throws (KEarly j) None = (_enqueue j >> next o None None) /\
      enqueue_all (job :: rest) =
        ((fun w0 => (alloc job >> _enqueue (length (heap w0))) w0) >>
         enqueue_all rest)) /\
  (forall ev w0 j job job',
      heap w0 !! j = Some job ->
      processing job = false ->
      heap (exec o worker_throws w0 ev) !! j = Some job' ->
      processing job' = true ->
      taken_by_worker j (exec o worker_throws w0 ev)).
Proof.
  intros Hevs w. split; [|split; [|split]].
  - unfold w. apply (run_inv o worker_throws evs _ Hevs). apply _init_inv.
  - intros w0 j job Hj. eexists. split; [apply (_enqueue_eq j w0 job Hj)|].
    wsimpl. split; [now apply (lookup_insert_same _ _ job)|reflexivity].
  - intros j cb job rest. repeat split; reflexivity.
  - intros ev w0 j job job'. apply exec_flag.
Qed.

Lemma C10_witness :
  forallb not_manual_retry recovered_then_busy = true /\
  In (110000%Z, 1%nat)
     (tasks (run retrying_options never_throws recovered_then_busy
               (final (_init retrying_options demo_fromDisk (inr ["good"]) [0%nat]
                         (new_world 100000 ∅))))) /\
  exists job,
    heap (run retrying_options never_throws recovered_then_busy
            (final (_init retrying_options demo_fromDisk (inr ["good"]) [0%nat]
                      (new_world 100000 ∅)))) !! 1%nat = Some job /\
    processing job = false.
Proof.
  assert (Hin : In (110000%Z, 1%nat)
                   (tasks (run retrying_options never_throws recovered_then_busy
                             (final (_init retrying_options demo_fromDisk
                                       (inr ["good"]) [0%nat]
                                       (new_world 100000 ∅)))))).
  { vm_compute. left. reflexivity. }
  split; [reflexivity|]. split; [exact Hin|].
  exact (proj1
    (C10_pending_records_are_unprocessed retrying_options never_throws
       demo_fromDisk (inr ["good"]) [0%nat] 100000%Z ∅ recovered_then_busy eq_refl)
    110000%Z 1%nat Hin).
Defined.

(** * Further properties *)

(** ** Pause and resume *)

(** X1. [pause] and [resume] are idempotent and fire their event only when
    the state of the queue changes; neither touches the pending tasks, the
    records or the running executions, and each undoes the other. *)
Theorem X1_pause_resume_idempotent (w : World) :
  let p := final (pause w) in
  let r := final (resume w) in
  (paused p = true /\ paused r = false) /\
  (final (pause p) = p /\ final (resume r) = r) /\
  log p = log w ++ (if paused w then [] else [Trigger "pause" None None]) /\
  log r = log w ++ (if paused w then [Trigger "resume" None None] else []) /\
  (tasks p = tasks w /\ heap p = heap w /\ workers p = workers w /\
   io p = io w /\ timers p = timers w /\ inflight p = inflight w) /\
  (tasks r = tasks w /\ heap r = heap w /\ workers r = workers w /\
   io r = io w /\ timers r = timers w /\ inflight r = inflight w) /\
  paused (final (resume p)) = false /\
  paused (final (pause r)) = true.
Proof.
  unfold pause, resume. destruct w as [c h t pa wk d i tm fl l].
  destruct pa; cbn; rewrite ?app_nil_r; repeat split; reflexivity.
Qed.

(** ** Successful completion *)

(** X2. A successful completion fires [job:complete] and then renames the
    backing file to [.success-<id>] when [moveSuccessfulJobs] is set, else
    deletes it when [destroySuccessfulJobs] is set, else leaves it; the
    record is never put back into the queue.  A controller built with
    [destroySuccessfulJobs: true] has [moveSuccessfulJobs] off whatever
    the caller passed for it.  When the rename succeeds the file has moved
    to the marker; when it fails only [error] is fired and the file stays. *)
Theorem X2_success_is_finalized
    (o : Options) (worker_throws : Job -> option Err)
    (w : World) (j : jref) (r : Job) :
  heap w !! j = Some r ->
  (exists w1,
      _onJobComplete o None (Some j) w = Done w1 /\
      log w1 = log w ++ [Trigger "job:complete" None (Some j)] /\
      io w1 = io w ++
        (if moveSuccessfulJobs o then [(IORename (file r) (success_marker r), KRename)]
         else if destroySuccessfulJobs o then [(IOUnlink (file r), KDestroy j)]
         else []) /\
      tasks w1 = tasks w /\ heap w1 = heap w /\ timers w1 = timers w /\
      disk w1 = disk w) /\
  (forall uid u,
      u_destroySuccessfulJobs u = Some true ->
      moveSuccessfulJobs (KewKew_options uid (Some u)) = false /\
      destroySuccessfulJobs (KewKew_options uid (Some u)) = true) /\
  (forall w2 c,
      disk w2 !! file r = Some c ->
      file r <> success_marker r ->
      let w3 := final (complete_io o worker_throws
                         (IORename (file r) (success_marker r)) KRename None w2) in
      disk w3 !! success_marker r = Some c /\ disk w3 !! file r = None /\
      log w3 = log w2) /\
  (forall w2 e,
      complete_io o worker_throws
        (IORename (file r) (success_marker r)) KRename (Some e) w2 =
      Done (set_log (log w2 ++ [Trigger "error" (Some e) None]) w2)).
Proof.
  intros H. split; [|split; [|split]].
  - unfold _onJobComplete, _destroy. msimpl.
    destruct (moveSuccessfulJobs o); [|destruct (destroySuccessfulJobs o)].
    + erewrite with_job_eq by (wsimpl; exact H). msimpl.
      eexists. split; [reflexivity|]. wsimpl. repeat split; reflexivity.
    + erewrite with_job_eq by (wsimpl; exact H). msimpl.
      eexists. split; [reflexivity|]. wsimpl. repeat split; reflexivity.
    + msimpl. eexists. split; [reflexivity|]. wsimpl.
      rewrite app_nil_r. repeat split; reflexivity.
  - intros uid u Hu. unfold KewKew_options, disable_moves. rewrite Hu.
    destruct (u_destroyFailedJobs u) as [[|]|]; cbn; rewrite ?Hu; split; reflexivity.
  - intros w2 c Hc Hne w3. unfold w3, complete_io, run_cont. msimpl.
    rewrite Hc. wsimpl. split; [apply lookup_insert_eq|]. split; [|reflexivity].
    rewrite lookup_insert_ne by congruence. apply lookup_delete_eq.
  - reflexivity.
Qed.

Lemma X2_witness :
  heap demo_failed_world !! 0%nat = Some (mkJob "a" "data" "q" "q/a" 1 true 5) /\
  exists w1,
    _onJobComplete demo_options None (Some 0%nat) demo_failed_world = Done w1 /\
    io w1 = [(IORename "q/a" "q/.success-a", KRename)].
Proof.
  split; [reflexivity|].
  destruct
    (X2_success_is_finalized demo_options never_throws demo_failed_world 0
       (mkJob "a" "data" "q" "q/a" 1 true 5) eq_refl)
    as [[w1 [H1 [_ [H2 _]]]] _].
  exists w1. split; [exact H1|exact H2].
Defined.

(** ** The outcome of a push *)

Lemma length_q_insert (p : Z) (j : jref) (ts : list (Z * jref)) :
  length (q_insert p j ts) = S (length ts).
Proof.
  induction ts as [|[p' j'] r IH]; [reflexivity|].
  cbn [q_insert]. destruct (p' <=? p)%Z; cbn [length]; [now rewrite IH|reflexivity].
Qed.

Lemma lookup_snoc_last {A} (l : list A) (x : A) : (l ++ [x]) !! length l = Some x.
Proof. rewrite lookup_app_r, Nat.sub_diag by lia. reflexivity. Qed.

Lemma delete_snoc_last {A} (l : list A) (x : A) : delete (length l) (l ++ [x]) = l.
Proof.
  induction l as [|a l IH]; [reflexivity|].
  cbn [length app]. change (delete (S (length l)) (a :: (l ++ [x])))
    with (a :: delete (length l) (l ++ [x])). now rewrite IH.
Qed.

(** X3. What becomes of a pushed record is decided when its first write
    completes.  If the write succeeds the record is on disk, enters the
    queue with [processing = false] and its due time as priority, [count]
    grows by exactly one, [job:queue] is fired and the caller's callback
    gets the record.  If the write fails, [error] is fired, the callback
    gets the error, and the record is neither on disk nor in the queue;
    [job:queue] is not fired. *)
Theorem X3_push_outcome
    (o : Options) (worker_throws : Job -> option Err) (w : World)
    (id data : string) (sched : option Z) (cb : option nat) :
  let j := length (heap w) in
  let job := new_Job o id data (push_due (clock w) sched) in
  let w1 := final (push o id data sched cb w) in
  (let w2 := exec o worker_throws w1 (EIoDone (length (io w)) None) in
   tasks w2 = q_insert (scheduled job) j (tasks w) /\
   count w2 = S (count w) /\
   heap w2 !! j = Some job /\
   disk w2 = <[file job := job]> (disk w) /\
   io w2 = io w /\
   log w2 = log w ++ [Wrote (file job) job; Trigger "job:queue" None (Some j)]
                  ++ called_back cb None (Some j)) /\
  (forall e,
   let w2 := exec o worker_throws w1 (EIoDone (length (io w)) (Some e)) in
   tasks w2 = tasks w /\
   count w2 = count w /\
   disk w2 = disk w /\
   io w2 = io w /\
   log w2 = log w ++ [Trigger "error" (Some e) None]
                  ++ called_back cb (Some e) None).
Proof.
  intros j job w1.
  assert (Hw1 : w1 = set_io (io w ++ [(IOWrite (file job) job, KPush j cb)])
                       (set_heap (heap w ++ [job]) w)).
  { unfold w1. now rewrite (push_eq o id data sched cb w). }
  assert (Hj : (heap w ++ [job]) !! j = Some job) by apply lookup_snoc_last.
  split.
  - intros w2. unfold w2, exec, step. rewrite Hw1. wsimpl.
    rewrite lookup_snoc_last, delete_snoc_last.
    unfold complete_io, run_cont. msimpl.
    erewrite seq_done by (apply _enqueue_eq; wsimpl; exact Hj).
    msimpl. change (set_processing false job) with job.
    rewrite (list_insert_id _ _ _ Hj).
    unfold count. destruct cb; msimpl; wsimpl;
      rewrite ?length_q_insert, <- ?app_assoc, ?app_nil_r;
      repeat split; try reflexivity; exact Hj.
  - intros e w2. unfold w2, exec, step. rewrite Hw1. wsimpl.
    rewrite lookup_snoc_last, delete_snoc_last.
    unfold complete_io, run_cont. msimpl.
    destruct cb; msimpl; wsimpl; rewrite <- ?app_assoc, ?app_nil_r;
      repeat split; reflexivity.
Qed.

(** ** A retry whose write fails *)

(** X4. When the write requested by [retry] fails nothing is rolled back:
    the record keeps its advanced due time and its [processing] flag, it is
    not put back into the queue and nothing reaches the disk.  [error] is
    fired by [_persist] and again, after [job:error], by [retry], and the
    caller's callback gets the error. *)
Theorem X4_failed_retry_is_not_rolled_back
    (o : Options) (worker_throws : Job -> option Err)
    (w : World) (j : jref) (cb : option nat) (job : Job) (e : Err) :
  heap w !! j = Some job ->
  processing job = true ->
  let job' := set_scheduled (scheduled job + retryFailedJobDelay o) job in
  let w1 := final (retry o j cb w) in
  let w2 := exec o worker_throws w1 (EIoDone (length (io w)) (Some e)) in
  tasks w2 = tasks w /\
  count w2 = count w /\
  io w2 = io w /\
  disk w2 = disk w /\
  inflight w2 = inflight w /\
  heap w2 = <[j := job']> (heap w) /\
  processing job' = true /\
  log w2 = log w ++ [Trigger "error" (Some e) None;
                     Trigger "job:error" (Some e) (Some j);
                     Trigger "error" (Some e) None]
                 ++ called_back cb (Some e) None.
Proof.
  intros H Hp job' w1 w2.
  unfold w2, w1, exec, step. rewrite (retry_eq o j cb w job H Hp). wsimpl.
  rewrite lookup_snoc_last, delete_snoc_last.
  unfold complete_io, run_cont. msimpl.
  destruct cb; msimpl; wsimpl; rewrite <- ?app_assoc, ?app_nil_r;
    repeat split; try reflexivity; exact Hp.
Qed.

Lemma X4_witness :
  heap overdue_world !! 0%nat = Some (mkJob "a" "data" "q" "q/a" 1 true 5) /\
  processing (mkJob "a" "data" "q" "q/a" 1 true 5) = true /\
  tasks (exec retrying_options never_throws
           (final (retry retrying_options 0 None overdue_world))
           (EIoDone (length (io overdue_world)) (Some "EIO"))) =
    tasks overdue_world.
Proof.
  split; [vm_compute; reflexivity|]. split; [reflexivity|].
  exact (proj1
    (X4_failed_retry_is_not_rolled_back retrying_options never_throws
       overdue_world 0 None (mkJob "a" "data" "q" "q/a" 1 true 5) "EIO"
       ltac:(vm_compute; reflexivity) eq_refl)).
Defined.

(** ** Deleting a backing file *)

(** X5. When the deletion requested by [_destroy] succeeds the file is
    gone and [job:destroy] is fired.  When it fails, [_destroy] refers to a
    variable that is bound nowhere and throws before it has fired
    [job:error] or [error] or called its callback: no event is fired and
    the file stays where it was. *)
Theorem X5_destroy_outcome
    (o : Options) (worker_throws : Job -> option Err)
    (w : World) (n : nat) (path : string) (j : jref) :
  io w !! n = Some (IOUnlink path, KDestroy j) ->
  (let w2 := exec o worker_throws w (EIoDone n None) in
   disk w2 = delete path (disk w) /\
   disk w2 !! path = None /\
   log w2 = log w ++ [Trigger "job:destroy" None (Some j)] /\
   io w2 = delete n (io w) /\ tasks w2 = tasks w) /\
  (forall e,
   let w2 := exec o worker_throws w (EIoDone n (Some e)) in
   disk w2 = disk w /\
   fired (log w2) = fired (log w) /\
   log w2 = log w ++ [Uncaught "ReferenceError: _this is not defined"] /\
   io w2 = delete n (io w) /\ tasks w2 = tasks w).
Proof.
  intros Hn. split.
  - intros w2. unfold w2, exec, step. rewrite Hn.
    unfold complete_io, run_cont. msimpl.
    repeat split; try reflexivity. apply lookup_delete_eq.
  - intros e w2. unfold w2, exec, step. rewrite Hn.
    unfold complete_io. msimpl. repeat split; try reflexivity.
    unfold fired. rewrite omap_app. cbn. apply app_nil_r.
Qed.

Lemma X5_witness :
  io (set_io [(IOUnlink "q/a", KDestroy 0)] exhausted_world) !! 0%nat =
    Some (IOUnlink "q/a", KDestroy 0%nat) /\
  disk (exec demo_options never_throws
          (set_io [(IOUnlink "q/a", KDestroy 0)] exhausted_world)
          (EIoDone 0 (Some "EPERM"))) = disk exhausted_world.
Proof.
  split; [reflexivity|].
  exact (proj1 (proj2
    (X5_destroy_outcome demo_options never_throws
       (set_io [(IOUnlink "q/a", KDestroy 0)] exhausted_world) 0 "q/a" 0 eq_refl)
    "EPERM")).
Defined.

(** ** What the actions leave alone *)

(** A relation between states holds across every action of the
    controller as soon as it holds across each kind of elementary change
    the actions make: a new entry of the trace that is not an invocation of
    the caller's worker, one of the three updates of a record ([ok] says
    what an update may do), a new record, and any change of the tasks, the
    slots, the requests and the timers. *)
Section Untouched.

Variable o : Options.
Variable R : World -> World -> Prop.
Variable ok : Job -> Job -> Prop.
Hypothesis R_refl : forall w, R w w.
Hypothesis R_trans : forall a b c, R a b -> R b c -> R a c.
Hypothesis R_log :
  forall w x, is_exec x = false -> R w (set_log (log w ++ [x]) w).
Hypothesis ok_processing : forall job b, ok job (set_processing b job).
Hypothesis ok_attempts : forall job, ok job (set_attempts (attempts job + 1) job).
Hypothesis ok_scheduled :
  forall job, ok job (set_scheduled (scheduled job + retryFailedJobDelay o) job).
Hypothesis R_update :
  forall w j job x, heap w !! j = Some job -> ok job x ->
    R w (set_heap (<[j := x]> (heap w)) w).
Hypothesis R_alloc : forall w job, R w (set_heap (heap w ++ [job]) w).
Hypothesis R_tasks : forall w x, R w (set_tasks x w).
Hypothesis R_workers : forall w x, R w (set_workers x w).
Hypothesis R_io : forall w x, R w (set_io x w).
Hypothesis R_timers : forall w x, R w (set_timers x w).
Hypothesis R_paused : forall w x, R w (set_paused x w).
Hypothesis R_clock : forall w x, R w (set_clock x w).
Hypothesis R_inflight : forall w x, R w (set_inflight x w).

Ltac unt_step :=
  first
    [ apply (keeps_ret R R_refl)
    | apply (keeps_throw R R_refl)
    | apply (keeps_seq R R_trans)
    | apply (keeps_with_job R R_refl); intros ?
    | apply keeps_modify; intros ?;
      first [ apply R_log; reflexivity | apply R_alloc | apply R_tasks
            | apply R_workers | apply R_io | apply R_timers
            | apply R_paused | apply R_clock ]
    | match goal with
      | |- keeps _ (match ?x with Some _ => _ | None => _ end) => destruct x
      | |- keeps _ (if ?b then _ else _) => destruct b
      end ].

Lemma unt_trigger n e j : keeps R (trigger n e j).
Proof using R_log. unfold trigger. unt_step. Qed.

Lemma unt_emit x : is_exec x = false -> keeps R (emit x).
Proof using R_log. intros Hx w. unfold emit, modify. cbn [final]. now apply R_log. Qed.

Lemma unt_call_back cb e j : keeps R (call_back cb e j).
Proof using R_log R_refl. unfold call_back, emit. repeat unt_step. Qed.

Lemma unt_update_job j f : (forall job, ok job (f job)) -> keeps R (update_job j f).
Proof using R_update R_refl.
  intros Hf w. unfold update_job, with_job.
  destruct (heap w !! j) as [job|] eqn:Hj; [|apply R_refl].
  unfold modify. cbn [final]. now apply (R_update w j job).
Qed.

Lemma unt_persist j k : keeps R (_persist j k).
Proof using R_io R_refl. unfold _persist, add_io. repeat unt_step. Qed.

Lemma unt_destroy j k : keeps R (_destroy j k).
Proof using R_io R_refl. unfold _destroy, add_io. repeat unt_step. Qed.

Lemma unt_enqueue j : keeps R (_enqueue j).
Proof using R_update ok_processing R_tasks R_refl R_trans.
  unfold _enqueue. apply (keeps_seq R R_trans).
  - apply unt_update_job. intros job. apply ok_processing.
  - repeat unt_step.
Qed.

Lemma unt_retry j cb : keeps R (retry o j cb).
Proof using R_update ok_scheduled R_io R_refl R_trans.
  unfold retry. apply (keeps_with_job R R_refl); intros job.
  destruct (processing job); [|unt_step].
  apply (keeps_seq R R_trans); [|apply unt_persist].
  apply unt_update_job. exact ok_scheduled.
Qed.

Lemma unt_onJobComplete err job : keeps R (_onJobComplete o err job).
Proof using R_update ok_scheduled R_io R_log R_refl R_trans.
  unfold _onJobComplete.
  destruct err as [e|], job as [j|];
    repeat first
      [ apply unt_trigger | apply unt_retry | apply unt_destroy
      | unfold add_io; unt_step ].
Qed.

Lemma unt_worker j : keeps R (_worker o j).
Proof using R_update ok_processing ok_attempts R_io R_timers R_refl R_trans.
  intros w. unfold _worker.
  apply (keeps_seq R R_trans).
  { apply unt_update_job. intros job. apply ok_processing. }
  apply (keeps_with_job R R_refl); intros job.
  destruct (scheduled job <=? clock w)%Z.
  - apply (keeps_seq R R_trans); [|apply unt_persist].
    apply unt_update_job. exact ok_attempts.
  - unfold setTimeout. unt_step.
Qed.

Lemma unt_process : keeps R (process o).
Proof using R_update ok_processing ok_attempts R_io R_timers R_tasks R_workers
            R_refl R_trans.
  intros w. unfold process.
  destruct (negb (paused w) && (workers w <? concurrency o)%nat); [|apply R_refl].
  destruct (tasks w) as [|[p j] r]; [apply R_refl|].
  eapply R_trans; [|apply unt_worker].
  eapply R_trans; [apply R_workers|apply R_tasks].
Qed.

Lemma unt_next err job : keeps R (next o err job).
Proof using R_update ok_processing ok_attempts ok_scheduled R_io R_log R_timers
            R_tasks R_workers R_refl R_trans.
  unfold next. apply (keeps_seq R R_trans); [unt_step|].
  apply (keeps_seq R R_trans); [apply unt_onJobComplete|apply unt_process].
Qed.

Lemma unt_whilst_running cb : keeps R (whilst_running cb).
Proof using R_log R_timers.
  intros w. unfold whilst_running.
  destruct (workers w =? 0)%nat; [now apply unt_emit|].
  unfold setTimeout, modify. cbn [final]. apply R_timers.
Qed.

Lemma unt_push id data sched cb : keeps R (push o id data sched cb).
Proof using R_alloc R_io R_refl R_trans.
  intros w. unfold push.
  apply (keeps_seq R R_trans); [unfold alloc; unt_step|apply unt_persist].
Qed.

(** The closures other than the one that hands a record to the caller's
    worker. *)
Lemma unt_run_cont worker_throws k err :
  (forall j, k = KWorker j -> err <> None) ->
  keeps R (run_cont o worker_throws k err).
Proof using R_update ok_processing ok_attempts ok_scheduled R_io R_log R_timers
            R_tasks R_workers R_refl R_trans.
  intros Hk. destruct k as [j|j cb|j cb| |j|j|cb]; cbn [run_cont].
  - destruct err as [e|]; [apply unt_next|]. now destruct (Hk j eq_refl).
  - destruct err;
      repeat first [apply unt_call_back | apply unt_trigger
                   | apply unt_enqueue | unt_step].
  - destruct err;
      repeat first [apply unt_call_back | apply unt_trigger
                   | apply unt_enqueue | unt_step].
  - destruct err; [apply unt_trigger|unt_step].
  - destruct err; [unt_step|apply unt_trigger].
  - apply (keeps_seq R R_trans); [apply unt_enqueue|apply unt_next].
  - apply unt_whilst_running.
Qed.

(** The calls of the public interface, a turn of the queue, the caller's
    worker calling back and the passing of time. *)
Lemma unt_event worker_throws ev :
  runs_no_closure ev = true -> keeps R (step o worker_throws ev).
Proof using R_update R_alloc ok_processing ok_attempts ok_scheduled R_io R_log
            R_timers R_tasks R_workers R_refl R_trans R_paused R_clock R_inflight.
  intros Hev. destruct ev; cbn [step]; try discriminate Hev.
  - apply unt_push.
  - apply unt_retry.
  - intros w. unfold pause. destruct (negb (paused w)); [|apply R_refl].
    apply (keeps_seq R R_trans); [unt_step|apply unt_trigger].
  - intros w. unfold resume. destruct (paused w); [|apply R_refl].
    apply (keeps_seq R R_trans); [unt_step|apply unt_trigger].
  - unfold shutdown.
    apply (keeps_seq R R_trans); [unt_step|apply unt_whilst_running].
  - apply unt_process.
  - intros w. destruct (member j (inflight w)); [|apply unt_trigger].
    eapply R_trans; [apply R_inflight|apply unt_next].
  - unt_step.
Qed.

End Untouched.

(** ** A second call of the worker's callback *)

Lemma same_inflight_refl w : same_inflight w w.
Proof. reflexivity. Qed.






(** ** When the caller's worker is invoked *)

Section Invocations.

Variable o : Options.
Variable worker_throws : Job -> option Err.

Lemma same_execs_log w x : is_exec x = false -> same_execs w (set_log (log w ++ [x]) w).
Proof. intros Hx. unfold same_execs. wsimpl. now apply execs_snoc. Qed.

Lemma run_cont_other_execs k err :
  (forall j, k = KWorker j -> err <> None) ->
  keeps same_execs (run_cont o worker_throws k err).
Proof.
  apply (unt_run_cont o same_execs any_update);
    try (intros; reflexivity); try (intros; exact I).
  - exact same_execs_trans.
  - exact same_execs_log.
Qed.

Lemma event_other_execs ev :
  runs_no_closure ev = true -> keeps same_execs (step o worker_throws ev).
Proof.
  apply (unt_event o same_execs any_update);
    try (intros; reflexivity); try (intros; exact I).
  - exact same_execs_trans.
  - exact same_execs_log.
Qed.

(** What running a closure adds to the invocations. *)
Lemma run_cont_execs k err w :
  execs (log (final (run_cont o worker_throws k err w))) =
  execs (log w) ++
    match k, err with
    | KWorker j, None =>
        match heap w !! j with
        | Some cur => [Exec j cur]
        | None => []
        end
    | _, _ => []
    end.
Proof.
  assert (Hother : (forall j, k = KWorker j -> err <> None) ->
            execs (log (final (run_cont o worker_throws k err w))) = execs (log w))
    by (intros Hk; apply (run_cont_other_execs k err Hk w)).
  destruct k as [j|j cb|j cb| |j|j|cb];
    try (rewrite Hother by discriminate; destruct err; now rewrite app_nil_r).
  destruct err as [e|];
    [rewrite Hother by (intros ? _; discriminate); now rewrite app_nil_r|].
  cbn [run_cont]. unfold invoke_worker, with_job.
  destruct (heap w !! j) as [cur|]; [|cbn; now rewrite app_nil_r].
  msimpl. destruct (worker_throws cur) as [e|].
  - rewrite (next_execs o (Some e) (Some j) _). wsimpl.
    unfold execs. rewrite List.filter_app. reflexivity.
  - msimpl. unfold execs. rewrite List.filter_app. reflexivity.
Qed.

End Invocations.

(** X9. The caller's worker is invoked by one piece of code only: the
    callback the worker gave to [_persist], when it runs without error.
    Every event leaves the invocations recorded so far in place and adds
    at most that one, with the record as it is at that moment; the public
    operations, a turn of the queue, the caller's own callback and the
    passing of time add none. *)
Theorem X9_worker_invoked_only_after_its_persist
    (o : Options) (worker_throws : Job -> option Err) (w : World) (ev : Event) :
  execs (log (exec o worker_throws w ev)) =
    execs (log w) ++ started_execution ev w.
Proof.
  assert (Hunc : forall out,
            execs (log (match out with
                        | Done w' => w'
                        | Thrown e w' => set_log (log w' ++ [Uncaught e]) w'
                        end)) = execs (log (final out))).
  { intros [w'|e w']; [reflexivity|]. wsimpl. now apply execs_snoc. }
  unfold exec. rewrite Hunc.
  destruct (runs_no_closure ev) eqn:Hev.
  - rewrite (event_other_execs o worker_throws ev Hev w).
    unfold started_execution, closure_run.
    destruct ev; try discriminate Hev; now rewrite app_nil_r.
  - destruct ev as [| | | | | |n res|n| |]; try discriminate Hev;
      unfold started_execution, closure_run; cbn [step].
    + destruct (io w !! n) as [[r k]|]; [|cbn; now rewrite app_nil_r].
      destruct r as [path snap|src dst|path], res as [e|]; cbn [complete_io]; msimpl.
      * rewrite run_cont_execs. wsimpl. rewrite execs_snoc by reflexivity.
        destruct k; reflexivity.
      * rewrite run_cont_execs. wsimpl. rewrite execs_snoc by reflexivity.
        reflexivity.
      * rewrite run_cont_execs. wsimpl. destruct k; reflexivity.
      * rewrite run_cont_execs. destruct (disk w !! src); wsimpl; reflexivity.
      * now rewrite app_nil_r.
      * rewrite run_cont_execs. wsimpl. reflexivity.
    + destruct (timers w !! n) as [[t k]|]; [|cbn; now rewrite app_nil_r].
      destruct (t <=? clock w)%Z; [|cbn; now rewrite app_nil_r].
      rewrite run_cont_execs. wsimpl. reflexivity.
Qed.

(** ** Successful recovery *)

Section Reload.

Variable o : Options.

Lemma first_error_ok {A} (l : list A) (order : list nat) :
  first_error (map inr l) order = None.
Proof.
  induction order as [|i rest IH]; [reflexivity|].
  cbn [first_error]. rewrite list_lookup_fmap.
  destruct (l !! i); exact IH.
Qed.

Lemma collect_ok {A} (l : list A) : collect (map (@inr Err A) l) = inr l.
Proof.
  induction l as [|a l IH]; [reflexivity|]. cbn [map collect]. now rewrite IH.
Qed.

(** When every task succeeds the results come in task order, whatever the
    order of completion. *)
Lemma parallelLimit_ok {A} (l : list A) (order : list nat) :
  parallelLimit (map inr l) order = inr l.
Proof. unfold parallelLimit. now rewrite first_error_ok, collect_ok. Qed.

Lemma length_recovered_tasks (base : nat) (jobs : list Job) :
  length (recovered_tasks base jobs) = length jobs.
Proof.
  revert base. induction jobs as [|job rest IH]; intros base; [reflexivity|].
  cbn [recovered_tasks length]. now rewrite IH.
Qed.

Lemma Permutation_q_insert (p : Z) (j : jref) (ts : list (Z * jref)) :
  q_insert p j ts ≡ₚ (p, j) :: ts.
Proof.
  induction ts as [|[p' j'] r IH]; [reflexivity|].
  cbn [q_insert]. destruct (p' <=? p)%Z; [|reflexivity].
  rewrite IH. apply Permutation_swap.
Qed.

Lemma enqueue_all_eq (jobs : list Job) (w : World) :
  exists w',
    enqueue_all jobs w = Done w' /\
    heap w' = heap w ++ map (set_processing false) jobs /\
    tasks w' ≡ₚ tasks w ++ recovered_tasks (length (heap w)) jobs /\
    log w' = log w /\ paused w' = paused w /\ workers w' = workers w /\
    disk w' = disk w /\ io w' = io w /\ timers w' = timers w /\
    inflight w' = inflight w /\ clock w' = clock w.
Proof.
  revert w. induction jobs as [|job rest IH]; intros w.
  - exists w. split; [reflexivity|]. cbn [map recovered_tasks].
    rewrite !app_nil_r. repeat split; reflexivity.
  - cbn [enqueue_all].
    assert (Hj : (heap w ++ [job]) !! length (heap w) = Some job)
      by apply lookup_snoc_last.
    set (w1 := set_tasks (q_insert (scheduled job) (length (heap w)) (tasks w))
                 (set_heap (<[length (heap w) := set_processing false job]>
                              (heap w ++ [job])) w)).
    assert (H1 : (fun w0 => (alloc job >> _enqueue (length (heap w0))) w0) w = Done w1).
    { cbn beta. unfold alloc. msimpl.
      erewrite _enqueue_eq by (wsimpl; exact Hj). reflexivity. }
    rewrite (seq_done _ _ w w1 H1).
    assert (Hh1 : heap w1 = heap w ++ [set_processing false job]).
    { unfold w1. wsimpl.
      replace (length (heap w)) with (length (heap w) + 0)%nat at 1 by lia.
      rewrite insert_app_r. reflexivity. }
    destruct (IH w1) as (w' & Hw' & Hh & Ht & Hrest).
    exists w'. split; [exact Hw'|]. split; [|split].
    + rewrite Hh, Hh1, <- app_assoc. reflexivity.
    + rewrite Ht, Hh1. unfold w1. wsimpl.
      rewrite Permutation_q_insert, length_app. cbn [length recovered_tasks app].
      replace (length (heap w) + 1)%nat with (S (length (heap w))) by lia.
      now rewrite Permutation_middle.
    + exact Hrest.
Qed.

End Reload.

(** X7. When the directory can be listed and every entry that is not
    hidden loads, and nothing else is called before recovery has
    completed, recovery creates one record object per entry, in directory
    order and with [processing] cleared, and one pending task for each of
    them under the record's due time, whatever the order in which the
    loads finished; [ready] is fired and [error] is not, the caller's
    worker is not invoked, nothing is written, and the queue is started
    exactly when [autoStart] is set.  When the directory cannot be listed,
    [error] is fired, [ready] is not, and the queue stays empty and
    paused. *)
Theorem X7_recovery_enqueues_every_record
    (o : Options) (fromDisk : string -> Err + Job)
    (files : list string) (jobs : list Job) (order : list nat)
    (now : Z) (d : gmap string Job) :
  map (fun f => fromDisk (path_join (opt_directory o) f)) (filterDotFiles files)
    = map inr jobs ->
  (let w := final (_init o fromDisk (inr files) order (new_world now d)) in
   heap w = map (set_processing false) jobs /\
   tasks w ≡ₚ recovered_tasks 0 jobs /\
   count w = length jobs /\
   In (Trigger "ready" None None) (log w) /\
   ~ In "error" (fired (log w)) /\
   execs (log w) = [] /\
   paused w = negb (autoStart o) /\
   workers w = 0%nat /\ io w = [] /\ timers w = [] /\ disk w = d) /\
  (forall e,
   let w := final (_init o fromDisk (inl e) order (new_world now d)) in
   In (Trigger "error" (Some e) None) (log w) /\
   ~ In "ready" (fired (log w)) /\
   heap w = [] /\ tasks w = [] /\ paused w = true).
Proof.
  intros Hload. split.
  - assert (Hlog : log (final (_init o fromDisk (inr files) order (new_world now d)))
                   = [Trigger "ready" None None] /\
                   heap (final (_init o fromDisk (inr files) order (new_world now d)))
                   = map (set_processing false) jobs /\
                   tasks (final (_init o fromDisk (inr files) order (new_world now d)))
                   ≡ₚ recovered_tasks 0 jobs /\
                   count (final (_init o fromDisk (inr files) order (new_world now d)))
                   = length jobs /\
                   paused (final (_init o fromDisk (inr files) order (new_world now d)))
                   = negb (autoStart o) /\
                   workers (final (_init o fromDisk (inr files) order (new_world now d)))
                   = 0%nat /\
                   io (final (_init o fromDisk (inr files) order (new_world now d))) = [] /\
                   timers (final (_init o fromDisk (inr files) order (new_world now d)))
                   = [] /\
                   disk (final (_init o fromDisk (inr files) order (new_world now d))) = d).
    { unfold _init, _reload. rewrite Hload, parallelLimit_ok. msimpl.
      set (w0 := set_paused true (set_tasks [] (new_world now d))).
      destruct (enqueue_all_eq jobs w0)
        as (w' & Hw' & Hh & Ht & Hl & Hp & Hwk & Hd & Hio & Htm & Hf & Hc).
      rewrite (seq_done _ _ w0 w' Hw').
      assert (Hcount : length (tasks w') = length jobs).
      { rewrite Ht. unfold w0. wsimpl. cbn [app]. apply length_recovered_tasks. }
      destruct (autoStart o); msimpl; wsimpl; unfold count; wsimpl;
        rewrite Hcount, Hh, Hl, Hwk, Hio, Htm, Hd, ?Hp;
        (split; [reflexivity|]); (split; [reflexivity|]); (split; [exact Ht|]);
        repeat split; reflexivity. }
    destruct Hlog as (Hl & Hh & Ht & Hc & Hp & Hwk & Hio & Htm & Hd).
    cbv zeta. rewrite Hl.
    split; [exact Hh|]. split; [exact Ht|]. split; [exact Hc|].
    split; [now left|]. split; [cbn; intros [H|[]]; discriminate H|].
    split; [reflexivity|]. repeat split; assumption.
  - intros e. cbn. split; [now left|]. split; [intros [H|[]]; discriminate H|].
    repeat split; reflexivity.
Qed.

Lemma X7_witness :
  map (fun f => demo_fromDisk (path_join (opt_directory demo_options) f))
      (filterDotFiles [".success-x"; "good"])
    = map inr [mkJob "good" "data" "q" "q/good" 0 false 5] /\
  count (final (_init demo_options demo_fromDisk (inr [".success-x"; "good"])
                  [0%nat] (new_world 0 ∅))) = 1%nat.
Proof.
  split; [reflexivity|].
  exact (proj1 (proj2 (proj2 (proj1
    (X7_recovery_enqueues_every_record demo_options demo_fromDisk
       [".success-x"; "good"] [mkJob "good" "data" "q" "q/good" 0 false 5]
       [0%nat] 0%Z ∅ eq_refl))))).
Defined.

(** ** The options of a new controller *)

(** X8. For boolean option values: a new controller moves finished jobs
    exactly when the caller did not ask for their destruction and did not
    switch moving off, separately for successful and for failed jobs; so
    moving and destroying are never both on.  Every other option, the
    directory aside, is the caller's value when given and the default
    otherwise, and a controller built without options has the defaults.
    (The directory is made absolute on line 46; see [KewKew_options].) *)
Theorem X8_constructor_options (uid : string) (u : UserOptions) :
  let o := KewKew_options uid (Some u) in
  (moveSuccessfulJobs o = true <->
     u_destroySuccessfulJobs u <> Some true /\ u_moveSuccessfulJobs u <> Some false) /\
  (moveFailedJobs o = true <->
     u_destroyFailedJobs u <> Some true /\ u_moveFailedJobs u <> Some false) /\
  ~ (moveSuccessfulJobs o = true /\ destroySuccessfulJobs o = true) /\
  ~ (moveFailedJobs o = true /\ destroyFailedJobs o = true) /\
  (destroySuccessfulJobs o = default false (u_destroySuccessfulJobs u) /\
   destroyFailedJobs o = default false (u_destroyFailedJobs u) /\
   retryFailedJobs o = default false (u_retryFailedJobs u) /\
   retryFailedJobDelay o = default 15000%Z (u_retryFailedJobDelay u) /\
   maxJobFailures o = default 3%Z (u_maxJobFailures u) /\
   delayEarlyJob o = default 1000%Z (u_delayEarlyJob u) /\
   concurrency o = default 4%nat (u_concurrency u) /\
   reloadConcurrency o = default 16%nat (u_reloadConcurrency u) /\
   autoStart o = default true (u_autoStart u) /\
   prettifyJSON o = default false (u_prettifyJSON u)) /\
  (let n := KewKew_options uid None in
   autoStart n = true /\ concurrency n = 4%nat /\ reloadConcurrency n = 16%nat /\
   delayEarlyJob n = 1000%Z /\ retryFailedJobs n = false /\
   retryFailedJobDelay n = 15000%Z /\ destroySuccessfulJobs n = false /\
   destroyFailedJobs n = false /\ moveSuccessfulJobs n = true /\
   moveFailedJobs n = true /\ maxJobFailures n = 3%Z /\ prettifyJSON n = false).
Proof.
  intros o. unfold o, KewKew_options, disable_moves, applyOptions.
  destruct u as [dir au co rc de rf rd ds df ms mf mx pj].
  cbn [u_directory u_autoStart u_concurrency u_reloadConcurrency u_delayEarlyJob
       u_retryFailedJobs u_retryFailedJobDelay u_destroySuccessfulJobs
       u_destroyFailedJobs u_moveSuccessfulJobs u_moveFailedJobs u_maxJobFailures
       u_prettifyJSON].
  destruct ds as [[|]|], df as [[|]|], ms as [[|]|], mf as [[|]|]; cbn;
    repeat split; try reflexivity; try congruence; try tauto;
    try (intros [? ?]; congruence); try (intros [? ?]; discriminate).
Qed.

(** ** The life of a record *)

Lemma grows_refl a : grows a a.
Proof. unfold grows. repeat split; try reflexivity; lia. Qed.

Lemma grows_trans a b c : grows a b -> grows b c -> grows a c.
Proof. unfold grows. intros (?&?&?&?&?&?) (?&?&?&?&?&?). repeat split; try congruence; lia. Qed.

Lemma records_kept_refl w : records_kept w w.
Proof. intros j job H. exists job. split; [exact H|apply grows_refl]. Qed.

Lemma records_kept_trans a b c :
  records_kept a b -> records_kept b c -> records_kept a c.
Proof.
  intros Hab Hbc j job H. destruct (Hab j job H) as (job1 & H1 & G1).
  destruct (Hbc j job1 H1) as (job2 & H2 & G2). exists job2.
  split; [exact H2|]. eapply grows_trans; eauto.
Qed.

Lemma records_kept_same_heap w w' : heap w' = heap w -> records_kept w w'.
Proof. intros Hh j job H. exists job. rewrite Hh. split; [exact H|apply grows_refl]. Qed.

Lemma records_kept_update w j job x :
  heap w !! j = Some job -> grows job x ->
  records_kept w (set_heap (<[j := x]> (heap w)) w).
Proof.
  intros Hj Hg i y Hi. wsimpl. destruct (Nat.eq_dec i j) as [->|Hne].
  - exists x. split; [now apply (lookup_insert_same _ _ job)|].
    rewrite Hj in Hi. injection Hi as <-. exact Hg.
  - exists y. rewrite list_lookup_insert_ne by congruence.
    split; [exact Hi|apply grows_refl].
Qed.

Lemma records_kept_alloc w job : records_kept w (set_heap (heap w ++ [job]) w).
Proof.
  intros j y Hj. exists y. wsimpl.
  split; [now apply lookup_app_l_Some|apply grows_refl].
Qed.

Section Records.

Variable o : Options.
Variable worker_throws : Job -> option Err.
Hypothesis delay_nonneg : (0 <= retryFailedJobDelay o)%Z.

Ltac kept_side :=
  first
    [ exact records_kept_refl
    | exact records_kept_trans
    | exact records_kept_update
    | exact records_kept_alloc
    | intros; apply records_kept_same_heap; reflexivity
    | intros; unfold grows; cbn; repeat split; try reflexivity; lia ].

Lemma next_kept err job : keeps records_kept (next o err job).
Proof using delay_nonneg. apply (unt_next o records_kept grows); kept_side. Qed.

Lemma run_cont_kept k err : keeps records_kept (run_cont o worker_throws k err).
Proof using delay_nonneg.
  destruct k as [j| | | | | |], err as [e|];
    try (apply (unt_run_cont o records_kept grows);
         first [kept_side | intros; discriminate]).
  cbn [run_cont]. unfold invoke_worker.
  apply keeps_with_job; [exact records_kept_refl|intros cur].
  apply keeps_seq; [exact records_kept_trans| |].
  - intros w. now apply records_kept_same_heap.
  - destruct (worker_throws cur); [apply next_kept|].
    intros w. now apply records_kept_same_heap.
Qed.

Lemma complete_io_kept r k res :
  keeps records_kept (complete_io o worker_throws r k res).
Proof using delay_nonneg.
  assert (Hm : forall f, (forall w, heap (f w) = heap w) ->
                         keeps records_kept (modify f))
    by (intros f Hf w; apply records_kept_same_heap, Hf).
  destruct r as [path snap|src dst|path], res as [e|]; cbn [complete_io];
    repeat first
      [ apply run_cont_kept
      | apply keeps_throw; exact records_kept_refl
      | apply keeps_seq; [exact records_kept_trans| |]
      | apply Hm; intros w; reflexivity ].
  apply Hm. intros w. now destruct (disk w !! src).
Qed.

Lemma step_kept ev : keeps records_kept (step o worker_throws ev).
Proof using delay_nonneg.
  destruct (runs_no_closure ev) eqn:Hev.
  - apply (unt_event o records_kept grows); first [kept_side | exact Hev].
  - destruct ev as [| | | | | |n res|n| |]; try discriminate Hev;
      cbn [step]; intros w.
    + destruct (io w !! n) as [[r k]|]; [|apply records_kept_refl].
      eapply records_kept_trans; [|apply complete_io_kept].
      now apply records_kept_same_heap.
    + destruct (timers w !! n) as [[t k]|]; [|apply records_kept_refl].
      destruct (t <=? clock w)%Z; [|apply records_kept_refl].
      eapply records_kept_trans; [|apply run_cont_kept].
      now apply records_kept_same_heap.
Qed.

Lemma run_kept evs w : records_kept w (run o worker_throws evs w).
Proof using delay_nonneg.
  revert w. induction evs as [|ev evs IH]; intros w; [apply records_kept_refl|].
  cbn [run fold_left]. eapply records_kept_trans; [|apply IH].
  pose proof (step_kept ev w) as H. unfold exec.
  destruct (step o worker_throws ev w) as [w'|e w']; cbn in H; [exact H|].
  eapply records_kept_trans; [exact H|]. now apply records_kept_same_heap.
Qed.

End Records.

(** X11. With a retry delay that is not negative, whatever happens to a
    controller (calls of the public interface, manual retry included,
    completions, failures, timers), a record object is never dropped or
    replaced: it keeps its id, payload, directory and file, and neither
    its attempts counter nor its due time ever goes down. *)
Theorem X11_records_only_grow
    (o : Options) (worker_throws : Job -> option Err)
    (evs : list Event) (w : World) (j : jref) (job : Job) :
  (0 <= retryFailedJobDelay o)%Z ->
  heap w !! j = Some job ->
  exists job',
    heap (run o worker_throws evs w) !! j = Some job' /\
    job_id job' = job_id job /\ payload job' = payload job /\
    directory job' = directory job /\ file job' = file job /\
    (attempts job <= attempts job')%Z /\
    (scheduled job <= scheduled job')%Z.
Proof.
  intros Hd Hj. exact (run_kept o worker_throws Hd evs w j job Hj).
Qed.

Lemma X11_witness :
  (0 <= retryFailedJobDelay retrying_options)%Z /\
  heap demo_world !! 0%nat = Some demo_job /\
  exists job',
    heap (run retrying_options never_throws
            [EDispatch; EIoDone 0 None; EWorkerDone 0 (Some "boom")] demo_world)
      !! 0%nat = Some job' /\
    job_id job' = job_id demo_job.
Proof.
  split; [cbn; lia|]. split; [reflexivity|].
  destruct
    (X11_records_only_grow retrying_options never_throws
       [EDispatch; EIoDone 0 None; EWorkerDone 0 (Some "boom")] demo_world 0 demo_job
       ltac:(cbn; lia) eq_refl) as (job' & H1 & H2 & _).
  exists job'. split; [exact H1|exact H2].
Defined.

(** ** No execution before the due time *)

Lemma In_refs_of {X : Type} (l : list (X * Cont)) (x : X) (k : Cont) (j : jref) :
  In (x, k) l -> In j (cont_refs k) -> In j (refs_of l).
Proof.
  intros Hin Hj. unfold refs_of. apply in_flat_map. exists (x, k). now split.
Qed.

(** A record in the hands of the running code is referred to by no
    outstanding request and by no timer. *)
Lemma inv_free (j : jref) (h : list jref) (w : World) :
  inv (j :: h) w ->
  (forall r k, In (r, k) (io w) -> ~ In j (cont_refs k)) /\
  (forall t k, In (t, k) (timers w) -> ~ In j (cont_refs k)).
Proof.
  intros (Hc & _ & _). specialize (Hc j). unfold owners in Hc.
  rewrite !count_occ_app in Hc. cbn [count_occ] in Hc.
  destruct (Nat.eq_dec j j) as [_|]; [|congruence].
  split; intros x k Hin Hj;
    pose proof (In_refs_of _ x k j Hin Hj) as H;
    apply (count_occ_In Nat.eq_dec) in H; lia.
Qed.

Lemma In_delete {A} (l : list A) (n : nat) (x : A) : In x (delete n l) -> In x l.
Proof.
  revert n. induction l as [|a l IH]; intros n; [destruct n; trivial|].
  destruct n as [|n].
  - intros H. now right.
  - change (delete (S n) (a :: l)) with (a :: delete n l).
    intros [->|H]; [now left|right; eauto].
Qed.

Lemma due_ok_frame j w w' :
  heap w' = heap w -> (clock w <= clock w')%Z -> due_ok j w -> due_ok j w'.
Proof.
  intros Hh Hc (job & Hj & Hd). exists job. rewrite Hh. split; [exact Hj|lia].
Qed.

Lemma dueinv_frame w w' :
  io w' = io w -> timers w' = timers w -> heap w' = heap w ->
  (clock w <= clock w')%Z -> log w' = log w ->
  dueinv w -> dueinv w'.
Proof.
  intros Hi Ht Hh Hc Hl (D1 & D2 & D3). unfold dueinv.
  rewrite Hi, Ht, Hl. split; [|split].
  - intros r j Hin. eapply due_ok_frame; eauto.
  - intros t j Hin. eapply due_ok_frame; eauto.
  - intros j snap Hin. specialize (D3 j snap Hin). lia.
Qed.

Lemma dueinv_log w x :
  is_exec x = false -> dueinv w -> dueinv (set_log (log w ++ [x]) w).
Proof.
  intros Hx (D1 & D2 & D3). split; [exact D1|split; [exact D2|]].
  intros j snap Hin. wsimpl. apply in_app_or in Hin as [Hin|[Heq|[]]].
  - exact (D3 j snap Hin).
  - subst x. discriminate Hx.
Qed.

Lemma dueinv_exec w j cur :
  heap w !! j = Some cur -> (scheduled cur <= clock w)%Z ->
  dueinv w -> dueinv (set_log (log w ++ [Exec j cur]) w).
Proof.
  intros Hj Hd (D1 & D2 & D3). split; [exact D1|split; [exact D2|]].
  intros i snap Hin. wsimpl. apply in_app_or in Hin as [Hin|[Heq|[]]].
  - exact (D3 i snap Hin).
  - injection Heq as <- <-. exact Hd.
Qed.

Lemma due_ok_update j i w job x :
  heap w !! j = Some job ->
  (i = j -> (scheduled x <= clock w)%Z) ->
  due_ok i w -> due_ok i (set_heap (<[j := x]> (heap w)) w).
Proof.
  intros Hj Hx (y & Hi & Hd). destruct (Nat.eq_dec i j) as [->|Hne].
  - exists x. wsimpl. split; [now apply (lookup_insert_same _ _ job)|auto].
  - exists y. wsimpl. rewrite list_lookup_insert_ne by congruence. auto.
Qed.

(** An update that leaves the due time alone. *)
Lemma dueinv_update_same w j job x :
  heap w !! j = Some job -> scheduled x = scheduled job ->
  dueinv w -> dueinv (set_heap (<[j := x]> (heap w)) w).
Proof.
  intros Hj Hs (D1 & D2 & D3). split; [|split; [|exact D3]].
  - intros r i Hin. specialize (D1 r i Hin).
    apply (due_ok_update j i w job x Hj); [|exact D1].
    intros ->. destruct D1 as (y & Hy & Hd). rewrite Hj in Hy.
    injection Hy as <-. lia.
  - intros t i Hin. specialize (D2 t i Hin).
    apply (due_ok_update j i w job x Hj); [|exact D2].
    intros ->. destruct D2 as (y & Hy & Hd). rewrite Hj in Hy.
    injection Hy as <-. lia.
Qed.

(** Any update of a record that the running code holds. *)
Lemma dueinv_update_held w j h job x :
  inv (j :: h) w -> heap w !! j = Some job ->
  dueinv w -> dueinv (set_heap (<[j := x]> (heap w)) w).
Proof.
  intros Hinv Hj (D1 & D2 & D3). destruct (inv_free j h w Hinv) as [F1 F2].
  split; [|split; [|exact D3]].
  - intros r i Hin. specialize (D1 r i Hin).
    apply (due_ok_update j i w job x Hj); [|exact D1].
    intros ->. destruct (F1 r (KWorker j) Hin). now left.
  - intros t i Hin. specialize (D2 t i Hin).
    apply (due_ok_update j i w job x Hj); [|exact D2].
    intros ->. destruct (F2 t (KWorker j) Hin). now left.
Qed.

Lemma dueinv_add_io w r k :
  (forall j, k = KWorker j -> due_ok j w) ->
  dueinv w -> dueinv (set_io (io w ++ [(r, k)]) w).
Proof.
  intros Hk (D1 & D2 & D3). split; [|split; [exact D2|exact D3]].
  intros r' j Hin. wsimpl. apply in_app_or in Hin as [Hin|[Heq|[]]].
  - exact (D1 r' j Hin).
  - injection Heq as -> ->. now apply Hk.
Qed.

Lemma dueinv_add_timer w t k :
  (forall j, k = KWorker j -> due_ok j w) ->
  dueinv w -> dueinv (set_timers (timers w ++ [(t, k)]) w).
Proof.
  intros Hk (D1 & D2 & D3). split; [exact D1|split; [|exact D3]].
  intros t' j Hin. wsimpl. apply in_app_or in Hin as [Hin|[Heq|[]]].
  - exact (D2 t' j Hin).
  - injection Heq as -> ->. now apply Hk.
Qed.

Lemma dueinv_take_io w n r k :
  io w !! n = Some (r, k) -> dueinv w ->
  dueinv (set_io (delete n (io w)) w) /\
  (forall j, k = KWorker j -> due_ok j (set_io (delete n (io w)) w)).
Proof.
  intros Hn (D1 & D2 & D3). split; [split; [|split; [exact D2|exact D3]]|].
  - intros r' j Hin. wsimpl. apply In_delete in Hin. exact (D1 r' j Hin).
  - intros j ->. apply (D1 r j). apply list_elem_of_In.
    eapply list_elem_of_lookup_2; eauto.
Qed.

Lemma dueinv_take_timer w n t k :
  timers w !! n = Some (t, k) -> dueinv w ->
  dueinv (set_timers (delete n (timers w)) w) /\
  (forall j, k = KWorker j -> due_ok j (set_timers (delete n (timers w)) w)).
Proof.
  intros Hn (D1 & D2 & D3). split; [split; [exact D1|split; [|exact D3]]|].
  - intros t' j Hin. wsimpl. apply In_delete in Hin. exact (D2 t' j Hin).
  - intros j ->. apply (D2 t j). apply list_elem_of_In.
    eapply list_elem_of_lookup_2; eauto.
Qed.

Lemma dueinv_alloc w job : dueinv w -> dueinv (set_heap (heap w ++ [job]) w).
Proof.
  intros (D1 & D2 & D3).
  assert (H : forall j, due_ok j w -> due_ok j (set_heap (heap w ++ [job]) w)).
  { intros j (y & Hy & Hd). exists y. wsimpl. split; [now apply lookup_app_l_Some|exact Hd]. }
  split; [|split; [|exact D3]]; intros x j Hin; apply H; eauto.
Qed.

(** The fourth kind of holder: the caller's worker. *)
Lemma inv_free_inflight (j : jref) (h : list jref) (w : World) :
  inv (j :: h) w -> ~ In j (inflight w).
Proof.
  intros (Hc & _ & _) Hin. specialize (Hc j). unfold owners in Hc.
  rewrite !count_occ_app in Hc. cbn [count_occ] in Hc.
  destruct (Nat.eq_dec j j) as [_|]; [|congruence].
  apply (count_occ_In Nat.eq_dec) in Hin. lia.
Qed.

Lemma In_remove_first (j x : jref) (l : list jref) :
  In x (remove_first j l) -> In x l.
Proof.
  induction l as [|a l IH]; [trivial|]. cbn [remove_first].
  destruct (decide (a = j)); [now right|].
  intros [->|H]; [now left|right; auto].
Qed.

Lemma flag_ok_frame j w w' : heap w' = heap w -> flag_ok j w -> flag_ok j w'.
Proof. intros Hh (job & Hj & Hp). exists job. rewrite Hh. now split. Qed.

Lemma flaginv_frame w w' :
  io w' = io w -> timers w' = timers w -> inflight w' = inflight w ->
  heap w' = heap w -> log w' = log w ->
  flaginv w -> flaginv w'.
Proof.
  intros Hi Ht Hf Hh Hl (F1 & F2 & F3 & F4). unfold flaginv.
  rewrite Hi, Ht, Hf, Hl. split; [|split; [|split; [|exact F4]]].
  - intros r j Hin. eapply flag_ok_frame; eauto.
  - intros t j Hin. eapply flag_ok_frame; eauto.
  - intros j Hin. eapply flag_ok_frame; eauto.
Qed.

Lemma flaginv_log w x :
  (forall e, x = Uncaught e -> e = reference_error) ->
  flaginv w -> flaginv (set_log (log w ++ [x]) w).
Proof.
  intros Hx (F1 & F2 & F3 & F4).
  split; [exact F1|split; [exact F2|split; [exact F3|]]].
  intros e Hin. wsimpl. apply in_app_or in Hin as [Hin|[Heq|[]]].
  - exact (F4 e Hin).
  - now apply Hx.
Qed.

Lemma flag_ok_update j i w job x :
  heap w !! j = Some job ->
  (i = j -> processing x = true) ->
  flag_ok i w -> flag_ok i (set_heap (<[j := x]> (heap w)) w).
Proof.
  intros Hj Hx (y & Hi & Hp). destruct (Nat.eq_dec i j) as [->|Hne].
  - exists x. wsimpl. split; [now apply (lookup_insert_same _ _ job)|auto].
  - exists y. wsimpl. rewrite list_lookup_insert_ne by congruence. auto.
Qed.

(** Any update of a record that the running code holds. *)
Lemma flaginv_update_held w j h job x :
  inv (j :: h) w -> heap w !! j = Some job ->
  flaginv w -> flaginv (set_heap (<[j := x]> (heap w)) w).
Proof.
  intros Hinv Hj (F1 & F2 & F3 & F4). destruct (inv_free j h w Hinv) as [N1 N2].
  pose proof (inv_free_inflight j h w Hinv) as N3.
  split; [|split; [|split; [|exact F4]]].
  - intros r i Hin. specialize (F1 r i Hin).
    apply (flag_ok_update j i w job x Hj); [|exact F1].
    intros ->. destruct (N1 r (KWorker j) Hin). now left.
  - intros t i Hin. specialize (F2 t i Hin).
    apply (flag_ok_update j i w job x Hj); [|exact F2].
    intros ->. destruct (N2 t (KWorker j) Hin). now left.
  - intros i Hin. specialize (F3 i Hin).
    apply (flag_ok_update j i w job x Hj); [|exact F3].
    intros ->. destruct (N3 Hin).
Qed.

Lemma flaginv_add_io w r k :
  (forall j, k = KWorker j -> flag_ok j w) ->
  flaginv w -> flaginv (set_io (io w ++ [(r, k)]) w).
Proof.
  intros Hk (F1 & F2 & F3 & F4). split; [|split; [exact F2|split; [exact F3|exact F4]]].
  intros r' j Hin. wsimpl. apply in_app_or in Hin as [Hin|[Heq|[]]].
  - exact (F1 r' j Hin).
  - injection Heq as -> ->. now apply Hk.
Qed.

Lemma flaginv_add_timer w t k :
  (forall j, k = KWorker j -> flag_ok j w) ->
  flaginv w -> flaginv (set_timers (timers w ++ [(t, k)]) w).
Proof.
  intros Hk (F1 & F2 & F3 & F4). split; [exact F1|split; [|split; [exact F3|exact F4]]].
  intros t' j Hin. wsimpl. apply in_app_or in Hin as [Hin|[Heq|[]]].
  - exact (F2 t' j Hin).
  - injection Heq as -> ->. now apply Hk.
Qed.

Lemma flaginv_add_inflight w j :
  flag_ok j w -> flaginv w -> flaginv (set_inflight (inflight w ++ [j]) w).
Proof.
  intros Hj (F1 & F2 & F3 & F4). split; [exact F1|split; [exact F2|split; [|exact F4]]].
  intros i Hin. wsimpl. apply in_app_or in Hin as [Hin|[<-|[]]].
  - exact (F3 i Hin).
  - exact Hj.
Qed.

Lemma flaginv_take_io w n r k :
  io w !! n = Some (r, k) -> flaginv w ->
  flaginv (set_io (delete n (io w)) w) /\
  (forall j, k = KWorker j -> flag_ok j (set_io (delete n (io w)) w)).
Proof.
  intros Hn (F1 & F2 & F3 & F4).
  split; [split; [|split; [exact F2|split; [exact F3|exact F4]]]|].
  - intros r' j Hin. wsimpl. apply In_delete in Hin. exact (F1 r' j Hin).
  - intros j ->. apply (F1 r j). apply list_elem_of_In.
    eapply list_elem_of_lookup_2; eauto.
Qed.

Lemma flaginv_take_timer w n t k :
  timers w !! n = Some (t, k) -> flaginv w ->
  flaginv (set_timers (delete n (timers w)) w) /\
  (forall j, k = KWorker j -> flag_ok j (set_timers (delete n (timers w)) w)).
Proof.
  intros Hn (F1 & F2 & F3 & F4).
  split; [split; [exact F1|split; [|split; [exact F3|exact F4]]]|].
  - intros t' j Hin. wsimpl. apply In_delete in Hin. exact (F2 t' j Hin).
  - intros j ->. apply (F2 t j). apply list_elem_of_In.
    eapply list_elem_of_lookup_2; eauto.
Qed.

Lemma flaginv_take_inflight w j :
  In j (inflight w) -> flaginv w ->
  flaginv (set_inflight (remove_first j (inflight w)) w) /\
  flag_ok j (set_inflight (remove_first j (inflight w)) w).
Proof.
  intros Hin (F1 & F2 & F3 & F4).
  split; [split; [exact F1|split; [exact F2|split; [|exact F4]]]|].
  - intros i Hi. wsimpl. apply In_remove_first in Hi. exact (F3 i Hi).
  - exact (F3 j Hin).
Qed.

Lemma flaginv_alloc w job : flaginv w -> flaginv (set_heap (heap w ++ [job]) w).
Proof.
  intros (F1 & F2 & F3 & F4).
  assert (H : forall j, flag_ok j w -> flag_ok j (set_heap (heap w ++ [job]) w)).
  { intros j (y & Hy & Hp). exists y. wsimpl. split; [now apply lookup_app_l_Some|exact Hp]. }
  split; [|split; [|split; [|exact F4]]].
  - intros x j Hin. apply H; eauto.
  - intros x j Hin. apply H; eauto.
  - intros j Hin. apply H; eauto.
Qed.

(** ** The three invariants together *)

Lemma good_done (P : World -> Prop) (w : World) : P w -> good P (Done w).
Proof. intros H. split; [exact H|exact I]. Qed.

Lemma good_seq (Q P : World -> Prop) (a b : M) (w : World) :
  good Q (a w) ->
  (forall w1, Q w1 -> good P (b w1)) ->
  (forall w1, Q w1 -> P w1) ->
  good P ((a >> b) w).
Proof.
  intros [H1 H2] Hb HQP. unfold seq.
  destruct (a w) as [w1|e w1]; cbn [final harmless] in *; [auto|].
  split; [cbn [final]; auto|exact H2].
Qed.

Lemma sound_weaken j h w : sound (j :: h) w -> sound h w.
Proof. intros (Hi & Hd & Hf). split; [exact (inv_weaken j h w Hi)|now split]. Qed.

Lemma sound_weaken_app h' h w : sound (h' ++ h) w -> sound h w.
Proof. intros (Hi & Hd & Hf). split; [exact (inv_weaken_app h' h w Hi)|now split]. Qed.

Lemma sound_lookup j h w : sound (j :: h) w -> exists job, heap w !! j = Some job.
Proof. intros (Hi & _). exact (inv_lookup j h w Hi). Qed.

Lemma sound_entry x h w :
  is_exec x = false ->
  (forall e, x = Uncaught e -> e = reference_error) ->
  sound h w -> sound h (set_log (log w ++ [x]) w).
Proof.
  intros Hx Hu (Hi & Hd & Hf).
  split; [now apply inv_log|split; [now apply dueinv_log|now apply flaginv_log]].
Qed.

Lemma sound_log x h w :
  plain x = true -> sound h w -> sound h (set_log (log w ++ [x]) w).
Proof.
  intros Hx. destruct x; try discriminate Hx;
    (apply sound_entry; [reflexivity|intros ? [=]]).
Qed.

Lemma sound_log2 x y h w :
  plain x = true -> plain y = true ->
  sound h w -> sound h (set_log (log w ++ [x; y]) w).
Proof.
  intros Hx Hy H.
  pose proof (sound_log y h _ Hy (sound_log x h w Hx H)) as H2.
  wsimpl. rewrite <- app_assoc in H2. exact H2.
Qed.

Lemma sound_exec j cur h w :
  heap w !! j = Some cur -> (scheduled cur <= clock w)%Z ->
  sound h w -> sound h (set_log (log w ++ [Exec j cur]) w).
Proof.
  intros Hj Hdue (Hi & Hd & Hf).
  split; [now apply inv_log|split; [now apply dueinv_exec|]].
  apply flaginv_log; [intros ? [=]|exact Hf].
Qed.

Lemma sound_same h w w' :
  tasks w' = tasks w -> io w' = io w -> timers w' = timers w ->
  inflight w' = inflight w -> heap w' = heap w ->
  (clock w <= clock w')%Z -> log w' = log w ->
  sound h w -> sound h w'.
Proof.
  intros Ht Hi Htm Hf Hh Hc Hl (H1 & H2 & H3). split; [|split].
  - revert H1. now apply inv_same.
  - revert H2. now apply dueinv_frame.
  - revert H3. now apply flaginv_frame.
Qed.

Lemma sound_update_held j h w job x :
  heap w !! j = Some job ->
  sound (j :: h) w -> sound (j :: h) (set_heap (<[j := x]> (heap w)) w).
Proof.
  intros Hj (Hi & Hd & Hf). split; [|split].
  - now apply inv_update_held.
  - now apply (dueinv_update_held w j h job).
  - now apply (flaginv_update_held w j h job).
Qed.

Lemma sound_enqueue j h w job p :
  heap w !! j = Some job ->
  sound (j :: h) w ->
  sound h (set_tasks (q_insert p j (tasks w))
             (set_heap (<[j := set_processing false job]> (heap w)) w)).
Proof.
  intros Hj (Hi & Hd & Hf). split; [|split].
  - now apply inv_enqueue.
  - apply (dueinv_frame (set_heap (<[j := set_processing false job]> (heap w)) w));
      try reflexivity.
    now apply (dueinv_update_held w j h job).
  - apply (flaginv_frame (set_heap (<[j := set_processing false job]> (heap w)) w));
      try reflexivity.
    now apply (flaginv_update_held w j h job).
Qed.

Lemma sound_add_io r k h w :
  (forall j, k = KWorker j -> due_ok j w /\ flag_ok j w) ->
  sound (cont_refs k ++ h) w -> sound h (set_io (io w ++ [(r, k)]) w).
Proof.
  intros Hk (Hi & Hd & Hf). split; [|split].
  - now apply inv_add_io.
  - apply dueinv_add_io; [|exact Hd]. intros j Hj. exact (proj1 (Hk j Hj)).
  - apply flaginv_add_io; [|exact Hf]. intros j Hj. exact (proj2 (Hk j Hj)).
Qed.

Lemma sound_add_timer t k h w :
  (forall j, k = KWorker j -> due_ok j w /\ flag_ok j w) ->
  sound (cont_refs k ++ h) w -> sound h (set_timers (timers w ++ [(t, k)]) w).
Proof.
  intros Hk (Hi & Hd & Hf). split; [|split].
  - now apply inv_add_timer.
  - apply dueinv_add_timer; [|exact Hd]. intros j Hj. exact (proj1 (Hk j Hj)).
  - apply flaginv_add_timer; [|exact Hf]. intros j Hj. exact (proj2 (Hk j Hj)).
Qed.

Lemma sound_add_inflight j h w :
  flag_ok j w ->
  sound (j :: h) w -> sound h (set_inflight (inflight w ++ [j]) w).
Proof.
  intros Hj (Hi & Hd & Hf). split; [|split].
  - now apply inv_add_inflight.
  - revert Hd. apply dueinv_frame; try reflexivity; cbn; lia.
  - now apply flaginv_add_inflight.
Qed.

Lemma sound_pop p j r h w :
  tasks w = (p, j) :: r -> sound h w -> sound (j :: h) (set_tasks r w).
Proof.
  intros Ht (Hi & Hd & Hf). split; [|split].
  - now apply (inv_pop p j r).
  - revert Hd. apply dueinv_frame; try reflexivity; cbn; lia.
  - revert Hf. apply flaginv_frame; reflexivity.
Qed.

Lemma sound_take_io n r k h w :
  io w !! n = Some (r, k) -> sound h w ->
  sound (cont_refs k ++ h) (set_io (delete n (io w)) w) /\
  (forall j, k = KWorker j ->
     due_ok j (set_io (delete n (io w)) w) /\ flag_ok j (set_io (delete n (io w)) w)).
Proof.
  intros Hn (Hi & Hd & Hf).
  destruct (dueinv_take_io w n r k Hn Hd) as [Hd' Hkd].
  destruct (flaginv_take_io w n r k Hn Hf) as [Hf' Hkf].
  split; [split; [now apply (inv_take_io n r k)|now split]|].
  intros j Hj. split; [now apply Hkd|now apply Hkf].
Qed.

Lemma sound_take_timer n t k h w :
  timers w !! n = Some (t, k) -> sound h w ->
  sound (cont_refs k ++ h) (set_timers (delete n (timers w)) w) /\
  (forall j, k = KWorker j ->
     due_ok j (set_timers (delete n (timers w)) w) /\
     flag_ok j (set_timers (delete n (timers w)) w)).
Proof.
  intros Hn (Hi & Hd & Hf).
  destruct (dueinv_take_timer w n t k Hn Hd) as [Hd' Hkd].
  destruct (flaginv_take_timer w n t k Hn Hf) as [Hf' Hkf].
  split; [split; [now apply (inv_take_timer n t k)|now split]|].
  intros j Hj. split; [now apply Hkd|now apply Hkf].
Qed.

Lemma sound_take_inflight j h w :
  In j (inflight w) -> sound h w ->
  sound (j :: h) (set_inflight (remove_first j (inflight w)) w) /\
  flag_ok j (set_inflight (remove_first j (inflight w)) w).
Proof.
  intros Hin (Hi & Hd & Hf).
  destruct (flaginv_take_inflight w j Hin Hf) as [Hf' Hj].
  split; [split; [now apply inv_take_inflight|split; [|exact Hf']]|exact Hj].
  revert Hd. apply dueinv_frame; try reflexivity; cbn; lia.
Qed.

Lemma sound_alloc job h w :
  sound h w -> sound (length (heap w) :: h) (set_heap (heap w ++ [job]) w).
Proof.
  intros (Hi & Hd & Hf). split; [|split].
  - now apply inv_alloc.
  - now apply dueinv_alloc.
  - now apply flaginv_alloc.
Qed.

Lemma new_world_sound (now : Z) (d : gmap string Job) : sound [] (new_world now d).
Proof.
  split; [apply new_world_inv|split].
  - split; [|split]; intros ? ? [].
  - split; [|split; [|split]]; [intros ? ? []|intros ? ? []|intros ? []|intros ? []].
Qed.

(** ** Every action keeps them, and throws nothing else *)

Section Soundness.

Variable o : Options.
Variable worker_throws : Job -> option Err.

Lemma trigger_good n e j h w : sound h w -> good (sound h) (trigger n e j w).
Proof. intros H. apply good_done. now apply sound_log. Qed.

Lemma call_back_good cb e j h w : sound h w -> good (sound h) (call_back cb e j w).
Proof.
  intros H. destruct cb; apply good_done; [now apply sound_log|exact H].
Qed.

Lemma _enqueue_good j h w : sound (j :: h) w -> good (sound h) (_enqueue j w).
Proof.
  intros H. destruct (sound_lookup j h w H) as [job Hj].
  rewrite (_enqueue_eq j w job Hj). apply good_done. now apply sound_enqueue.
Qed.

(** [retry] passes its guard when the flag is set. *)
Lemma retry_good j cb h w :
  flag_ok j w -> sound (j :: h) w -> good (sound h) (retry o j cb w).
Proof.
  intros (job & Hj & Hp) H. rewrite (retry_eq o j cb w job Hj Hp).
  apply good_done.
  apply (sound_add_io _ (KRetry j cb) h (set_heap _ w)); [intros ? [=]|].
  now apply (sound_update_held j h w job).
Qed.

Lemma _onJobComplete_good err job h w :
  (forall j, job = Some j -> flag_ok j w) ->
  (job = None -> err = None) ->
  sound (option_list job ++ h) w ->
  good (sound h) (_onJobComplete o err job w).
Proof.
  intros Hflag Hnone H.
  destruct err as [e|], job as [j|]; cbn [option_list app] in H.
  - destruct (sound_lookup j h w H) as [r Hj].
    rewrite (_onJobComplete_error_eq o w j r e Hj).
    set (w1 := set_log (log w ++ [Trigger "job:error" (Some e) (Some j);
                                  Trigger "error" (Some e) None]) w).
    assert (H1 : sound (j :: h) w1).
    { unfold w1. apply sound_log2; [reflexivity|reflexivity|exact H]. }
    assert (F1 : flag_ok j w1).
    { apply (flag_ok_frame j w w1); [reflexivity|now apply Hflag]. }
    destruct (retryFailedJobs o); [|apply good_done; exact (sound_weaken j h w1 H1)].
    destruct ((maxJobFailures o <=? 0)%Z || (attempts r <? maxJobFailures o)%Z).
    + now apply retry_good.
    + assert (H2 : sound h (set_log (log w1 ++ [Trigger "job:fail" None (Some j)]) w1)).
      { apply sound_log; [reflexivity|exact (sound_weaken j h w1 H1)]. }
      destruct (moveFailedJobs o); [|destruct (destroyFailedJobs o)]; apply good_done.
      * apply (sound_add_io _ KRename h (set_log _ w1)); [intros ? [=]|exact H2].
      * apply (sound_add_io _ (KDestroy j) h (set_log _ w1)); [intros ? [=]|exact H2].
      * exact H2.
  - discriminate (Hnone eq_refl).
  - destruct (sound_lookup j h w H) as [r Hj].
    assert (H1 : sound h (set_log (log w ++ [Trigger "job:complete" None (Some j)]) w)).
    { apply sound_log; [reflexivity|exact (sound_weaken j h w H)]. }
    unfold _onJobComplete, _destroy. msimpl.
    destruct (moveSuccessfulJobs o); [|destruct (destroySuccessfulJobs o)].
    + erewrite with_job_eq by (wsimpl; exact Hj). msimpl. apply good_done.
      apply (sound_add_io _ KRename h (set_log _ w)); [intros ? [=]|exact H1].
    + erewrite with_job_eq by (wsimpl; exact Hj). msimpl. apply good_done.
      apply (sound_add_io _ (KDestroy j) h (set_log _ w)); [intros ? [=]|exact H1].
    + msimpl. apply good_done. exact H1.
  - apply good_done. exact H.
Qed.

Lemma _worker_good j h w : sound (j :: h) w -> good (sound h) (_worker o j w).
Proof.
  intros H. destruct (sound_lookup j h w H) as [job Hj].
  destruct (Z_le_gt_dec (scheduled job) (clock w)) as [Hdue|Hdue].
  - rewrite (_worker_due_eq o j w job Hj Hdue). apply good_done.
    apply (sound_add_io _ (KWorker j) h (set_heap _ w)).
    + intros i [= <-]. split; eexists; wsimpl;
        (split; [now apply (lookup_insert_same _ _ job)|]);
        [exact Hdue|reflexivity].
    + now apply (sound_update_held j h w job).
  - rewrite (_worker_early_eq o j w job Hj) by lia. apply good_done.
    apply (sound_add_timer _ (KEarly j) h (set_heap _ w)); [intros ? [=]|].
    now apply (sound_update_held j h w job).
Qed.

Lemma process_good h w : sound h w -> good (sound h) (process o w).
Proof.
  intros H. unfold process.
  destruct (negb (paused w) && (workers w <? concurrency o)%nat);
    [|now apply good_done].
  destruct (tasks w) as [|[p j] r] eqn:Ht; [now apply good_done|].
  apply _worker_good.
  apply (sound_pop p j r h (set_workers _ w)); [exact Ht|].
  revert H. apply sound_same; try reflexivity; cbn; lia.
Qed.

Lemma next_good err job h w :
  (forall j, job = Some j -> flag_ok j w) ->
  (job = None -> err = None) ->
  sound (option_list job ++ h) w ->
  good (sound h) (next o err job w).
Proof.
  intros Hflag Hnone H. unfold next. msimpl.
  apply (good_seq (sound h)).
  - apply _onJobComplete_good; [|exact Hnone|].
    + intros j Hj. apply (flag_ok_frame j w); [reflexivity|now apply Hflag].
    + revert H. apply sound_same; try reflexivity; cbn; lia.
  - intros w1. apply process_good.
  - trivial.
Qed.

Lemma invoke_worker_good j h w :
  due_ok j w -> flag_ok j w -> sound (j :: h) w ->
  good (sound h) (invoke_worker o worker_throws j w).
Proof.
  intros (cur & Hj & Hdue) Hflag H.
  assert (H1 : sound (j :: h) (set_log (log w ++ [Exec j cur]) w))
    by (now apply sound_exec).
  assert (F1 : flag_ok j (set_log (log w ++ [Exec j cur]) w))
    by (apply (flag_ok_frame j w); [reflexivity|exact Hflag]).
  unfold invoke_worker. rewrite (with_job_eq j _ w cur Hj). msimpl.
  destruct (worker_throws cur) as [e|].
  - apply (next_good (Some e) (Some j)); [intros ? [= <-]; exact F1|discriminate|exact H1].
  - msimpl. apply good_done.
    now apply (sound_add_inflight j h (set_log _ w)).
Qed.

Lemma whilst_running_good cb h w :
  sound h w -> good (sound h) (whilst_running cb w).
Proof.
  intros H. unfold whilst_running. destruct (workers w =? 0)%nat.
  - apply good_done. now apply sound_log.
  - unfold setTimeout. msimpl. apply good_done.
    apply (sound_add_timer _ (KPoll cb) h w); [intros ? [=]|exact H].
Qed.

Lemma enqueue_then_good j k h w :
  (forall w, sound h w -> good (sound h) (k w)) ->
  sound (j :: h) w -> good (sound h) ((_enqueue j >> k) w).
Proof.
  intros Hk H.
  apply (good_seq (sound h)); [now apply _enqueue_good|exact Hk|trivial].
Qed.

Lemma trigger_then_good n e j k h w :
  (forall w, sound h w -> good (sound h) (k w)) ->
  sound h w -> good (sound h) ((trigger n e j >> k) w).
Proof.
  intros Hk H.
  apply (good_seq (sound h)); [now apply trigger_good|exact Hk|trivial].
Qed.

Lemma run_cont_good k err h w :
  (forall j, k = KWorker j -> due_ok j w /\ flag_ok j w) ->
  sound (cont_refs k ++ h) w ->
  good (sound h) (run_cont o worker_throws k err w).
Proof.
  intros Hk H.
  destruct k as [j|j cb|j cb| |j|j|cb]; cbn [cont_refs app run_cont] in *.
  - destruct (Hk j eq_refl) as [Hdue Hflag]. destruct err as [e|].
    + apply (next_good (Some e) (Some j)); [intros ? [= <-]; exact Hflag|discriminate|exact H].
    + now apply invoke_worker_good.
  - destruct err as [e|].
    + apply call_back_good. exact (sound_weaken j h w H).
    + apply enqueue_then_good; [|exact H]. intros w1 H1.
      apply trigger_then_good; [|exact H1]. intros w2. apply call_back_good.
  - destruct err as [e|].
    + apply trigger_then_good; [|exact (sound_weaken j h w H)]. intros w1 H1.
      apply trigger_then_good; [|exact H1]. intros w2. apply call_back_good.
    + apply enqueue_then_good; [|exact H]. intros w1 H1.
      apply trigger_then_good; [|exact H1]. intros w2 H2.
      apply trigger_then_good; [|exact H2]. intros w3. apply call_back_good.
  - destruct err; [now apply trigger_good|now apply good_done].
  - destruct err; [now apply good_done|now apply trigger_good].
  - apply enqueue_then_good; [|exact H]. intros w1 H1.
    apply (next_good None None); [intros ? [=]|trivial|exact H1].
  - now apply whilst_running_good.
Qed.

Lemma complete_io_good r k res h w :
  (forall j, k = KWorker j -> due_ok j w /\ flag_ok j w) ->
  sound (cont_refs k ++ h) w ->
  good (sound h) (complete_io o worker_throws r k res w).
Proof.
  intros Hk H.
  assert (Hframe : forall w', heap w' = heap w -> clock w' = clock w ->
            forall j, k = KWorker j -> due_ok j w' /\ flag_ok j w').
  { intros w' Hh Hc j Hj. destruct (Hk j Hj) as [Hd Hf]. split.
    - apply (due_ok_frame j w w'); [exact Hh|lia|exact Hd].
    - apply (flag_ok_frame j w w'); [exact Hh|exact Hf]. }
  destruct r as [path snap|src dst|path], res as [e|];
    cbn [complete_io]; msimpl.
  - apply run_cont_good; [now apply Hframe|]. now apply sound_log.
  - apply run_cont_good; [now apply Hframe|].
    apply (sound_log _ _ (set_disk _ w)); [reflexivity|].
    revert H. apply sound_same; try reflexivity; cbn; lia.
  - now apply run_cont_good.
  - destruct (disk w !! src).
    + apply run_cont_good; [now apply Hframe|].
      revert H. apply sound_same; try reflexivity; cbn; lia.
    + now apply run_cont_good.
  - split; [exact (sound_weaken_app _ _ _ H)|reflexivity].
  - apply run_cont_good; [now apply Hframe|].
    revert H. apply sound_same; try reflexivity; cbn; lia.
Qed.

Lemma step_good ev w :
  not_manual_retry ev = true ->
  sound [] w -> good (sound []) (step o worker_throws ev w).
Proof.
  intros Hev H.
  destruct ev; cbn [step]; try discriminate Hev.
  - rewrite (push_eq o id data sched cb w). apply good_done.
    apply (sound_add_io _ (KPush (length (heap w)) cb) [] (set_heap _ w));
      [intros ? [=]|].
    now apply sound_alloc.
  - unfold pause. destruct (negb (paused w)); [|now apply good_done]. msimpl.
    apply good_done. apply (sound_log _ _ (set_paused true w)); [reflexivity|].
    revert H. apply sound_same; try reflexivity; cbn; lia.
  - unfold resume. destruct (paused w); [|now apply good_done]. msimpl.
    apply good_done. apply (sound_log _ _ (set_paused false w)); [reflexivity|].
    revert H. apply sound_same; try reflexivity; cbn; lia.
  - unfold shutdown. msimpl. apply whilst_running_good.
    revert H. apply sound_same; try reflexivity; cbn; lia.
  - now apply process_good.
  - destruct (io w !! n) as [[r k]|] eqn:Hn; [|now apply good_done].
    destruct (sound_take_io n r k [] w Hn H) as [H' Hk].
    now apply complete_io_good.
  - destruct (timers w !! n) as [[t k]|] eqn:Hn; [|now apply good_done].
    destruct (t <=? clock w)%Z; [|now apply good_done].
    destruct (sound_take_timer n t k [] w Hn H) as [H' Hk].
    now apply run_cont_good.
  - unfold member. destruct (bool_decide (j ∈ inflight w)) eqn:Hm.
    + apply bool_decide_eq_true in Hm. apply list_elem_of_In in Hm.
      destruct (sound_take_inflight j [] w Hm H) as [H' Hj].
      apply (next_good res (Some j)); [intros ? [= <-]; exact Hj|discriminate|exact H'].
    + now apply trigger_good.
  - msimpl. apply good_done.
    revert H. apply sound_same; try reflexivity; cbn; lia.
Qed.

Lemma exec_sound ev w :
  not_manual_retry ev = true ->
  sound [] w -> sound [] (exec o worker_throws w ev).
Proof.
  intros Hev H. destruct (step_good ev w Hev H) as [H1 H2]. unfold exec.
  destruct (step o worker_throws ev w) as [w'|e w']; cbn [final harmless] in *;
    [exact H1|].
  apply sound_entry; [reflexivity| |exact H1]. intros ? [= <-]. exact H2.
Qed.

Lemma run_sound evs w :
  forallb not_manual_retry evs = true ->
  sound [] w -> sound [] (run o worker_throws evs w).
Proof.
  revert w. induction evs as [|ev evs IH]; intros w Hevs H; [exact H|].
  cbn in Hevs. apply andb_true_iff in Hevs as [Hev Hevs].
  cbn [run fold_left]. apply IH; [exact Hevs|]. now apply exec_sound.
Qed.

Lemma enqueue_all_good jobs w :
  sound [] w -> good (sound []) (enqueue_all jobs w).
Proof.
  revert w. induction jobs as [|job rest IH]; intros w H; [now apply good_done|].
  cbn [enqueue_all].
  apply (good_seq (sound [])); [|intros w1; apply IH|trivial].
  unfold alloc. msimpl. apply _enqueue_good. now apply sound_alloc.
Qed.

Lemma _init_good (fromDisk : string -> Err + Job) (listing : Err + list string)
    (order : list nat) (now : Z) (d : gmap string Job) :
  good (sound []) (_init o fromDisk listing order (new_world now d)).
Proof.
  assert (H0 : sound [] (set_paused true (set_tasks [] (new_world now d))))
    by apply new_world_sound.
  unfold _init, _reload. msimpl.
  destruct listing as [e|files]; [apply good_done; now apply sound_log|].
  destruct (parallelLimit _ order) as [e|jobs];
    [apply good_done; now apply sound_log|].
  apply (good_seq (sound [])); [now apply enqueue_all_good| |trivial].
  intros w1 H1. msimpl.
  apply (sound_log (Trigger "ready" None None)) in H1; [|reflexivity].
  destruct (autoStart o); msimpl; apply good_done; [|exact H1].
  revert H1. apply sound_same; try reflexivity; cbn; lia.
Qed.

End Soundness.

(** X12. In every run from a fresh controller in which [retry] is not
    called by hand, no record is handed to the caller's worker before its
    due time: each recorded invocation carries a record whose due time had
    arrived (the clock never goes back, so it is not later than the
    present time either). *)
Theorem X12_no_execution_before_due_time
    (o : Options) (worker_throws : Job -> option Err)
    (fromDisk : string -> Err + Job) (listing : Err + list string)
    (order : list nat) (now : Z) (d : gmap string Job) (evs : list Event)
    (j : jref) (snap : Job) :
  forallb not_manual_retry evs = true ->
  let w := run o worker_throws evs
             (final (_init o fromDisk listing order (new_world now d))) in
  In (Exec j snap) (log w) ->
  (scheduled snap <= clock w)%Z.
Proof.
  intros Hevs w Hin.
  destruct (run_sound o worker_throws evs _ Hevs
              (proj1 (_init_good o fromDisk listing order now d)))
    as (_ & (_ & _ & D3) & _).
  exact (D3 j snap Hin).
Qed.

Lemma X12_witness :
  forallb not_manual_retry always_failing = true /\
  In (Exec 0 (mkJob "a" "data" "q" "q/a" 1 true 110000))
     (log (run retrying_options never_throws always_failing
             (final (_init retrying_options (fun _ => inl "unused") (inr []) []
                       (new_world 100000 ∅))))) /\
  (110000 <= clock (run retrying_options never_throws always_failing
                      (final (_init retrying_options (fun _ => inl "unused") (inr []) []
                                (new_world 100000 ∅)))))%Z.
Proof.
  assert (Hin : In (Exec 0 (mkJob "a" "data" "q" "q/a" 1 true 110000))
                   (log (run retrying_options never_throws always_failing
                           (final (_init retrying_options (fun _ => inl "unused")
                                     (inr []) [] (new_world 100000 ∅)))))).
  { vm_compute. right. right. right. right. left. reflexivity. }
  split; [reflexivity|]. split; [exact Hin|].
  exact (X12_no_execution_before_due_time retrying_options never_throws
           (fun _ => inl "unused") (inr []) [] 100000%Z ∅ always_failing
           0%nat (mkJob "a" "data" "q" "q/a" 1 true 110000) eq_refl Hin).
Defined.

(** Manual retry is what the statement has to exclude: after
    [retry_before_execution] the caller's worker has been given a record
    that is due at 105000 while the clock shows 100000. *)
Example manual_retry_can_run_a_record_early :
  let w := run demo_options never_throws retry_before_execution
             (started demo_options 100000) in
  In (Exec 0 (mkJob "a" "data" "q" "q/a" 1 true 105000)) (log w) /\
  clock w = 100000%Z.
Proof.
  vm_compute. split; [|reflexivity].
  right. right. right. right. left. reflexivity.
Qed.

(** X13. In every run from a fresh controller in which [retry] is not
    called by hand, the guard of [retry] never fails: whenever
    [_onJobComplete] retries a record after a failure, be it one the
    caller's worker reported or a failed write before the execution, the
    record's [processing] flag is set, so "Cannot retry job because it is
    unprocessed" is never thrown. *)
Theorem X13_automatic_retry_passes_the_guard
    (o : Options) (worker_throws : Job -> option Err)
    (fromDisk : string -> Err + Job) (listing : Err + list string)
    (order : list nat) (now : Z) (d : gmap string Job) (evs : list Event) :
  forallb not_manual_retry evs = true ->
  let w := run o worker_throws evs
             (final (_init o fromDisk listing order (new_world now d))) in
  ~ In (Uncaught "Cannot retry job because it is unprocessed") (log w).
Proof.
  intros Hevs w Hin.
  destruct (run_sound o worker_throws evs _ Hevs
              (proj1 (_init_good o fromDisk listing order now d)))
    as (_ & _ & (_ & _ & _ & F4)).
  discriminate (F4 _ Hin).
Qed.

Lemma X13_witness :
  forallb not_manual_retry always_failing = true /\
  ~ In (Uncaught "Cannot retry job because it is unprocessed")
       (log (run retrying_options never_throws always_failing
               (final (_init retrying_options (fun _ => inl "unused") (inr []) []
                         (new_world 100000 ∅))))).
Proof.
  split; [reflexivity|].
  exact (X13_automatic_retry_passes_the_guard retrying_options never_throws
           (fun _ => inl "unused") (inr []) [] 100000%Z ∅ always_failing eq_refl).
Defined.

(** X14. In every run from a fresh controller in which [retry] is not
    called by hand, every record in the hands of the caller's worker has
    its [processing] flag set: [_worker] sets it before the persist that
    precedes the execution, and nothing clears it until the record is
    put into the queue again. *)
Theorem X14_records_in_execution_are_flagged
    (o : Options) (worker_throws : Job -> option Err)
    (fromDisk : string -> Err + Job) (listing : Err + list string)
    (order : list nat) (now : Z) (d : gmap string Job) (evs : list Event)
    (j : jref) :
  forallb not_manual_retry evs = true ->
  let w := run o worker_throws evs
             (final (_init o fromDisk listing order (new_world now d))) in
  In j (inflight w) ->
  exists job, heap w !! j = Some job /\ processing job = true.
Proof.
  intros Hevs w Hin.
  destruct (run_sound o worker_throws evs _ Hevs
              (proj1 (_init_good o fromDisk listing order now d)))
    as (_ & _ & (_ & _ & F3 & _)).
  exact (F3 j Hin).
Qed.

Lemma X14_witness :
  forallb not_manual_retry push_and_start = true /\
  In 0%nat
     (inflight (run retrying_options never_throws push_and_start
                  (final (_init retrying_options (fun _ => inl "unused") (inr []) []
                            (new_world 100000 ∅))))) /\
  exists job,
    heap (run retrying_options never_throws push_and_start
            (final (_init retrying_options (fun _ => inl "unused") (inr []) []
                      (new_world 100000 ∅)))) !! 0%nat = Some job /\
    processing job = true.
Proof.
  assert (Hin : In 0%nat
                  (inflight (run retrying_options never_throws push_and_start
                     (final (_init retrying_options (fun _ => inl "unused")
                               (inr []) [] (new_world 100000 ∅)))))).
  { vm_compute. left. reflexivity. }
  split; [reflexivity|]. split; [exact Hin|].
  exact (X14_records_in_execution_are_flagged retrying_options never_throws
           (fun _ => inl "unused") (inr []) [] 100000%Z ∅ push_and_start
           0%nat eq_refl Hin).
Defined.

(** ** Retry after a failure *)

(** C3, as the code has it.  An execution that completes with an error is
    retried exactly when [retryFailedJobs] is set, [maxJobFailures <= 0]
    or [attempts < maxJobFailures], and the [processing] flag of the
    record is still set.  When the flag has been cleared, a failure within
    the budget makes [retry] throw instead, after [job:error] and [error]
    have been fired.  In every run from a fresh controller in which
    [retry] is not called by hand the flag is set for every record whose
    failure can be reported: the records in the hands of the caller's
    worker and those waiting for the write that precedes their execution.
    With [maxJobFailures = 3] the first and second failure are retried and
    the third fires [job:fail] instead; with [maxJobFailures <= 0] every
    failure is retried.  The run of a record that always fails shows the
    same: two retries, then the record is renamed to its failed marker
    with three attempts made. *)
Theorem C3_retry_iff_within_budget
    (o : Options) (w : World) (j : jref) (r : Job) (e : Err) :
  heap w !! j = Some r ->
  let w' := final (_onJobComplete o (Some e) (Some j) w) in
  (retry_requested j w w' <->
     processing r = true /\
     retryFailedJobs o = true /\
     (maxJobFailures o <= 0 \/ attempts r < maxJobFailures o)%Z) /\
  (processing r = false ->
   retryFailedJobs o = true ->
   (maxJobFailures o <= 0 \/ attempts r < maxJobFailures o)%Z ->
     _onJobComplete o (Some e) (Some j) w =
       Thrown "Cannot retry job because it is unprocessed"
         (set_log (log w ++ [Trigger "job:error" (Some e) (Some j);
                             Trigger "error" (Some e) None]) w)) /\
  (forall (worker_throws : Job -> option Err) (fromDisk : string -> Err + Job)
          (listing : Err + list string) (order : list nat) (now : Z)
          (d : gmap string Job) (evs : list Event) (i : jref),
     forallb not_manual_retry evs = true ->
     let v := run o worker_throws evs
                (final (_init o fromDisk listing order (new_world now d))) in
     In i (inflight v) \/ (exists req, In (req, KWorker i) (io v)) ->
     exists x, heap v !! i = Some x /\ processing x = true) /\
  (retryFailedJobs o = true -> maxJobFailures o = 3%Z ->
     (processing r = true -> (attempts r = 1 \/ attempts r = 2)%Z ->
        retry_requested j w w') /\
     (attempts r = 3%Z ->
        ~ retry_requested j w w' /\
        fired (log w') = fired (log w) ++ ["job:error"; "error"; "job:fail"])) /\
  (retryFailedJobs o = true -> (maxJobFailures o <= 0)%Z -> processing r = true ->
     retry_requested j w w') /\
  (fired (log always_failing_end) =
     ["ready"; "job:queue";
      "job:error"; "error"; "job:retry"; "job:queue";
      "job:error"; "error"; "job:retry"; "job:queue";
      "job:error"; "error"; "job:fail"] /\
   attempts <$> heap always_failing_end !! 0%nat = Some 3%Z /\
   tasks always_failing_end = [] /\
   is_Some (disk always_failing_end !! "q/.failed-a") /\
   disk always_failing_end !! "q/a" = None).
Proof.
  intros H w'.
  pose proof (_onJobComplete_retries_iff o w j r e H) as Hiff.
  fold w' in Hiff. unfold within_budget in Hiff.
  split; [exact Hiff|]. split; [|split; [|split; [|split]]].
  - intros Hp Hr Hm. apply (_onJobComplete_unprocessed o w j r e H Hp).
    split; [exact Hr|exact Hm].
  - intros worker_throws fromDisk listing order now d evs i Hevs v Hi.
    destruct (run_sound o worker_throws evs _ Hevs
                (proj1 (_init_good o fromDisk listing order now d)))
      as (_ & _ & (F1 & _ & F3 & _)).
    destruct Hi as [Hi|[req Hi]]; [exact (F3 i Hi)|exact (F1 req i Hi)].
  - intros Hr Hm. split.
    + intros Hp Ha. apply Hiff. split; [exact Hp|]. split; [exact Hr|]. right. lia.
    + intros Ha. split.
      * intros Hq. apply Hiff in Hq. lia.
      * unfold w'. rewrite (_onJobComplete_error_eq o w j r e H), Hr.
        replace ((maxJobFailures o <=? 0)%Z || (attempts r <? maxJobFailures o)%Z)
          with false
          by (symmetry; apply orb_false_iff; split;
              [apply Z.leb_gt|apply Z.ltb_ge]; lia).
        unfold fired.
        destruct (moveFailedJobs o); [|destruct (destroyFailedJobs o)];
          wsimpl; rewrite !omap_app; cbn; now rewrite <- app_assoc.
  - intros Hr Hm Hp. apply Hiff. split; [exact Hp|]. split; [exact Hr|]. now left.
  - vm_compute. repeat split; eauto.
Qed.

Lemma C3_witness :
  heap demo_failed_world !! 0%nat = Some (mkJob "a" "data" "q" "q/a" 1 true 5) /\
  retry_requested 0 demo_failed_world
    (final (_onJobComplete retrying_options (Some "boom") (Some 0%nat) demo_failed_world)).
Proof.
  split; [reflexivity|].
  apply (proj2 (proj1
    (C3_retry_iff_within_budget retrying_options demo_failed_world 0
       (mkJob "a" "data" "q" "q/a" 1 true 5) "boom" eq_refl))).
  split; [reflexivity|]. split; [reflexivity|]. right. reflexivity.
Defined.
